(** * amp-story-interactive: percentage apportionment and response lifecycle

    A shallow embedding of [extensions/amp-story/1.0/amp-story-interactive.js]:
    the pure percentage pre-processing ([preprocessPercentages_]) and the
    tap / retrieval handlers of the [AmpStoryInteractive] component. *)

From Stdlib Require Import ZArith NArith QArith Qabs Qround Lia List.
From stdpp Require Import base list sorting numbers gmap.
From stdpp Require Import strings.

Local Open Scope Z_scope.

(** ** Shared data *)

(** [InteractiveOptionType]: one entry of the aggregate data.  Counts are
    response tallies, hence naturals. *)
Record InteractiveOptionType := {
  optionIndex : nat;
  totalCount : N;
  selectedByUser : bool
}.

(** Cells of a JavaScript array of numbers as the engine can return them:
    a hole that was never assigned, the not-a-number value, or an integer. *)
Inductive JsValue :=
  | Empty
  | NaN
  | Int (z : Z).

Definition sumZ (l : list Z) : Z := foldr Z.add 0 l.

(** ** The apportionment engine *)

Module Engine.

(** Every percentage the function handles is a string produced by
    [toFixed(2)], i.e. a decimal with exactly two fractional digits.  Such a
    string is represented by its value in hundredths: "33.33" is [3333]. *)

(** [Math.round(p)]: nearest integer, halves towards plus infinity. *)
Definition Math_round (p : Z) : Z := (p + 50) / 100.

(** [Math.floor(p)]. *)
Definition Math_floor (p : Z) : Z := p / 100.

(** [(p - Math.floor(p)).toFixed(2)], again in hundredths. *)
Definition fractionOf (p : Z) : Z := p mod 100.

(** [(num / den).toFixed(2)] for a quotient that is already expressed in
    hundredths: the nearest integer to [num / den], halves upwards. *)
Definition toFixed2 (num den : Z) : Z := (2 * num + den) / (2 * den).

(** [acc + Math.round(x)] folded over the percentages. *)
Definition roundedTotal (percentages : list Z) : Z :=
  fold_left (fun acc x => acc + Math_round x) percentages 0.

(** [(percentage - (2 * (percentage - Math.floor(percentage))) / 3).toFixed(2)].
    The exact value is [(3 p - 2 frac) / 3] hundredths, which is never half
    way between two hundredths. *)
Definition overshootAdjust (percentage : Z) : Z :=
  toFixed2 (3 * percentage - 2 * fractionOf percentage) 3.

(** Source lines 444-455: the rounded total, and the special case applied
    when it breaks 100.  Returns the percentages and the total the rest of
    the function works with. *)
Definition correctOvershoot (percentages : list Z) : list Z * Z :=
  let total := roundedTotal percentages in
  if 100 <? total then
    let percentages := map overshootAdjust percentages in
    (percentages, roundedTotal percentages)
  else (percentages, total).

(** The objects of [preserveOriginal]. *)
Record PercentageObj := {
  originalIndex : nat;
  value : Z;
  remainder : Z
}.

(** The comparison function handed to [sort]:
    [right.remainder - left.remainder || right.value - left.value]. *)
Definition compareFn (left right : PercentageObj) : Z :=
  if decide (remainder right - remainder left = 0)
  then value right - value left
  else remainder right - remainder left.

(** [left] may stay in front of [right]. *)
Definition sortsBefore (left right : PercentageObj) : Prop :=
  compareFn left right <= 0.

#[global] Instance sortsBefore_dec : RelDecision sortsBefore.
Proof. intros l r. unfold sortsBefore. apply _. Defined.

(** [finalPercentages] starts as the empty array and is only ever written
    by index.  It is kept as the sequence of its index assignments, newest
    first, and read back as an array at the end. *)
Definition arraySet (arr : list (nat * Z)) (i : nat) (v : Z) : list (nat * Z) :=
  (i, v) :: arr.

Definition arrayLength (arr : list (nat * Z)) : nat :=
  max_list (map (fun w => S (fst w)) arr).

Definition arrayGet (arr : list (nat * Z)) (i : nat) : JsValue :=
  match (list_to_map arr : gmap nat Z) !! i with
  | Some v => Int v
  | None => Empty
  end.

Definition arrayToList (arr : list (nat * Z)) : list JsValue :=
  map (arrayGet arr) (seq 0 (arrayLength arr)).

(** The state the [while] loop of lines 479-499 works on. *)
Record LoopState := {
  st_remainder : Z;
  st_preserveOriginal : list PercentageObj;
  st_finalPercentages : list (nat * Z)
}.

(** [remainder > 0 && preserveOriginal.length !== 0]. *)
Definition loopCond (st : LoopState) : bool :=
  (0 <? st_remainder st) && negb (length (st_preserveOriginal st) =? 0)%nat.

(** One pass through the loop body. *)
Definition loopBody (st : LoopState) : LoopState :=
  match st_preserveOriginal st with
  | [] => st
  | highestRemainderObj :: _ =>
      let ties :=
        filter (fun percentageObj => value percentageObj = value highestRemainderObj)
               (st_preserveOriginal st) in
      let preserveOriginal :=
        filter (fun percentageObj => value percentageObj <> value highestRemainderObj)
               (st_preserveOriginal st) in
      let toRoundUp :=
        (Z.of_nat (length ties) <=? st_remainder st)
        && negb (remainder highestRemainderObj =? 0) in
      let finalPercentages :=
        fold_left
          (fun arr percentageObj =>
             arraySet arr (originalIndex percentageObj)
                      (Math_floor (value percentageObj) + (if toRoundUp then 1 else 0)))
          ties (st_finalPercentages st) in
      {| st_remainder :=
           st_remainder st - (if toRoundUp then Z.of_nat (length ties) else 0);
         st_preserveOriginal := preserveOriginal;
         st_finalPercentages := finalPercentages |}
  end.

(** The loop itself, bounded by a number of passes. *)
Fixpoint whileLoop (fuel : nat) (st : LoopState) : LoopState :=
  match fuel with
  | O => st
  | S fuel' => if loopCond st then whileLoop fuel' (loopBody st) else st
  end.

(** Source lines 465-476: the percentages with their positions and
    remainders, highest remainder first, higher value first among equal
    remainders. *)
Definition preserveOriginalOf (percentages : list Z) : list PercentageObj :=
  merge_sort sortsBefore
    (imap (fun index percentage =>
             {| originalIndex := index;
                value := percentage;
                remainder := fractionOf percentage |})
          percentages).

(** The state in which the loop is entered. *)
Definition loopStart (remainder0 : Z) (percentages : list Z) : LoopState :=
  {| st_remainder := remainder0;
     st_preserveOriginal := preserveOriginalOf percentages;
     st_finalPercentages := [] |}.

(** Source lines 463-505: largest remainders first, ties kept together,
    whatever is left floored.  The result is the sequence of assignments
    made to [finalPercentages]. *)
Definition distribute (remainder0 : Z) (percentages : list Z) : list (nat * Z) :=
  let st :=
    whileLoop (length (preserveOriginalOf percentages))
              (loopStart remainder0 percentages) in
  fold_left
    (fun arr percentageObj =>
       arraySet arr (originalIndex percentageObj) (Math_floor (value percentageObj)))
    (st_preserveOriginal st) (st_finalPercentages st).

Definition totalResponseCountOf (optionsData : list InteractiveOptionType) : N :=
  fold_left (fun acc response => (acc + totalCount response)%N) optionsData 0%N.

Section WithQuotient.

(** [toFixed2Pct c t] stands for [((100 * c) / t).toFixed(2)], in hundredths.
    The quotient is a binary floating-point number in the source, so which
    of two equally near hundredths is printed is left to this function: the
    properties below that depend on it assume [nearestHundredth] and nothing
    else, and [toFixed2HalfUp] is the instance that rounds the exact
    quotient. *)
Variable toFixed2Pct : N -> N -> Z.

(** Source lines 441-443: the percentages as printed. *)
Definition rawPercentages (optionsData : list InteractiveOptionType) : list Z :=
  map (fun e => toFixed2Pct (totalCount e) (totalResponseCountOf optionsData))
      optionsData.

(** [preprocessPercentages_].  With no responses at all every quotient is
    0/0: each comparison is false, the loop is skipped and every position
    receives [Math.floor(NaN)]. *)
Definition preprocessPercentages_ (optionsData : list InteractiveOptionType)
  : list JsValue :=
  let totalResponseCount := totalResponseCountOf optionsData in
  if (totalResponseCount =? 0)%N then map (fun _ => NaN) optionsData else
  let percentages := rawPercentages optionsData in
  let '(percentages, total) := correctOvershoot percentages in
  if total =? 100 then map (fun percentage => Int (Math_round percentage)) percentages
  else arrayToList (distribute (100 - total) percentages).

End WithQuotient.

(** The printed quotient is one of the hundredths nearest to [100 c / t]. *)
Definition nearestHundredth (f : N -> N -> Z) : Prop :=
  forall c t : N, (0 < t)%N -> (c <= t)%N ->
    20000 * Z.of_N c - Z.of_N t <= 2 * Z.of_N t * f c t <= 20000 * Z.of_N c + Z.of_N t.

(** Exact rounding of the quotient, halves upwards. *)
Definition toFixed2HalfUp (c t : N) : Z :=
  toFixed2 (10000 * Z.of_N c) (Z.of_N t).

(** Option data carrying the given counts, indexed in order. *)
Definition ofCounts (counts : list N) : list InteractiveOptionType :=
  imap (fun i c => {| optionIndex := i; totalCount := c; selectedByUser := false |})
       counts.

End Engine.

(** ** The component: taps and retrieval *)

Module Lifecycle.

(** The [options] property of a response. *)
Inductive OptionsField :=
  | OptionsAbsent
  | OptionsFalsy
  | OptionsArray (entries : list InteractiveOptionType).

(** What the retrieval request resolves with: nothing usable ([undefined],
    as after a logged request failure), or an object. *)
Inductive Response :=
  | NoResponse
  | ResponseObject (options : OptionsField).

(** [backendDataPromise_]: [null] until [layoutCallback], then a promise. *)
Inductive PromiseState :=
  | PromiseNull
  | Pending
  | Fulfilled
  | Rejected.

Inductive Method := GET | POST.

(** The callbacks handed to [mutateElement]; they only touch the display.
    - [SelectionMutation optionEl] (lines 531-536): show the percentages of
      [optionsData_] if there is any, then mark [optionEl] as selected;
    - [FallbackMutation optionEl] (lines 546-548): mark [optionEl] as
      selected;
    - [RetrievalMutation data index] (lines 661-664): show the percentages
      of [data], then mark the option at [index] as selected. *)
Inductive Mutation :=
  | SelectionMutation (optionEl : nat)
  | FallbackMutation (optionEl : nat)
  | RetrievalMutation (data : list InteractiveOptionType) (index : nat).

(** Calls that leave the component, in the order they are made: the
    analytics event of [triggerAnalytics_], a callback handed to
    [mutateElement], a request started by [executeInteractiveRequest_], an
    error handed to [dev().error]. *)
Inductive Effect :=
  | TriggerAnalytics (optionIndex : nat)
  | MutateElement (callback : Mutation)
  | ExecuteRequest (method : Method) (optionSelected : option nat)
  | DevError.

(** The component.  The first four fields do not change and stand for what
    the class takes from outside: whether the element has an [endpoint]
    attribute, whether [assertAbsoluteHttpOrHttpsUrl] (url module, not among
    the sources) answers with a truthy value for it, the number of elements
    carrying the option class, and whether [devAssert] throws.
    [reactions] are the option elements whose [then]/[catch] pair is
    registered on the pending [backendDataPromise_].  [superseded] holds
    the promises that were still pending when [layoutCallback] put another
    one in their place: the field no longer refers to them, but their
    requests can still be answered, and what was registered on each stays
    with it. *)
Record Component := {
  hasEndpoint : bool;
  endpointIsHttp : bool;
  numOptions : nat;
  devAsserts : bool;
  hasUserSelection_ : bool;
  optionsData_ : option (list InteractiveOptionType);
  backendDataPromise_ : PromiseState;
  reactions : list nat;
  superseded : list (list nat);
  effects : list Effect
}.

Definition setHasUserSelection (b : bool) (this : Component) : Component :=
  {| hasEndpoint := hasEndpoint this; endpointIsHttp := endpointIsHttp this;
     numOptions := numOptions this; devAsserts := devAsserts this;
     hasUserSelection_ := b;
     optionsData_ := optionsData_ this;
     backendDataPromise_ := backendDataPromise_ this;
     reactions := reactions this; superseded := superseded this;
     effects := effects this |}.

Definition setOptionsData (d : option (list InteractiveOptionType)) (this : Component)
  : Component :=
  {| hasEndpoint := hasEndpoint this; endpointIsHttp := endpointIsHttp this;
     numOptions := numOptions this; devAsserts := devAsserts this;
     hasUserSelection_ := hasUserSelection_ this;
     optionsData_ := d;
     backendDataPromise_ := backendDataPromise_ this;
     reactions := reactions this; superseded := superseded this;
     effects := effects this |}.

Definition setBackendDataPromise (p : PromiseState) (this : Component) : Component :=
  {| hasEndpoint := hasEndpoint this; endpointIsHttp := endpointIsHttp this;
     numOptions := numOptions this; devAsserts := devAsserts this;
     hasUserSelection_ := hasUserSelection_ this;
     optionsData_ := optionsData_ this;
     backendDataPromise_ := p;
     reactions := reactions this; superseded := superseded this;
     effects := effects this |}.

Definition setReactions (r : list nat) (this : Component) : Component :=
  {| hasEndpoint := hasEndpoint this; endpointIsHttp := endpointIsHttp this;
     numOptions := numOptions this; devAsserts := devAsserts this;
     hasUserSelection_ := hasUserSelection_ this;
     optionsData_ := optionsData_ this;
     backendDataPromise_ := backendDataPromise_ this;
     reactions := r; superseded := superseded this; effects := effects this |}.

Definition setSuperseded (old : list (list nat)) (this : Component) : Component :=
  {| hasEndpoint := hasEndpoint this; endpointIsHttp := endpointIsHttp this;
     numOptions := numOptions this; devAsserts := devAsserts this;
     hasUserSelection_ := hasUserSelection_ this;
     optionsData_ := optionsData_ this;
     backendDataPromise_ := backendDataPromise_ this;
     reactions := reactions this; superseded := old; effects := effects this |}.

Definition addEffect (e : Effect) (this : Component) : Component :=
  {| hasEndpoint := hasEndpoint this; endpointIsHttp := endpointIsHttp this;
     numOptions := numOptions this; devAsserts := devAsserts this;
     hasUserSelection_ := hasUserSelection_ this;
     optionsData_ := optionsData_ this;
     backendDataPromise_ := backendDataPromise_ this;
     reactions := reactions this; superseded := superseded this;
     effects := effects this ++ [e] |}.

(** The component as the constructor leaves it. *)
Definition construct (endpoint http : bool) (options : nat) (dev : bool) : Component :=
  {| hasEndpoint := endpoint; endpointIsHttp := http;
     numOptions := options; devAsserts := dev;
     hasUserSelection_ := false;
     optionsData_ := None;
     backendDataPromise_ := PromiseNull;
     reactions := []; superseded := []; effects := [] |}.

(** *** Methods: state passing, with exceptions *)

Inductive Completion (A : Type) :=
  | Normal (a : A)
  | Throw.
Arguments Normal {A} a.
Arguments Throw {A}.

Definition Js (A : Type) : Type := Component -> Completion A * Component.

Definition ret {A} (a : A) : Js A := fun this => (Normal a, this).
Definition throw {A} : Js A := fun this => (Throw, this).
Definition bind {A B} (m : Js A) (k : A -> Js B) : Js B :=
  fun this =>
    match m this with
    | (Normal a, this') => k a this'
    | (Throw, this') => (Throw, this')
    end.
Definition get {A} (field : Component -> A) : Js A := fun this => (Normal (field this), this).
Definition modify (f : Component -> Component) : Js unit := fun this => (Normal tt, f this).

Notation "x <- m ;; k" := (bind m (fun x => k))
  (at level 100, m at next level, right associativity).
Notation "m ;; k" := (bind m (fun _ => k))
  (at level 100, right associativity).

Definition when (b : bool) (m : Js unit) : Js unit := if b then m else ret tt.

(** [array.forEach((x, index) => body)]. *)
Fixpoint forEachFrom {A} (index : nat) (l : list A) (body : A -> nat -> Js unit) : Js unit :=
  match l with
  | [] => ret tt
  | x :: l' => body x index ;; forEachFrom (S index) l' body
  end.
Definition forEach {A} (l : list A) (body : A -> nat -> Js unit) : Js unit :=
  forEachFrom 0 l body.

(** [triggerAnalytics_]: the variable updates and the analytics event. *)
Definition triggerAnalytics_ (optionEl : nat) : Js unit :=
  modify (addEffect (TriggerAnalytics optionEl)).

Definition mutateElement (callback : Mutation) : Js unit :=
  modify (addEffect (MutateElement callback)).

(** [devAssert] belongs to the log module, which is not among the sources:
    whether it throws on a false condition is the component's [devAsserts]
    parameter. *)
Definition devAssert (condition : bool) : Js unit :=
  asserts <- get devAsserts ;;
  if asserts && negb condition then throw else ret tt.

(** [dev().error(TAG, ...)]. *)
Definition devError : Js unit := modify (addEffect DevError).

(** [executeInteractiveRequest_].  The result is the state of the promise it
    returns: rejected at once for an endpoint that is not http(s), pending
    on the client id and the request service otherwise. *)
Definition executeInteractiveRequest_ (method : Method) (optionSelected : option nat)
  : Js PromiseState :=
  valid <- get endpointIsHttp ;;
  if negb valid then ret Rejected
  else modify (addEffect (ExecuteRequest method optionSelected)) ;; ret Pending.

(** [retrieveInteractiveData_]: the request, with the retrieval handler to
    run on its result. *)
Definition retrieveInteractiveData_ : Js PromiseState :=
  executeInteractiveRequest_ GET None.

(** [this.backendDataPromise_ = promise] for a new promise, on which
    nothing is registered yet.  The promise the field held before is left
    to itself: if it is still pending it joins [superseded] with what is
    registered on it. *)
Definition assignBackendDataPromise (promise : PromiseState) (this : Component)
  : Component :=
  let left :=
    match backendDataPromise_ this with
    | Pending => setSuperseded (superseded this ++ [reactions this]) this
    | _ => this
    end in
  setBackendDataPromise promise (setReactions [] left).

(** [layoutCallback]. *)
Definition layoutCallback : Js unit :=
  endpoint <- get hasEndpoint ;;
  promise <- (if endpoint then retrieveInteractiveData_ else ret Fulfilled) ;;
  modify (assignBackendDataPromise promise).

(** [optionsData_[i]['totalCount']++] and [optionsData_[i]['selectedByUser'] = true]. *)
Definition countSelection (e : InteractiveOptionType) : InteractiveOptionType :=
  {| optionIndex := optionIndex e;
     totalCount := totalCount e + 1;
     selectedByUser := true |}.

(** The [then] callback of [handleOptionSelection_]. *)
Definition onSelectionFulfilled (optionEl : nat) : Js unit :=
  selected <- get hasUserSelection_ ;;
  if selected then ret tt else
  triggerAnalytics_ optionEl ;;
  modify (setHasUserSelection true) ;;
  data <- get optionsData_ ;;
  match data with
  | Some data =>
      match data !! optionEl with
      | Some e => modify (setOptionsData (Some (<[optionEl := countSelection e]> data)))
      | None => throw
      end
  | None => ret tt
  end ;;
  mutateElement (SelectionMutation optionEl) ;;
  endpoint <- get hasEndpoint ;;
  when endpoint (executeInteractiveRequest_ POST (Some optionEl) ;; ret tt).

(** The [catch] callback of [handleOptionSelection_]. *)
Definition onSelectionRejected (optionEl : nat) : Js unit :=
  triggerAnalytics_ optionEl ;;
  modify (setHasUserSelection true) ;;
  mutateElement (FallbackMutation optionEl).

(** [p.then(f)] for one registered option: the completion tells whether
    the derived promise is rejected. *)
Definition runThen (optionEl : nat) : Js bool :=
  fun this =>
    match onSelectionFulfilled optionEl this with
    | (Normal _, this') => (Normal false, this')
    | (Throw, this') => (Normal true, this')
    end.

(** The [then] callbacks of all registered options run first, in order of
    registration; the [catch] callbacks of those that threw follow. *)
Fixpoint runThens (registered : list nat) : Js (list nat) :=
  match registered with
  | [] => ret []
  | optionEl :: rest =>
      threw <- runThen optionEl ;;
      failed <- runThens rest ;;
      ret (if threw : bool then optionEl :: failed else failed)
  end.

Fixpoint runCatches (failed : list nat) : Js unit :=
  match failed with
  | [] => ret tt
  | optionEl :: rest => onSelectionRejected optionEl ;; runCatches rest
  end.

(** Settling [backendDataPromise_] runs what is registered on it. *)
Definition settle (fulfilled : bool) : Js unit :=
  registered <- get reactions ;;
  modify (setReactions []) ;;
  if fulfilled then
    modify (setBackendDataPromise Fulfilled) ;;
    failed <- runThens registered ;;
    runCatches failed
  else
    modify (setBackendDataPromise Rejected) ;;
    runCatches registered.

(** Settling a superseded promise runs what is registered on it; the
    field [backendDataPromise_] is not concerned. *)
Definition settleSuperseded (fulfilled : bool) (registered : list nat) : Js unit :=
  if fulfilled then
    failed <- runThens registered ;;
    runCatches failed
  else runCatches registered.

(** [handleOptionSelection_]: [backendDataPromise_.then(..).catch(..)].  On
    a settled promise the callbacks run as soon as the current handler has
    returned, before any other event. *)
Definition handleOptionSelection_ (optionEl : nat) : Js unit :=
  promise <- get backendDataPromise_ ;;
  match promise with
  | PromiseNull => throw
  | Pending => modify (fun this => setReactions (reactions this ++ [optionEl]) this)
  | Fulfilled => failed <- runThens [optionEl] ;; runCatches failed
  | Rejected => runCatches [optionEl]
  end.

(** [handleTap_]: [target] is the option element [closest] finds from the
    event target, if any. *)
Definition handleTap_ (target : option nat) : Js unit :=
  selected <- get hasUserSelection_ ;;
  if selected then ret tt else
  match target with
  | Some optionEl => handleOptionSelection_ optionEl
  | None => ret tt
  end.

(** [updateComponentOnDataRetrieval_]. *)
Definition updateComponentOnDataRetrieval_ (data : list InteractiveOptionType) : Js unit :=
  modify (setOptionsData (Some data)) ;;
  forEach data (fun response index =>
    when (selectedByUser response)
         (modify (setHasUserSelection true) ;;
          mutateElement (RetrievalMutation data index))).

(** [response && response['options']]. *)
Definition optionsOf (response : Response) : option (list InteractiveOptionType) :=
  match response with
  | ResponseObject (OptionsArray entries) => Some entries
  | _ => None
  end.

(** [response && 'options' in response]. *)
Definition hasOptionsField (response : Response) : bool :=
  match response with
  | NoResponse => false
  | ResponseObject OptionsAbsent => false
  | ResponseObject _ => true
  end.

(** [handleSuccessfulDataRetrieval_]. *)
Definition handleSuccessfulDataRetrieval_ (response : Response) : Js unit :=
  match optionsOf response with
  | None =>
      devAssert (hasOptionsField response) ;;
      devError
  | Some entries =>
      n <- get numOptions ;;
      updateComponentOnDataRetrieval_ (take n entries)
  end.

(** What the runtime, the user and the network do to the component.
    [Retrieved] and [RetrievalFailed] answer the request behind the promise
    [backendDataPromise_] holds; [SupersededRetrieved] and
    [SupersededRetrievalFailed] answer the request behind a promise that an
    earlier [layoutCallback] left pending, given by its position among
    those. *)
Inductive Event :=
  | Layout
  | Tap (target : option nat)
  | Retrieved (response : Response)
  | RetrievalFailed
  | SupersededRetrieved (position : nat) (response : Response)
  | SupersededRetrievalFailed (position : nat).

(** One event, run to completion.  A request can only be answered while
    its promise is pending. *)
Definition handle (e : Event) : Js unit :=
  match e with
  | Layout => layoutCallback
  | Tap target => handleTap_ target
  | Retrieved response =>
      promise <- get backendDataPromise_ ;;
      match promise with
      | Pending =>
          fun this =>
            match handleSuccessfulDataRetrieval_ response this with
            | (Normal _, this') => settle true this'
            | (Throw, this') => settle false this'
            end
      | _ => ret tt
      end
  | RetrievalFailed =>
      promise <- get backendDataPromise_ ;;
      match promise with
      | Pending => settle false
      | _ => ret tt
      end
  | SupersededRetrieved position response =>
      old <- get superseded ;;
      match old !! position with
      | Some registered =>
          modify (setSuperseded (delete position old)) ;;
          fun this =>
            match handleSuccessfulDataRetrieval_ response this with
            | (Normal _, this') => settleSuperseded true registered this'
            | (Throw, this') => settleSuperseded false registered this'
            end
      | None => ret tt
      end
  | SupersededRetrievalFailed position =>
      old <- get superseded ;;
      match old !! position with
      | Some registered =>
          modify (setSuperseded (delete position old)) ;;
          settleSuperseded false registered
      | None => ret tt
      end
  end.

Definition step (this : Component) (e : Event) : Component := (handle e this).2.

Definition run (events : list Event) (this : Component) : Component :=
  fold_left step events this.

(** Number of entries flagged [selectedByUser]. *)
Definition selectedCount (data : option (list InteractiveOptionType)) : nat :=
  match data with
  | Some data => length (filter (fun e => selectedByUser e = true) data)
  | None => 0
  end.

End Lifecycle.

(** ** Notions used in the statements and proofs about the engine *)

Module EngineNotions.
Import Engine.

(** Counts and their total. *)
Definition countSum (optionsData : list InteractiveOptionType) : N :=
  foldr (fun e acc => (totalCount e + acc)%N) 0%N optionsData.

(** The array cell values when every position below [n] is assigned. *)
Definition readBack (arr : list (nat * Z)) (n : nat) : list Z :=
  (fun i => default 0 ((list_to_map arr : gmap nat Z) !! i)) <$> seq 0 n.

(** Every index is either assigned already or still waiting, once. *)
Definition indicesSplit (n : nat) (st : LoopState) : Prop :=
  (st_finalPercentages st).*1 ++ (originalIndex <$> st_preserveOriginal st)
  ≡ₚ seq 0 n.

Definition objOk (o : PercentageObj) : Prop :=
  0 <= value o <= 10000 /\ remainder o = fractionOf (value o).

(** What is assigned, what is still to be floored and what is left of the
    budget always add up to the same; nothing leaves [0,100]. *)
Definition valuesOk (floors remainder0 : Z) (st : LoopState) : Prop :=
  0 <= st_remainder st <= remainder0
  /\ sumZ (st_finalPercentages st).*2
     + sumZ ((fun o => Math_floor (value o)) <$> st_preserveOriginal st)
     + st_remainder st = floors + remainder0
  /\ Forall (fun w => 0 <= w.2 <= 100) (st_finalPercentages st)
  /\ Forall objOk (st_preserveOriginal st).

(** Objects still waiting carry their own percentage; assigned positions
    with one percentage hold one value; no waiting object shares its
    percentage with an assigned position. *)
Definition tiesKept (ps : list Z) (st : LoopState) : Prop :=
  (forall o, o ∈ st_preserveOriginal st -> ps !! originalIndex o = Some (value o))
  /\ (forall i v j w p, (i, v) ∈ st_finalPercentages st -> (j, w) ∈ st_finalPercentages st ->
        ps !! i = Some p -> ps !! j = Some p -> v = w)
  /\ (forall i v o, (i, v) ∈ st_finalPercentages st -> o ∈ st_preserveOriginal st ->
        ps !! i <> Some (value o)).

(** The integers returned when there is at least one response. *)
Definition resultOf (toFixed2Pct : N -> N -> Z) (od : list InteractiveOptionType)
  : list Z :=
  let ps := (correctOvershoot (rawPercentages toFixed2Pct od)).1 in
  let total := (correctOvershoot (rawPercentages toFixed2Pct od)).2 in
  if total =? 100 then Math_round <$> ps
  else readBack (distribute (100 - total) ps) (length od).

(** A printed percentage as a rational number. *)
Definition pct (p : Z) : Q := p # 100.

Definition fractionalPart (x : Q) : Q := (x - inject_Z (Qfloor x))%Q.

(** Standard rounding, halves upwards. *)
Definition roundHalfUp (x : Q) : Z := Qfloor (x + (1 # 2))%Q.

(** Subtract two thirds of the fractional part. *)
Definition twoThirdsCorrection (x : Q) : Q := (x - (2 # 3) * fractionalPart x)%Q.

End EngineNotions.

(** ** Notions used in the statements and proofs about the component *)

Module LifecycleNotions.
Import Lifecycle.

(** The [mutateElement] calls of the retrieval's [forEach]. *)
Fixpoint retrievalMutations (data : list InteractiveOptionType) (index : nat)
         (l : list InteractiveOptionType) : list Effect :=
  match l with
  | [] => []
  | response :: l' =>
      (if selectedByUser response
       then [MutateElement (RetrievalMutation data index)] else [])
      ++ retrievalMutations data (S index) l'
  end.

(** The promise [layoutCallback] puts in place: pending on the request for
    a valid endpoint, rejected for an endpoint that is refused, fulfilled
    where there is none. *)
Definition layoutPromise (this : Component) : PromiseState :=
  if hasEndpoint this
  then if endpointIsHttp this then Pending else Rejected
  else Fulfilled.

(** The request [layoutCallback] starts. *)
Definition layoutEffects (this : Component) : list Effect :=
  if hasEndpoint this && endpointIsHttp this then [ExecuteRequest GET None] else [].

(** The superseded promises once [layoutCallback] has put a new promise in
    place. *)
Definition supersededAtLayout (this : Component) : list (list nat) :=
  match backendDataPromise_ this with
  | Pending => superseded this ++ [reactions this]
  | _ => superseded this
  end.

(** The calls made by the [catch] callbacks of the given options. *)
Definition fallbackEffects (failed : list nat) : list Effect :=
  flat_map (fun optionEl =>
              [TriggerAnalytics optionEl; MutateElement (FallbackMutation optionEl)])
           failed.

(** The calls made by a [then] callback that runs to its end. *)
Definition selectionEffects (this : Component) (optionEl : nat) : list Effect :=
  [TriggerAnalytics optionEl; MutateElement (SelectionMutation optionEl)]
  ++ (if hasEndpoint this && endpointIsHttp this
      then [ExecuteRequest POST (Some optionEl)] else []).

(** The aggregate data after a [then] callback, when it does not throw. *)
Definition selectedData (this : Component) (optionEl : nat)
  : option (option (list InteractiveOptionType)) :=
  match optionsData_ this with
  | None => Some None
  | Some data =>
      match data !! optionEl with
      | Some e => Some (Some (<[optionEl := countSelection e]> data))
      | None => None
      end
  end.

(** The component right after the retrieved entries are stored and the
    promise is fulfilled, before the waiting tap is looked at. *)
Definition retrievedState (this : Component) (data : list InteractiveOptionType)
  : Component :=
  {| hasEndpoint := hasEndpoint this; endpointIsHttp := endpointIsHttp this;
     numOptions := numOptions this; devAsserts := devAsserts this;
     hasUserSelection_ := hasUserSelection_ this || existsb selectedByUser data;
     optionsData_ := Some data;
     backendDataPromise_ := Fulfilled;
     reactions := [];
     superseded := superseded this;
     effects := effects this ++ retrievalMutations data 0 data |}.

(** The aggregate data flags at most one entry, and none before a selection
    is recorded. *)
Definition singleSelection (this : Component) : Prop :=
  (selectedCount (optionsData_ this) <= 1)%nat
  /\ (hasUserSelection_ this = false -> selectedCount (optionsData_ this) = 0%nat).

(** A retrieved payload that flags at most one of the entries kept. *)
Definition flagsAtMostOne (n : nat) (e : Event) : Prop :=
  match e with
  | Retrieved (ResponseObject (OptionsArray entries))
  | SupersededRetrieved _ (ResponseObject (OptionsArray entries)) =>
      (selectedCount (Some (take n entries)) <= 1)%nat
  | _ => True
  end.

Definition good (n : nat) (this : Component) : Prop :=
  numOptions this = n /\ singleSelection this.

(** A two-option widget with a valid endpoint, and a payload that reports
    an earlier answer for the second option. *)
Definition twoOptions : Component := construct true true 2 false.

Definition earlierAnswer : list InteractiveOptionType :=
  [ {| optionIndex := 0; totalCount := 5; selectedByUser := false |};
    {| optionIndex := 1; totalCount := 3; selectedByUser := true |} ].

(** A payload that flags both of its entries. *)
Definition bothFlagged : list InteractiveOptionType :=
  [ {| optionIndex := 0; totalCount := 5; selectedByUser := true |};
    {| optionIndex := 1; totalCount := 3; selectedByUser := true |} ].

End LifecycleNotions.

(** ** Further notions about the engine *)

Module EngineExtraNotions.
Import Engine.

(** [v] is the percentage [p] rounded down, or rounded up from a
    percentage that is not whole. *)
Definition nearFloor (p v : Z) : Prop :=
  v = Math_floor p \/ (v = Math_floor p + 1 /\ fractionOf p <> 0).

(** Objects carry their own percentage and its remainder; what is assigned
    to a position is its percentage rounded down or up. *)
Definition roundedNear (ps : list Z) (st : LoopState) : Prop :=
  (forall o, o ∈ st_preserveOriginal st ->
     ps !! originalIndex o = Some (value o) /\ remainder o = fractionOf (value o))
  /\ (forall i v, (i, v) ∈ st_finalPercentages st ->
        exists p, ps !! i = Some p /\ nearFloor p v).

(** The remainder budget is counted from the floors: the rounded
    percentages add up to more than 100, so that the correction brings every
    one of them below its half, or none of them is rounded up to begin
    with. *)
Definition budgetFromFloors (percentages : list Z) : Prop :=
  100 < roundedTotal percentages \/ Forall (fun p => fractionOf p < 50) percentages.

(** How many of the percentages are not whole. *)
Definition fractional (percentages : list Z) : nat :=
  length (filter (fun p => fractionOf p <> 0) percentages).

(** The waiting objects are in the order of the comparison function, carry
    their own remainders and pairwise different values, and at least as
    many of them have a remainder as there are points left. *)
Definition pointsPlaced (st : LoopState) : Prop :=
  StronglySorted sortsBefore (st_preserveOriginal st)
  /\ NoDup (value <$> st_preserveOriginal st)
  /\ Forall (fun o => remainder o = fractionOf (value o)) (st_preserveOriginal st)
  /\ 0 <= st_remainder st <= Z.of_nat (fractional (value <$> st_preserveOriginal st)).

End EngineExtraNotions.

(** ** Further notions about the component *)

Module LifecycleExtraNotions.
Import Lifecycle LifecycleNotions.

(** [backendDataPromise_] is fulfilled or rejected. *)
Definition settled (this : Component) : Prop :=
  backendDataPromise_ this = Fulfilled \/ backendDataPromise_ this = Rejected.

Definition isGet (e : Effect) : bool :=
  match e with ExecuteRequest GET _ => true | _ => false end.

Definition isPost (e : Effect) : bool :=
  match e with ExecuteRequest POST _ => true | _ => false end.

Definition isRequest (e : Effect) : bool :=
  match e with ExecuteRequest _ _ => true | _ => false end.

Definition isMutation (e : Effect) : bool :=
  match e with MutateElement _ => true | _ => false end.

(** How many of the calls satisfy [p]. *)
Definition countCalls (p : Effect -> bool) (this : Component) : nat :=
  length (List.filter p (effects this)).

(** The response an event delivers, if any. *)
Definition responseOf (e : Event) : option Response :=
  match e with
  | Retrieved response | SupersededRetrieved _ response => Some response
  | _ => None
  end.

Definition isLayout (e : Event) : bool :=
  match e with Layout => true | _ => false end.

(** How often the element is laid out. *)
Definition countLayouts (events : list Event) : nat :=
  length (List.filter isLayout events).

(** Requests of a component whose endpoint attribute and its validity are
    [endpoint] and [http]: at most one submission and none before a
    selection, no request at all without a valid endpoint. *)
Definition requestsOk (endpoint http : bool) (this : Component) : Prop :=
  hasEndpoint this = endpoint /\ endpointIsHttp this = http
  /\ (countCalls isPost this <= 1)%nat
  /\ (hasUserSelection_ this = false -> countCalls isPost this = 0%nat)
  /\ (endpoint && http = false -> countCalls isRequest this = 0%nat).

(** The retrievals started by [layouts] layouts. *)
Definition retrievalsOk (endpoint http : bool) (layouts : nat) (this : Component) : Prop :=
  hasEndpoint this = endpoint /\ endpointIsHttp this = http
  /\ countCalls isGet this = if endpoint && http then layouts else 0%nat.

(** Calls that only a tap on an option brings about. *)
Definition fromTap (e : Effect) : bool :=
  match e with
  | TriggerAnalytics _ => true
  | MutateElement (SelectionMutation _) => true
  | MutateElement (FallbackMutation _) => true
  | ExecuteRequest POST _ => true
  | _ => false
  end.

Definition isOptionTap (e : Event) : bool :=
  match e with Tap (Some _) => true | _ => false end.

(** The aggregate data [d] against the first [n] of the retrieved
    [entries]: as retrieved, or with one entry counted and flagged once a
    selection is recorded. *)
Definition asRetrieved (n : nat) (entries : list InteractiveOptionType)
           (selection : bool) (d : list InteractiveOptionType) : Prop :=
  d = take n entries
  \/ (selection = true
      /\ exists i e, take n entries !! i = Some e
                     /\ d = <[i := countSelection e]> (take n entries)).

(** The entries of the retrieval events. *)
Definition payloads (events : list Event) : list (list InteractiveOptionType) :=
  flat_map (fun e => match e with
                     | Retrieved (ResponseObject (OptionsArray entries))
                     | SupersededRetrieved _ (ResponseObject (OptionsArray entries)) =>
                         [entries]
                     | _ => []
                     end) events.

Definition dataOk (n : nat) (seen : list (list InteractiveOptionType))
           (this : Component) : Prop :=
  numOptions this = n
  /\ match optionsData_ this with
     | None => True
     | Some d => exists entries, entries ∈ seen
                                 /\ asRetrieved n entries (hasUserSelection_ this) d
     end.

(** A retrieval callback refers to an option element that exists and to an
    entry of its data that is flagged. *)
Definition callbackOk (n : nat) (e : Effect) : Prop :=
  match e with
  | MutateElement (RetrievalMutation data index) =>
      (index < n)%nat
      /\ exists entry, data !! index = Some entry /\ selectedByUser entry = true
  | _ => True
  end.

Definition callbacksOk (n : nat) (this : Component) : Prop :=
  numOptions this = n /\ Forall (callbackOk n) (effects this).

(** A callback is only asked for once a selection is recorded. *)
Definition callbacksAfterSelection (this : Component) : Prop :=
  hasUserSelection_ this = true \/ countCalls isMutation this = 0%nat.

(** Of a component laid out at most once: no promise has been superseded,
    and before the promise is settled nothing has happened but, once laid
    out with a valid endpoint, the start of the retrieval. *)
Definition quiet (this : Component) : Prop :=
  superseded this = [] /\
  match backendDataPromise_ this with
  | PromiseNull =>
      hasUserSelection_ this = false /\ optionsData_ this = None /\ effects this = []
  | Pending =>
      hasUserSelection_ this = false /\ optionsData_ this = None
      /\ effects this = [ExecuteRequest GET None]
  | _ => True
  end.

(** No tap is waiting, on the promise or on a superseded one, and no call
    has been made that only a tap brings about. *)
Definition untouched (this : Component) : Prop :=
  reactions this = []
  /\ Forall (fun registered => registered = []) (superseded this)
  /\ List.filter fromTap (effects this) = [].

End LifecycleExtraNotions.

(** ** What the callbacks of [mutateElement] do to the display *)

Module Display.
Import Lifecycle.

(** The elements the callbacks touch: [rootEl_], the option element that was
    tapped (known by its [optionIndex_]), and [options[index]], the option
    element at a position of the list queried at retrieval. *)
Inductive Element :=
  | Root
  | TappedOption (optionIndex : nat)
  | OptionAt (position : nat).

(** What a callback does, in order: [classList.add] on an element, and
    [updateOptionPercentages_], which the concrete classes implement. *)
Inductive DisplayOp :=
  | AddClass (el : Element) (name : string)
  | UpdateOptionPercentages (data : list InteractiveOptionType).

(** [updateToPostSelectionState_].  [selectedOption] is [None] for an
    element that does not exist, whose [classList] cannot be read. *)
Definition updateToPostSelectionState_ (selectedOption : option Element)
           (this : Component) : Completion unit * list DisplayOp :=
  match selectedOption with
  | None => (Throw, [AddClass Root "i-amphtml-story-interactive-post-selection"%string])
  | Some el =>
      (Normal tt,
       [AddClass Root "i-amphtml-story-interactive-post-selection"%string;
        AddClass el "i-amphtml-story-interactive-option-selected"%string]
       ++ match optionsData_ this with
          | Some _ => [AddClass Root "i-amphtml-story-interactive-has-data"%string]
          | None => []
          end)
  end.

(** [options[index]] of the queried option elements. *)
Definition optionAt (this : Component) (index : nat) : option Element :=
  if (index <? numOptions this)%nat then Some (OptionAt index) else None.

(** Running a callback on the component as it is when the callback runs. *)
Definition runCallback (callback : Mutation) (this : Component)
  : Completion unit * list DisplayOp :=
  match callback with
  | SelectionMutation optionEl =>
      let shown := match optionsData_ this with
                   | Some data => [UpdateOptionPercentages data]
                   | None => []
                   end in
      let '(c, ops) := updateToPostSelectionState_ (Some (TappedOption optionEl)) this in
      (c, shown ++ ops)
  | FallbackMutation optionEl =>
      updateToPostSelectionState_ (Some (TappedOption optionEl)) this
  | RetrievalMutation data index =>
      let '(c, ops) := updateToPostSelectionState_ (optionAt this index) this in
      (c, UpdateOptionPercentages data :: ops)
  end.

End Display.

(** ** Reading the options from the attributes *)

Module Options.
Import Strings.Ascii.

(** A property value of an option object: the number given as
    [optionIndex], or the string value of an attribute. *)
Inductive Value :=
  | Num (n : nat)
  | Str (s : string).

(** [\d]: a decimal digit. *)
Definition isDigit (c : ascii) : bool :=
  (48 <=? nat_of_ascii c)%nat && (nat_of_ascii c <=? 57)%nat.

(** [\w]: a letter, a digit or the underscore. *)
Definition isWordChar (c : ascii) : bool :=
  isDigit c
  || ((65 <=? nat_of_ascii c)%nat && (nat_of_ascii c <=? 90)%nat)
  || ((97 <=? nat_of_ascii c)%nat && (nat_of_ascii c <=? 122)%nat)
  || (nat_of_ascii c =? 95)%nat.

Definition hyphen : ascii := "-"%char.

(** The rest of [s] after the prefix [p], if [s] starts with it. *)
Fixpoint afterPrefix (p s : list ascii) : option (list ascii) :=
  match p, s with
  | [], _ => Some s
  | a :: p', b :: s' => if decide (a = b) then afterPrefix p' s' else None
  | _ :: _, [] => None
  end.

Fixpoint takeDigits (s : list ascii) : list ascii :=
  match s with
  | c :: s' => if isDigit c then c :: takeDigits s' else []
  | [] => []
  end.

Fixpoint dropDigits (s : list ascii) : list ascii :=
  match s with
  | c :: s' => if isDigit c then dropDigits s' else s
  | [] => []
  end.

(** [name.match(/^option-\d+-\w+$/)]: the prefix, digits as far as they
    go and at least one, a hyphen, then word characters to the end and at
    least one. *)
Definition matchesOption (name : list ascii) : bool :=
  match afterPrefix (String.list_ascii_of_string "option-") name with
  | None => false
  | Some rest =>
      match takeDigits rest, dropDigits rest with
      | _ :: _, sep :: word =>
          bool_decide (sep = hyphen)
          && negb (bool_decide (word = [])) && forallb isWordChar word
      | _, _ => false
      end
  end.

(** [name.split('-')]: [current] is the part being read. *)
Fixpoint splitFrom (current s : list ascii) : list (list ascii) :=
  match s with
  | [] => [current]
  | c :: s' =>
      if decide (c = hyphen) then current :: splitFrom [] s'
      else splitFrom (current ++ [c]) s'
  end.

Definition split (s : list ascii) : list (list ascii) := splitFrom [] s.

Definition digitValue (c : ascii) : N := N.of_nat (nat_of_ascii c) - 48.

(** The number written by a string of digits. *)
Definition decimal (digits : list ascii) : N :=
  fold_left (fun acc c => 10 * acc + digitValue c)%N digits 0%N.

(** [parseInt(s, 10)] of a string without sign or blanks: the number
    written by the leading digits, not-a-number if there is none. *)
Definition parseInt (s : list ascii) : option N :=
  match takeDigits s with
  | [] => None
  | digits => Some (decimal digits)
  end.

(** [splitParts[i]]. *)
Definition part (splitParts : list (list ascii)) (i : nat) : list ascii :=
  default [] (splitParts !! i).

(** What the loop reads off an attribute name: nothing for a name that
    does not match, else the option number and the property name. *)
Definition readName (name : string) : option (option N * string) :=
  let name := String.list_ascii_of_string name in
  if matchesOption name then
    let splitParts := split name in
    Some (parseInt (part splitParts 1), String.string_of_list_ascii (part splitParts 2))
  else None.

(** [while (options.length < optionNumber) options.push({'optionIndex': options.length})],
    with the number of pushes still to come. *)
Fixpoint pushOptions (pushes : nat) (options : list (gmap string Value))
  : list (gmap string Value) :=
  match pushes with
  | O => options
  | S pushes' =>
      pushOptions pushes' (options ++ [{[ "optionIndex"%string := Num (length options) ]}])
  end.

(** [object[key] = value] for a string value: an own property is set,
    except under [__proto__], where a string is not accepted. *)
Definition setProperty (key : string) (value : string) (object : gmap string Value)
  : gmap string Value :=
  if decide (key = "__proto__"%string) then object else <[key := Str value]> object.

Inductive Error := TypeError | RangeError | AssertionError.

(** The loop over the attributes goes on with the options read so far, or
    ends with an exception. *)
Inductive Loop :=
  | Continue (options : list (gmap string Value))
  | Abort (e : Error).

(** An array holds at most [2^32 - 1] elements; the push beyond throws. *)
Definition maxArrayLength : N := 4294967295.

(** The body of the [forEach] over the attributes.  Without a number the
    loop does not run and [options[NaN]] is undefined, as is
    [options[-1]] for the number 0: the assignment to its property throws. *)
Definition readAttribute (options : list (gmap string Value)) (attr : string * string)
  : Loop :=
  match readName attr.1 with
  | None => Continue options
  | Some (optionNumber, key) =>
      match optionNumber with
      | None => Abort TypeError
      | Some optionNumber =>
          if (maxArrayLength <? optionNumber)%N then Abort RangeError
          else
            let options :=
              pushOptions (N.to_nat optionNumber - length options) options in
            match N.to_nat optionNumber with
            | O => Abort TypeError
            | S index =>
                match options !! index with
                | Some object =>
                    Continue (<[index := setProperty key attr.2 object]> options)
                | None => Abort TypeError
                end
            end
      end
  end.

(** The [forEach]: it ends at the first exception. *)
Fixpoint readAttributes (options : list (gmap string Value))
         (attributes : list (string * string)) : Loop :=
  match attributes with
  | [] => Continue options
  | attr :: rest =>
      match readAttribute options attr with
      | Continue options' => readAttributes options' rest
      | Abort e => Abort e
      end
  end.

(** How [parseOptions_] ends: with the options, with nothing after logging
    the improper number, or with an exception. *)
Inductive Outcome :=
  | Options (options : list (gmap string Value))
  | Undefined
  | Thrown (e : Error).

(** [parseOptions_], for the attributes of the element in their order, the
    bounds on the number of options, and whether [devAssert] throws. *)
Definition parseOptions_ (attributes : list (string * string))
           (optionBounds_ : nat * nat) (devAsserts : bool) : Outcome :=
  match readAttributes [] attributes with
  | Abort e => Thrown e
  | Continue options =>
      if (optionBounds_.1 <=? length options)%nat && (length options <=? optionBounds_.2)%nat
      then Options options
      else if devAsserts then Thrown AssertionError else Undefined
  end.

End Options.

Module OptionsNotions.
Import Strings.Ascii Options.

(** The name [option-<digits>-<word>]. *)
Definition optionName (digits word : list ascii) : string :=
  String.string_of_list_ascii (String.list_ascii_of_string "option-" ++ digits ++ hyphen :: word).

(** The option attributes among the given ones, as number, property name
    and value. *)
Definition optionAttributes (attributes : list (string * string))
  : list (N * string * string) :=
  omap (fun attr => match readName attr.1 with
                    | Some (Some n, key) => Some (n, key, attr.2)
                    | _ => None
                    end) attributes.

Definition numbers (attributes : list (string * string)) : list N :=
  (fun t => t.1.1) <$> optionAttributes attributes.

(** Digits and a word as the pattern asks for them. *)
Definition wellFormed (digits word : list ascii) : Prop :=
  digits <> [] /\ forallb isDigit digits = true
  /\ word <> [] /\ forallb isWordChar word = true.

(** An option number the loop cannot serve: there is no option 0, and no
    array that long. *)
Definition unservable (n : N) : bool := (n =? 0)%N || (maxArrayLength <? n)%N.

Definition firstUnservable (attributes : list (string * string)) : option N :=
  List.find unservable (numbers attributes).

(** The object pushed at position [i]. *)
Definition bare (i : nat) : gmap string Value := {[ "optionIndex"%string := Num i ]}.

(** The object at position [i], the one pushed there if there is none yet. *)
Definition objectAt (options : list (gmap string Value)) (i : nat) : gmap string Value :=
  default (bare i) (options !! i).

(** The option and the property an option attribute is for. *)
Definition target (t : N * string * string) : nat * string := (N.to_nat t.1.1, t.1.2).

Definition isOptionAttribute (attr : string * string) : bool :=
  bool_decide (is_Some (readName attr.1)).

(** The highest option number. *)
Definition highestNumber (attributes : list (string * string)) : nat :=
  max_list (N.to_nat <$> numbers attributes).

(** The value of the last attribute for the given option number and
    property name. *)
Definition lastValue (attributes : list (string * string)) (n : nat) (key : string)
  : option string :=
  (fun t => t.2)
    <$> last (filter (fun t => N.to_nat t.1.1 = n /\ t.1.2 = key)
                     (optionAttributes attributes)).

(** The object the attributes make of [base] as option number [n]. *)
Definition objectOf (attributes : list (string * string)) (n : nat)
           (base : gmap string Value) : gmap string Value :=
  fold_left (fun object t =>
               if decide (N.to_nat t.1.1 = n) then setProperty t.1.2 t.2 object
               else object)
            (optionAttributes attributes) base.

Definition withinBounds (optionBounds_ : nat * nat) (n : nat) : Prop :=
  (optionBounds_.1 <= n <= optionBounds_.2)%nat.

End OptionsNotions.

(** ** Loading the fonts *)

Module Fonts.
Import Lifecycle.

Record FontProperties := {
  family : string;
  weight : string;
  src : string
}.

Definition fontsToLoad : list FontProperties :=
  [ {| family := "Poppins"; weight := "400";
       src := "url(https://fonts.gstatic.com/s/poppins/v9/pxiEyp8kv8JHgFVrJJfecnFHGPc.woff2) format('woff2')" |};
    {| family := "Poppins"; weight := "700";
       src := "url(https://fonts.gstatic.com/s/poppins/v9/pxiByp8kv8JHgFVrLCz7Z1xlFd2JQEk.woff2) format('woff2')" |} ].

(** What the page offers: no [document.fonts]; [document.fonts] but no
    [FontFace] in scope, so that naming it throws; or both. *)
Inductive FontSupport :=
  | NoFontSet
  | FontSetOnly
  | FontSetAndFontFace.

(** A font face constructed and asked to load, with the weight and style
    it is given. *)
Record FontLoad := {
  properties : FontProperties;
  style : string
}.

(** The flag shared by all components, and the font loads started. *)
Record FontState := {
  loadedFonts : bool;
  fontLoads : list FontLoad
}.

Definition startFonts : FontState := {| loadedFonts := false; fontLoads := [] |}.

(** [loadFonts_]: the conditions are tested from left to right, and the
    flag is set at the end, unless the test has thrown. *)
Definition loadFonts_ (support : FontSupport) (st : FontState)
  : Completion unit * FontState :=
  if negb (loadedFonts st) then
    match support with
    | NoFontSet => (Normal tt, {| loadedFonts := true; fontLoads := fontLoads st |})
    | FontSetOnly => (Throw, st)
    | FontSetAndFontFace =>
        (Normal tt,
         {| loadedFonts := true;
            fontLoads :=
              fontLoads st
              ++ map (fun fontProperties =>
                        {| properties := fontProperties; style := "normal" |})
                     fontsToLoad |})
    end
  else (Normal tt, {| loadedFonts := true; fontLoads := fontLoads st |}).

(** The components of a page built one after the other. *)
Definition buildAll (supports : list FontSupport) (st : FontState) : FontState :=
  fold_left (fun st support => (loadFonts_ support st).2) supports st.

(** The first page state among the given ones in which the test does not
    throw. *)
Definition firstCompleting (supports : list FontSupport) : option FontSupport :=
  List.find (fun support => match support with FontSetOnly => false | _ => true end)
            supports.

End Fonts.

(** ** Arithmetic of two-decimal percentages *)

Module EngineFacts.
Import Engine EngineNotions.

Lemma sumZ_app (l k : list Z) : sumZ (l ++ k) = sumZ l + sumZ k.
Proof. unfold sumZ. induction l as [|x l IH]; simpl; lia. Qed.

#[global] Instance sumZ_perm : Proper (Permutation ==> eq) sumZ.
Proof.
  intros l k Hp. unfold sumZ.
  induction Hp; simpl; lia.
Qed.

Lemma roundedTotal_sum (ps : list Z) : roundedTotal ps = sumZ (map Math_round ps).
Proof.
  unfold roundedTotal.
  assert (G : forall acc, fold_left (fun a x => a + Math_round x) ps acc
                          = acc + sumZ (map Math_round ps)).
  { induction ps as [|p ps IH]; intros acc; simpl; [lia|]. rewrite IH. lia. }
  rewrite G. lia.
Qed.

Lemma floor_le_round (p : Z) : Math_floor p <= Math_round p.
Proof. unfold Math_floor, Math_round. apply Z.div_le_mono; lia. Qed.

Lemma floorSum_le_rounded (ps : list Z) :
  sumZ (map Math_floor ps) <= roundedTotal ps.
Proof.
  rewrite roundedTotal_sum.
  induction ps as [|p ps IH]; simpl; [lia|].
  pose proof (floor_le_round p). lia.
Qed.

Lemma overshootAdjust_floor (p : Z) : Math_floor (overshootAdjust p) = Math_floor p.
Proof.
  unfold overshootAdjust, toFixed2, fractionOf, Math_floor.
  Z.div_mod_to_equations. lia.
Qed.

Lemma overshootAdjust_fraction (p : Z) : 0 <= fractionOf (overshootAdjust p) <= 33.
Proof.
  unfold overshootAdjust, toFixed2, fractionOf.
  Z.div_mod_to_equations. lia.
Qed.

Lemma overshootAdjust_round (p : Z) : Math_round (overshootAdjust p) = Math_floor p.
Proof.
  rewrite <- overshootAdjust_floor.
  pose proof (overshootAdjust_fraction p) as Hf.
  unfold Math_round, Math_floor, fractionOf in *.
  Z.div_mod_to_equations. lia.
Qed.

Lemma overshootAdjust_range (p : Z) :
  0 <= p <= 10000 -> 0 <= overshootAdjust p <= 10000.
Proof.
  intros Hp. unfold overshootAdjust, toFixed2, fractionOf.
  Z.div_mod_to_equations. lia.
Qed.

Lemma roundedTotal_adjusted (ps : list Z) :
  roundedTotal (map overshootAdjust ps) = sumZ (map Math_floor ps).
Proof.
  rewrite roundedTotal_sum. induction ps as [|p ps IH]; simpl; [done|].
  rewrite overshootAdjust_round. unfold sumZ in *. simpl. lia.
Qed.

Lemma floorSum_adjusted (ps : list Z) :
  sumZ (map Math_floor (map overshootAdjust ps)) = sumZ (map Math_floor ps).
Proof.
  induction ps as [|p ps IH]; simpl; [done|].
  rewrite overshootAdjust_floor. unfold sumZ in *. simpl. lia.
Qed.

Lemma totalResponseCountOf_sum (od : list InteractiveOptionType) :
  totalResponseCountOf od = countSum od.
Proof.
  unfold totalResponseCountOf.
  assert (G : forall acc,
             fold_left (fun a r => (a + totalCount r)%N) od acc = (acc + countSum od)%N).
  { induction od as [|e od IH]; intros acc; simpl; [lia|]. rewrite IH. lia. }
  rewrite G. lia.
Qed.

Lemma count_le_sum (od : list InteractiveOptionType) (e : InteractiveOptionType) :
  e ∈ od -> (totalCount e <= countSum od)%N.
Proof.
  induction od as [|x od IH]; intros Hin.
  - by apply elem_of_nil in Hin.
  - apply elem_of_cons in Hin as [->|Hin]; simpl; [lia|].
    specialize (IH Hin). lia.
Qed.

Section Nearest.
Variable toFixed2Pct : N -> N -> Z.
Hypothesis toFixed2Pct_nearest : nearestHundredth toFixed2Pct.

Lemma toFixed2Pct_range (c t : N) :
  (0 < t)%N -> (c <= t)%N -> 0 <= toFixed2Pct c t <= 10000.
Proof.
  intros Ht Hc. pose proof (toFixed2Pct_nearest c t Ht Hc) as Hn. nia.
Qed.

(** A floor can exceed the exact percentage by at most a 199th of it. *)
Lemma toFixed2Pct_floor_scaled (c t : N) :
  (0 < t)%N -> (c <= t)%N ->
  199 * Z.of_N t * Math_floor (toFixed2Pct c t) <= 20000 * Z.of_N c.
Proof.
  intros Ht Hc. pose proof (toFixed2Pct_nearest c t Ht Hc) as Hn.
  pose proof (toFixed2Pct_range c t Ht Hc) as Hr.
  unfold Math_floor.
  set (k := toFixed2Pct c t) in *.
  assert (Hq : 0 <= k / 100) by (apply Z.div_pos; lia).
  assert (Hm : 100 * (k / 100) <= k) by (apply Z.mul_div_le; lia).
  destruct (decide (k / 100 = 0)) as [->|Hnz]; [lia|].
  nia.
Qed.

Lemma floorSum_scaled (t : N) (od : list InteractiveOptionType) :
  (0 < t)%N -> (forall e, e ∈ od -> (totalCount e <= t)%N) ->
  199 * Z.of_N t
    * sumZ (map Math_floor (map (fun e => toFixed2Pct (totalCount e) t) od))
  <= 20000 * Z.of_N (countSum od).
Proof.
  intros Ht. induction od as [|e od IH]; intros Hle; simpl; [lia|].
  pose proof (toFixed2Pct_floor_scaled (totalCount e) t Ht
                (Hle e ltac:(apply elem_of_cons; by left))) as He.
  assert (IH' := IH (fun x Hx => Hle x ltac:(apply elem_of_cons; by right))).
  lia.
Qed.

(** The floors of the printed percentages never add up to more than 100. *)
Lemma floorSum_le_100 (od : list InteractiveOptionType) :
  (0 < countSum od)%N ->
  sumZ (map Math_floor
          (map (fun e => toFixed2Pct (totalCount e) (countSum od)) od)) <= 100.
Proof.
  intros Ht.
  pose proof (floorSum_scaled (countSum od) od Ht (count_le_sum od)) as Hs.
  nia.
Qed.

Lemma percentages_range (od : list InteractiveOptionType) :
  (0 < countSum od)%N ->
  Forall (fun p => 0 <= p <= 10000)
         (map (fun e => toFixed2Pct (totalCount e) (countSum od)) od).
Proof.
  intros Ht. apply Forall_forall. intros p Hp.
  apply list_elem_of_fmap in Hp as (e & -> & He).
  apply toFixed2Pct_range; [done|]. by apply count_le_sum.
Qed.

End Nearest.

Lemma toFixed2HalfUp_nearest : nearestHundredth toFixed2HalfUp.
Proof.
  intros c t Ht Hc. unfold toFixed2HalfUp, toFixed2.
  Z.div_mod_to_equations. nia.
Qed.

End EngineFacts.

(** ** The distribution loop *)

Module LoopFacts.
Import Engine EngineNotions EngineFacts.

Ltac to_fmap := repeat change (@map ?A ?B ?f ?l) with (@fmap list _ A B f l) in *.

(** All assignments of one [forEach]. *)
Lemma forEach_arraySet (f : PercentageObj -> Z) (objs : list PercentageObj)
      (arr : list (nat * Z)) :
  fold_left (fun a o => arraySet a (originalIndex o) (f o)) objs arr
  = reverse ((fun o => (originalIndex o, f o)) <$> objs) ++ arr.
Proof.
  revert arr. induction objs as [|o objs IH]; intros arr; simpl; [done|].
  rewrite IH. unfold arraySet. rewrite reverse_cons, <- app_assoc. done.
Qed.

Lemma loopBody_cons (st : LoopState) (h : PercentageObj) (t : list PercentageObj) :
  st_preserveOriginal st = h :: t ->
  let ties := filter (fun o => value o = value h) (h :: t) in
  let up := (Z.of_nat (length ties) <=? st_remainder st) && negb (remainder h =? 0) in
  loopBody st =
    {| st_remainder := st_remainder st - (if up then Z.of_nat (length ties) else 0);
       st_preserveOriginal := filter (fun o => value o <> value h) (h :: t);
       st_finalPercentages :=
         reverse ((fun o => (originalIndex o, Math_floor (value o) + (if up then 1 else 0)))
                    <$> ties)
         ++ st_finalPercentages st |}.
Proof.
  intros Hpo. unfold loopBody. rewrite Hpo. cbv zeta.
  rewrite forEach_arraySet. done.
Qed.

Lemma loopCond_true (st : LoopState) :
  loopCond st = true ->
  0 < st_remainder st /\ exists h t, st_preserveOriginal st = h :: t.
Proof.
  unfold loopCond. intros H. apply andb_true_iff in H as [Hr Hl].
  split; [lia|]. destruct (st_preserveOriginal st) as [|h t]; [done|eauto].
Qed.

Lemma loopBody_shrinks (st : LoopState) :
  loopCond st = true ->
  (length (st_preserveOriginal (loopBody st)) < length (st_preserveOriginal st))%nat.
Proof.
  intros Hc. destruct (loopCond_true st Hc) as (_ & h & t & Hpo).
  rewrite (loopBody_cons st h t Hpo). simpl st_preserveOriginal. rewrite Hpo.
  apply (length_filter_lt _ _ h); [apply elem_of_cons; by left | tauto].
Qed.

(** The loop leaves by its own test once it has run as many passes as
    there are objects. *)
Lemma whileLoop_exits (fuel : nat) (st : LoopState) :
  (length (st_preserveOriginal st) <= fuel)%nat ->
  loopCond (whileLoop fuel st) = false.
Proof.
  revert st. induction fuel as [|fuel IH]; intros st Hlen; simpl.
  - unfold loopCond. destruct (st_preserveOriginal st); simpl in *; [|lia].
    apply andb_false_r.
  - destruct (loopCond st) eqn:Hc; [|done].
    apply IH. pose proof (loopBody_shrinks st Hc). lia.
Qed.

(** Further passes change nothing. *)
Lemma whileLoop_enough (fuel1 fuel2 : nat) (st : LoopState) :
  (length (st_preserveOriginal st) <= fuel1)%nat ->
  (length (st_preserveOriginal st) <= fuel2)%nat ->
  whileLoop fuel1 st = whileLoop fuel2 st.
Proof.
  revert fuel2 st. induction fuel1 as [|fuel1 IH]; intros fuel2 st H1 H2.
  - destruct (st_preserveOriginal st) eqn:Hpo; simpl in *; [|lia].
    destruct fuel2; simpl; [done|].
    unfold loopCond. rewrite Hpo. simpl. by rewrite andb_false_r.
  - destruct fuel2 as [|fuel2]; simpl.
    + destruct (st_preserveOriginal st) eqn:Hpo; simpl in *; [|lia].
      unfold loopCond. rewrite Hpo. simpl. by rewrite andb_false_r.
    + destruct (loopCond st) eqn:Hc; [|done].
      pose proof (loopBody_shrinks st Hc). apply IH; lia.
Qed.

(** Invariants of the loop are established pass by pass. *)
Lemma whileLoop_invariant (I : LoopState -> Prop) :
  (forall st, I st -> loopCond st = true -> I (loopBody st)) ->
  forall fuel st, I st -> I (whileLoop fuel st).
Proof.
  intros Hstep fuel. induction fuel as [|fuel IH]; intros st HI; simpl; [done|].
  destruct (loopCond st) eqn:Hc; [|done]. apply IH. by apply Hstep.
Qed.

(** The two filters of a pass split the objects. *)
Lemma ties_split (h : PercentageObj) (po : list PercentageObj) :
  filter (fun o => value o = value h) po ++ filter (fun o => value o <> value h) po
  ≡ₚ po.
Proof. apply (filter_app_complement (fun o => value o = value h)). Qed.

Lemma indicesSplit_body (n : nat) (st : LoopState) :
  indicesSplit n st -> loopCond st = true -> indicesSplit n (loopBody st).
Proof.
  unfold indicesSplit. intros HI Hc.
  destruct (loopCond_true st Hc) as (_ & h & t & Hpo).
  rewrite (loopBody_cons st h t Hpo). simpl.
  rewrite Hpo in HI. rewrite <- HI.
  rewrite fmap_app, fmap_reverse, reverse_Permutation, <- list_fmap_compose.
  rewrite <- (ties_split h (h :: t)) at 3.
  rewrite fmap_app.
  set (ties := filter (fun o => value o = value h) (h :: t)).
  set (rest := filter (fun o => value o <> value h) (h :: t)).
  assert (E : (fst ∘ (fun o : PercentageObj =>
             (originalIndex o,
              Math_floor (value o)
              + (if (Z.of_nat (length ties) <=? st_remainder st) && negb (remainder h =? 0)
                 then 1 else 0)))) <$> ties = originalIndex <$> ties) by done.
  rewrite E. clear E.
  rewrite <- !app_assoc. rewrite (Permutation_app_swap_app _ (st_finalPercentages st).*1). done.
Qed.

#[global] Instance sortsBefore_total : Total sortsBefore.
Proof.
  intros l r. unfold sortsBefore, compareFn.
  repeat case_decide; lia.
Qed.

#[global] Instance sortsBefore_trans : Transitive sortsBefore.
Proof.
  intros x y z. unfold sortsBefore, compareFn.
  repeat case_decide; lia.
Qed.

(** The objects enter the loop in the order of the comparison function:
    no later object has a higher remainder, or the same remainder and a
    higher value, than an earlier one. *)
Lemma preserveOriginalOf_sorted (percentages : list Z) :
  StronglySorted sortsBefore (preserveOriginalOf percentages).
Proof. unfold preserveOriginalOf. apply StronglySorted_merge_sort; apply _. Qed.

Lemma indices_initial (percentages : list Z) :
  originalIndex <$> preserveOriginalOf percentages ≡ₚ seq 0 (length percentages).
Proof.
  unfold preserveOriginalOf. rewrite merge_sort_Permutation, fmap_imap.
  change (imap (fun j _ => id j) percentages ≡ₚ seq 0 (length percentages)).
  by rewrite imap_seq_0, list_fmap_id.
Qed.

(** Each position of the array is assigned exactly once by [distribute]. *)
Lemma distribute_indices (remainder0 : Z) (percentages : list Z) :
  (distribute remainder0 percentages).*1 ≡ₚ seq 0 (length percentages).
Proof.
  unfold distribute. rewrite forEach_arraySet.
  set (st0 := loopStart remainder0 percentages).
  assert (HI : indicesSplit (length percentages)
                 (whileLoop (length (preserveOriginalOf percentages)) st0)).
  { apply whileLoop_invariant; [apply indicesSplit_body|].
    unfold indicesSplit. simpl. apply indices_initial. }
  unfold indicesSplit in HI. rewrite <- HI.
  rewrite fmap_app, fmap_reverse, reverse_Permutation, <- list_fmap_compose.
  rewrite Permutation_app_comm. done.
Qed.

(** *** Reading the assignments back as an array *)

Lemma max_list_bound (k : nat) (l : list nat) :
  (forall x, x ∈ l -> (x <= k)%nat) -> (max_list l <= k)%nat.
Proof.
  induction l as [|x l IH]; intros H; simpl; [lia|].
  pose proof (H x ltac:(apply elem_of_cons; by left)).
  pose proof (IH (fun y Hy => H y ltac:(apply elem_of_cons; by right))). lia.
Qed.

Lemma arrayLength_full (arr : list (nat * Z)) (n : nat) :
  arr.*1 ≡ₚ seq 0 n -> arrayLength arr = n.
Proof.
  intros Hp. unfold arrayLength. to_fmap.
  apply Nat.le_antisymm.
  - apply max_list_bound. intros x Hx.
    apply list_elem_of_fmap in Hx as (w & -> & Hw).
    assert (Hi : w.1 ∈ arr.*1) by (apply list_elem_of_fmap; eauto).
    rewrite Hp in Hi. apply elem_of_seq in Hi. lia.
  - destruct n as [|n]; [lia|].
    assert (Hi : n ∈ arr.*1) by (rewrite Hp; apply elem_of_seq; lia).
    apply list_elem_of_fmap in Hi as (w & -> & Hw).
    apply max_list_elem_of_le. apply list_elem_of_fmap. eauto.
Qed.

Lemma lookup_full (arr : list (nat * Z)) (n i : nat) :
  arr.*1 ≡ₚ seq 0 n -> (i < n)%nat ->
  exists v, (list_to_map arr : gmap nat Z) !! i = Some v /\ (i, v) ∈ arr.
Proof.
  intros Hp Hi.
  assert (Hnd : NoDup arr.*1) by (rewrite Hp; apply NoDup_seq).
  assert (Hin : i ∈ arr.*1) by (rewrite Hp; apply elem_of_seq; lia).
  apply list_elem_of_fmap in Hin as ([j v] & -> & Hw). simpl.
  exists v. split; [|done]. by apply elem_of_list_to_map.
Qed.

Lemma arrayToList_full (arr : list (nat * Z)) (n : nat) :
  arr.*1 ≡ₚ seq 0 n -> arrayToList arr = Int <$> readBack arr n.
Proof.
  intros Hp. unfold arrayToList, readBack. rewrite (arrayLength_full arr n Hp).
  to_fmap. rewrite <- list_fmap_compose.
  apply list_fmap_ext. intros k i Hk.
  apply lookup_seq in Hk as [-> Hlt]. simpl.
  destruct (lookup_full arr n k Hp Hlt) as (v & Hv & _).
  unfold arrayGet. by rewrite Hv.
Qed.

Lemma readBack_length (arr : list (nat * Z)) (n : nat) : length (readBack arr n) = n.
Proof. unfold readBack. by rewrite length_fmap, length_seq. Qed.

Lemma readBack_lookup (arr : list (nat * Z)) (n i : nat) (v : Z) :
  arr.*1 ≡ₚ seq 0 n ->
  readBack arr n !! i = Some v <-> (i, v) ∈ arr.
Proof.
  intros Hp.
  assert (Hnd : NoDup arr.*1) by (rewrite Hp; apply NoDup_seq).
  unfold readBack. rewrite list_lookup_fmap. split.
  - intros H. destruct (seq 0 n !! i) as [k|] eqn:Hk; [|done].
    apply lookup_seq in Hk as [-> Hlt]. simpl in H.
    destruct (lookup_full arr n i Hp Hlt) as (w & Hw & Hin).
    rewrite Hw in H. simpl in H. by simplify_eq.
  - intros Hin.
    assert (Hi : i ∈ arr.*1) by (apply list_elem_of_fmap; by exists (i, v)).
    rewrite Hp in Hi. apply elem_of_seq in Hi.
    assert (Hk : seq 0 n !! i = Some i) by (apply lookup_seq; lia).
    rewrite Hk. simpl. apply (elem_of_list_to_map (M := gmap nat)) in Hin; [|done].
    by rewrite Hin.
Qed.

Lemma readBack_perm (arr : list (nat * Z)) (n : nat) :
  arr.*1 ≡ₚ seq 0 n -> readBack arr n ≡ₚ arr.*2.
Proof.
  intros Hp.
  assert (Hnd : NoDup arr.*1) by (rewrite Hp; apply NoDup_seq).
  set (g := fun i : nat => (i, default 0 ((list_to_map arr : gmap nat Z) !! i))).
  assert (Hq : g <$> seq 0 n ≡ₚ arr).
  { apply NoDup_Permutation.
    - apply NoDup_fmap_2_strong; [|apply NoDup_seq].
      intros x y _ _ Hxy. unfold g in Hxy. by simplify_eq.
    - by apply (NoDup_fmap_1 fst).
    - intros [i v]. rewrite list_elem_of_fmap. split.
      + intros (k & Hkv & Hk). apply elem_of_seq in Hk. unfold g in Hkv. simplify_eq.
        destruct (lookup_full arr n k Hp ltac:(lia)) as (w & Hw & Hin).
        by rewrite Hw.
      + intros Hin. exists i.
        assert (Hi : i ∈ arr.*1) by (apply list_elem_of_fmap; by exists (i, v)).
        rewrite Hp in Hi. split; [|done].
        apply (elem_of_list_to_map (M := gmap nat)) in Hin; [|done].
        unfold g. by rewrite Hin. }
  transitivity ((g <$> seq 0 n).*2); [|by apply fmap_Permutation].
  unfold readBack. rewrite <- list_fmap_compose. done.
Qed.

Lemma readBack_Forall (P : Z -> Prop) (arr : list (nat * Z)) (n : nat) :
  arr.*1 ≡ₚ seq 0 n -> Forall (fun w => P w.2) arr -> Forall P (readBack arr n).
Proof.
  intros Hp Hall. rewrite (readBack_perm arr n Hp).
  by apply Forall_fmap.
Qed.

(** *** What the loop does to the values *)

Lemma sumZ_shift (g : PercentageObj -> Z) (c : Z) (l : list PercentageObj) :
  sumZ ((fun o => g o + c) <$> l) = sumZ (g <$> l) + c * Z.of_nat (length l).
Proof.
  induction l as [|o l IH]; [simpl; lia|].
  rewrite !fmap_cons. change (sumZ (?x :: ?k)) with (x + sumZ k).
  rewrite IH, length_cons. lia.
Qed.

Lemma sumZ_reverse (l : list Z) : sumZ (reverse l) = sumZ l.
Proof. by rewrite reverse_Permutation. Qed.

Lemma Forall_filter_keep {A} (P Q : A -> Prop) `{!forall x, Decision (Q x)} (l : list A) :
  Forall P l -> Forall P (filter Q l).
Proof.
  rewrite !Forall_forall. intros Hall x Hx.
  apply list_elem_of_filter in Hx as [_ Hx]. by apply Hall.
Qed.

Lemma floor_range (p : Z) : 0 <= p <= 10000 -> 0 <= Math_floor p <= 100.
Proof. intros Hp. unfold Math_floor. Z.div_mod_to_equations. lia. Qed.

Lemma floor_below_100 (p : Z) :
  0 <= p <= 10000 -> fractionOf p <> 0 -> 0 <= Math_floor p + 1 <= 100.
Proof. intros Hp. unfold Math_floor, fractionOf. Z.div_mod_to_equations. lia. Qed.

Lemma valuesOk_body (floors remainder0 : Z) (st : LoopState) :
  valuesOk floors remainder0 st -> loopCond st = true ->
  valuesOk floors remainder0 (loopBody st).
Proof.
  intros (Hr & Hsum & Hlog & Hpo) Hc.
  destruct (loopCond_true st Hc) as (Hpos & h & t & E).
  rewrite (loopBody_cons st h t E). rewrite E in Hsum, Hpo.
  set (ties := filter (fun o => value o = value h) (h :: t)) in *.
  set (rest := filter (fun o => value o <> value h) (h :: t)) in *.
  set (up := (Z.of_nat (length ties) <=? st_remainder st) && negb (remainder h =? 0)).
  assert (Hsplit : ties ++ rest ≡ₚ h :: t) by apply ties_split.
  assert (Hties : Forall objOk ties) by (by apply Forall_filter_keep).
  assert (Hrest : Forall objOk rest) by (by apply Forall_filter_keep).
  assert (Hh : objOk h) by (by apply Forall_cons_1 in Hpo as [? _]).
  unfold valuesOk. simpl.
  rewrite <- Hsplit, fmap_app, sumZ_app in Hsum.
  rewrite fmap_app, fmap_reverse, sumZ_app, sumZ_reverse, <- list_fmap_compose.
  change (snd ∘ (fun o : PercentageObj => (originalIndex o, Math_floor (value o) + (if up then 1 else 0))))
    with (fun o : PercentageObj => Math_floor (value o) + (if up then 1 else 0)).
  rewrite sumZ_shift.
  split; [|split; [|split]].
  - destruct up eqn:Hup; [|lia].
    apply andb_true_iff in Hup as [Hle _]. lia.
  - destruct up; lia.
  - apply Forall_app. split; [|done].
    apply Forall_reverse, Forall_fmap, Forall_forall. intros o Ho. simpl.
    assert (Hv : value o = value h).
    { apply list_elem_of_filter in Ho. tauto. }
    destruct Hh as [Hhr Hhf]. rewrite Hv.
    destruct up eqn:Hup.
    + apply andb_true_iff in Hup as [_ Hnz].
      apply floor_below_100; [done|]. rewrite <- Hhf. lia.
    + pose proof (floor_range (value h) Hhr). lia.
  - done.
Qed.

(** The assigned values of [distribute]: between the floors and the floors
    plus the budget, each within [0,100]. *)
Lemma distribute_values (remainder0 : Z) (percentages : list Z) :
  0 <= remainder0 ->
  Forall (fun p => 0 <= p <= 10000) percentages ->
  sumZ (Math_floor <$> percentages) <= sumZ (distribute remainder0 percentages).*2
    <= sumZ (Math_floor <$> percentages) + remainder0
  /\ Forall (fun w => 0 <= w.2 <= 100) (distribute remainder0 percentages).
Proof.
  intros Hr0 Hps. unfold distribute. rewrite forEach_arraySet.
  set (st0 := loopStart remainder0 percentages).
  assert (Hfl : (fun o => Math_floor (value o)) <$> preserveOriginalOf percentages
                ≡ₚ Math_floor <$> percentages).
  { unfold preserveOriginalOf. rewrite merge_sort_Permutation, fmap_imap.
    change (imap (const Math_floor) percentages ≡ₚ Math_floor <$> percentages).
    by rewrite imap_const. }
  assert (HI : valuesOk (sumZ (Math_floor <$> percentages)) remainder0
                        (whileLoop (length (preserveOriginalOf percentages)) st0)).
  { apply whileLoop_invariant; [apply valuesOk_body|].
    unfold valuesOk. simpl. split; [|split; [|split]].
    - lia.
    - rewrite Hfl. lia.
    - done.
    - unfold preserveOriginalOf. rewrite merge_sort_Permutation.
      apply Forall_forall. intros o Ho.
      apply elem_of_lookup_imap in Ho as (i & p & -> & Hp).
      split; simpl; [|done].
      rewrite Forall_forall in Hps. apply Hps. by eapply list_elem_of_lookup_2. }
  destruct HI as (Hr & Hsum & Hlog & Hpo).
  set (st := whileLoop _ st0) in *.
  split.
  - rewrite fmap_app, fmap_reverse, sumZ_app, sumZ_reverse, <- list_fmap_compose.
    change (snd ∘ (fun o : PercentageObj => (originalIndex o, Math_floor (value o))))
      with (fun o : PercentageObj => Math_floor (value o)).
    lia.
  - apply Forall_app. split; [|done].
    apply Forall_reverse, Forall_fmap, Forall_forall. intros o Ho. simpl.
    rewrite Forall_forall in Hpo. destruct (Hpo o Ho) as [Hv _].
    by apply floor_range.
Qed.

(** *** Equal percentages are treated alike *)

Lemma tiesKept_body (ps : list Z) (st : LoopState) :
  tiesKept ps st -> loopCond st = true -> tiesKept ps (loopBody st).
Proof.
  intros (Hown & Hsame & Hsep) Hc.
  destruct (loopCond_true st Hc) as (_ & h & t & E).
  rewrite (loopBody_cons st h t E). rewrite E in Hown, Hsep.
  set (up := (_ <=? _) && _).
  unfold tiesKept. simpl.
  assert (Hnew : forall i v,
            (i, v) ∈ reverse ((fun o => (originalIndex o, Math_floor (value o) + (if up then 1 else 0)))
                                <$> filter (fun o => value o = value h) (h :: t)) ->
            ps !! i = Some (value h)
            /\ v = Math_floor (value h) + (if up then 1 else 0)).
  { intros i v Hin. apply elem_of_reverse, list_elem_of_fmap in Hin as (o & Heq & Ho).
    apply list_elem_of_filter in Ho as [Hv Ho]. simplify_eq.
    rewrite <- Hv. split; [by apply Hown|done]. }
  assert (Hh : h ∈ h :: t) by (apply elem_of_cons; by left).
  split; [|split].
  - intros o Ho. apply list_elem_of_filter in Ho as [_ Ho]. by apply Hown.
  - intros i v j w p Hi Hj Hpi Hpj.
    apply elem_of_app in Hi as [Hi|Hi]; apply elem_of_app in Hj as [Hj|Hj].
    + destruct (Hnew i v Hi) as [_ ->]. by destruct (Hnew j w Hj) as [_ ->].
    + destruct (Hnew i v Hi) as [Hpi' _].
      exfalso. apply (Hsep j w h Hj Hh). congruence.
    + destruct (Hnew j w Hj) as [Hpj' _].
      exfalso. apply (Hsep i v h Hi Hh). congruence.
    + by apply (Hsame i v j w p).
  - intros i v o Hi Ho. apply list_elem_of_filter in Ho as [Hne Ho].
    apply elem_of_app in Hi as [Hi|Hi].
    + destruct (Hnew i v Hi) as [Hpi _]. congruence.
    + by apply (Hsep i v o).
Qed.

(** Positions with equal percentages are assigned equal values. *)
Lemma distribute_ties (remainder0 : Z) (ps : list Z) (i j : nat) (v w p : Z) :
  (i, v) ∈ distribute remainder0 ps -> (j, w) ∈ distribute remainder0 ps ->
  ps !! i = Some p -> ps !! j = Some p -> v = w.
Proof.
  unfold distribute. rewrite forEach_arraySet.
  assert (HI : tiesKept ps (whileLoop (length (preserveOriginalOf ps)) (loopStart remainder0 ps))).
  { apply whileLoop_invariant; [apply tiesKept_body|].
    unfold tiesKept. simpl. split; [|split].
    - intros o Ho. unfold preserveOriginalOf in Ho.
      rewrite merge_sort_Permutation in Ho.
      apply elem_of_lookup_imap in Ho as (k & q & -> & Hq). done.
    - intros ? ? ? ? ? Hin. by apply elem_of_nil in Hin.
    - intros ? ? ? Hin. by apply elem_of_nil in Hin. }
  destruct HI as (Hown & Hsame & Hsep).
  set (st := whileLoop _ _) in *.
  assert (Hnew : forall k u,
            (k, u) ∈ reverse ((fun o => (originalIndex o, Math_floor (value o)))
                                <$> st_preserveOriginal st) ->
            exists o, o ∈ st_preserveOriginal st /\ ps !! k = Some (value o)
                      /\ u = Math_floor (value o)).
  { intros k u Hin. apply elem_of_reverse, list_elem_of_fmap in Hin as (o & Heq & Ho).
    simplify_eq. exists o. split; [done|]. split; [by apply Hown|done]. }
  intros Hi Hj Hpi Hpj.
  apply elem_of_app in Hi as [Hi|Hi]; apply elem_of_app in Hj as [Hj|Hj].
  - destruct (Hnew i v Hi) as (o1 & _ & H1 & ->).
    destruct (Hnew j w Hj) as (o2 & _ & H2 & ->). congruence.
  - destruct (Hnew i v Hi) as (o1 & Ho1 & H1 & _).
    exfalso. apply (Hsep j w o1 Hj Ho1). congruence.
  - destruct (Hnew j w Hj) as (o2 & Ho2 & H2 & _).
    exfalso. apply (Hsep i v o2 Hi Ho2). congruence.
  - by apply (Hsame i v j w p).
Qed.

End LoopFacts.

(** ** The engine as a whole *)

Module EngineWhole.
Import Engine EngineNotions EngineFacts LoopFacts.

Lemma correctOvershoot_cases (ps0 : list Z) :
  (roundedTotal ps0 <= 100 /\ correctOvershoot ps0 = (ps0, roundedTotal ps0))
  \/ (100 < roundedTotal ps0
      /\ correctOvershoot ps0
         = (overshootAdjust <$> ps0, sumZ (Math_floor <$> ps0))).
Proof.
  unfold correctOvershoot. destruct (100 <? roundedTotal ps0) eqn:Hlt.
  - right. split; [lia|]. to_fmap. by rewrite roundedTotal_adjusted.
  - left. split; [lia|done].
Qed.

Lemma correctOvershoot_total (ps0 : list Z) :
  (correctOvershoot ps0).2 = roundedTotal (correctOvershoot ps0).1.
Proof.
  destruct (correctOvershoot_cases ps0) as [[_ ->]|[_ ->]]; simpl; [done|].
  by rewrite roundedTotal_adjusted.
Qed.

Lemma correctOvershoot_pointwise (ps0 : list Z) :
  exists h : Z -> Z, (correctOvershoot ps0).1 = h <$> ps0.
Proof.
  destruct (correctOvershoot_cases ps0) as [[_ ->]|[_ ->]]; simpl.
  - exists id. by rewrite list_fmap_id.
  - by exists overshootAdjust.
Qed.

Lemma correctOvershoot_length (ps0 : list Z) :
  length (correctOvershoot ps0).1 = length ps0.
Proof.
  destruct (correctOvershoot_pointwise ps0) as [h ->]. by rewrite length_fmap.
Qed.

Lemma rawPercentages_length (f : N -> N -> Z) (od : list InteractiveOptionType) :
  length (rawPercentages f od) = length od.
Proof. unfold rawPercentages. by rewrite length_map. Qed.

Lemma preprocess_shape (f : N -> N -> Z) (od : list InteractiveOptionType) :
  (0 < totalResponseCountOf od)%N ->
  preprocessPercentages_ f od = Int <$> resultOf f od.
Proof.
  intros Ht. unfold preprocessPercentages_, resultOf.
  destruct (N.eqb_spec (totalResponseCountOf od) 0) as [E|_]; [lia|].
  destruct (correctOvershoot (rawPercentages f od)) as [ps total] eqn:Eco.
  assert (Hlen : length ps = length od).
  { change ps with (ps, total).1. rewrite <- Eco.
    by rewrite correctOvershoot_length, rawPercentages_length. }
  simpl. destruct (total =? 100).
  - to_fmap. by rewrite <- list_fmap_compose.
  - apply arrayToList_full. rewrite <- Hlen. apply distribute_indices.
Qed.

Lemma resultOf_length (f : N -> N -> Z) (od : list InteractiveOptionType) :
  length (resultOf f od) = length od.
Proof.
  unfold resultOf. destruct (_ =? 100).
  - by rewrite length_fmap, correctOvershoot_length, rawPercentages_length.
  - apply readBack_length.
Qed.

Lemma preprocess_ext (f g : N -> N -> Z) (od : list InteractiveOptionType) :
  (forall e, e ∈ od ->
     f (totalCount e) (totalResponseCountOf od) = g (totalCount e) (totalResponseCountOf od)) ->
  preprocessPercentages_ f od = preprocessPercentages_ g od.
Proof.
  intros Hfg. unfold preprocessPercentages_.
  assert (E : rawPercentages f od = rawPercentages g od).
  { unfold rawPercentages. to_fmap. apply list_fmap_ext.
    intros i e He. apply Hfg. by eapply list_elem_of_lookup_2. }
  by rewrite E.
Qed.

Lemma round_range (p : Z) : 0 <= p <= 10000 -> 0 <= Math_round p <= 100.
Proof. intros Hp. unfold Math_round. Z.div_mod_to_equations. lia. Qed.

Section Nearest.
Variable toFixed2Pct : N -> N -> Z.
Hypothesis toFixed2Pct_nearest : nearestHundredth toFixed2Pct.

(** After the special case the rounded total is at most 100, the floors
    lie below it and every percentage is between 0 and 100. *)
Lemma corrected_facts (od : list InteractiveOptionType) :
  (0 < totalResponseCountOf od)%N ->
  let ps := (correctOvershoot (rawPercentages toFixed2Pct od)).1 in
  let total := (correctOvershoot (rawPercentages toFixed2Pct od)).2 in
  total <= 100
  /\ sumZ (Math_floor <$> ps) <= total
  /\ Forall (fun p => 0 <= p <= 10000) ps.
Proof.
  intros Ht ps total.
  assert (Hraw : rawPercentages toFixed2Pct od
                 = (fun e => toFixed2Pct (totalCount e) (countSum od)) <$> od).
  { unfold rawPercentages. by rewrite totalResponseCountOf_sum. }
  rewrite totalResponseCountOf_sum in Ht.
  pose proof (floorSum_le_100 toFixed2Pct toFixed2Pct_nearest od Ht) as Hfl.
  pose proof (percentages_range toFixed2Pct toFixed2Pct_nearest od Ht) as Hrg.
  to_fmap. rewrite <- Hraw in Hfl, Hrg.
  pose proof (correctOvershoot_total (rawPercentages toFixed2Pct od)) as Htot.
  fold ps total in Htot.
  pose proof (floorSum_le_rounded ps) as Hle. to_fmap.
  split; [|split; [lia|]].
  - subst ps total.
    destruct (correctOvershoot_cases (rawPercentages toFixed2Pct od)) as [[Hc ->]|[Hc ->]];
      simpl; lia.
  - subst ps.
    destruct (correctOvershoot_cases (rawPercentages toFixed2Pct od)) as [[Hc ->]|[Hc ->]];
      simpl; [done|].
    apply Forall_fmap. eapply Forall_impl; [exact Hrg|].
    intros p Hp. by apply overshootAdjust_range.
Qed.

Lemma resultOf_bounds (od : list InteractiveOptionType) :
  (0 < totalResponseCountOf od)%N ->
  Forall (fun z => 0 <= z <= 100) (resultOf toFixed2Pct od)
  /\ sumZ (resultOf toFixed2Pct od) <= 100
  /\ ((correctOvershoot (rawPercentages toFixed2Pct od)).2 = 100 ->
      sumZ (resultOf toFixed2Pct od) = 100).
Proof.
  intros Ht. destruct (corrected_facts od Ht) as (Htot & Hfl & Hrg).
  pose proof (correctOvershoot_total (rawPercentages toFixed2Pct od)) as Hrt.
  pose proof (correctOvershoot_length (rawPercentages toFixed2Pct od)) as Hlen.
  rewrite rawPercentages_length in Hlen.
  unfold resultOf.
  set (ps := (correctOvershoot (rawPercentages toFixed2Pct od)).1) in *.
  set (total := (correctOvershoot (rawPercentages toFixed2Pct od)).2) in *.
  rewrite roundedTotal_sum in Hrt. to_fmap.
  destruct (Z.eqb_spec total 100) as [E|E].
  - split; [|split; [lia|intros _; lia]].
    apply Forall_fmap. eapply Forall_impl; [exact Hrg|].
    intros p Hp. by apply round_range.
  - destruct (distribute_values (100 - total) ps ltac:(lia) Hrg) as [Hsum Hall].
    pose proof (distribute_indices (100 - total) ps) as Hidx. rewrite Hlen in Hidx.
    split; [|split; [|done]].
    + by apply readBack_Forall.
    + rewrite (readBack_perm _ _ Hidx). lia.
Qed.

End Nearest.

(** Equal counts receive equal results, whatever the quotient function. *)
Lemma equal_counts_equal_results (f : N -> N -> Z) (od : list InteractiveOptionType)
      (i j : nat) (ei ej : InteractiveOptionType) :
  od !! i = Some ei -> od !! j = Some ej -> totalCount ei = totalCount ej ->
  preprocessPercentages_ f od !! i = preprocessPercentages_ f od !! j.
Proof.
  intros Hi Hj Hc.
  destruct (N.eq_dec (totalResponseCountOf od) 0%N) as [E|E].
  - unfold preprocessPercentages_. rewrite E. simpl. to_fmap.
    by rewrite !list_lookup_fmap, Hi, Hj.
  - rewrite preprocess_shape by lia. rewrite !list_lookup_fmap. f_equal.
    unfold resultOf.
    destruct (correctOvershoot_pointwise (rawPercentages f od)) as [h Hh].
    pose proof (correctOvershoot_length (rawPercentages f od)) as Hlen.
    rewrite rawPercentages_length in Hlen.
    set (ps := (correctOvershoot (rawPercentages f od)).1) in *.
    set (total := (correctOvershoot (rawPercentages f od)).2) in *.
    set (p := h (f (totalCount ei) (totalResponseCountOf od))).
    assert (Hpi : ps !! i = Some p).
    { rewrite Hh. unfold rawPercentages. to_fmap.
      by rewrite !list_lookup_fmap, Hi. }
    assert (Hpj : ps !! j = Some p).
    { rewrite Hh. unfold rawPercentages. to_fmap.
      rewrite !list_lookup_fmap, Hj. simpl. unfold p. by rewrite Hc. }
    destruct (total =? 100).
    + by rewrite !list_lookup_fmap, Hpi, Hpj.
    + pose proof (distribute_indices (100 - total) ps) as Hidx. rewrite Hlen in Hidx.
      apply lookup_lt_Some in Hi as Hilt. apply lookup_lt_Some in Hj as Hjlt.
      destruct (lookup_lt_is_Some_2 (readBack (distribute (100 - total) ps) (length od)) i)
        as [v Hv]; [by rewrite readBack_length|].
      destruct (lookup_lt_is_Some_2 (readBack (distribute (100 - total) ps) (length od)) j)
        as [w Hw]; [by rewrite readBack_length|].
      rewrite Hv, Hw. f_equal.
      apply (readBack_lookup _ _ _ _ Hidx) in Hv, Hw.
      by apply (distribute_ties (100 - total) ps i j v w p).
Qed.

End EngineWhole.

(** ** When the whole budget is handed out *)

Module BudgetFacts.
Import Engine EngineNotions EngineExtraNotions EngineFacts LoopFacts EngineWhole.

Lemma fractionOf_nonneg (p : Z) : 0 <= fractionOf p < 100.
Proof. unfold fractionOf. apply Z.mod_pos_bound. lia. Qed.

(** Without ties a pass takes the head alone. *)
Lemma ties_alone (h : PercentageObj) (t : list PercentageObj) :
  NoDup (value <$> h :: t) ->
  filter (fun o => value o = value h) (h :: t) = [h]
  /\ filter (fun o => value o <> value h) (h :: t) = t.
Proof.
  rewrite fmap_cons. intros Hnd. apply NoDup_cons in Hnd as [Hh _].
  assert (Ht : Forall (fun o => value o <> value h) t).
  { apply Forall_forall. intros o Ho E. apply Hh. rewrite <- E.
    by apply list_elem_of_fmap_2. }
  rewrite !filter_cons. rewrite decide_True by done. rewrite decide_False by tauto.
  split.
  - f_equal. clear Hh. induction t as [|o t IH]; [done|].
    apply Forall_cons_1 in Ht as [Ho Ht]. rewrite filter_cons.
    rewrite decide_False by done. by apply IH.
  - clear Hh. induction t as [|o t IH]; [done|].
    apply Forall_cons_1 in Ht as [Ho Ht]. rewrite filter_cons.
    rewrite decide_True by done. f_equal. by apply IH.
Qed.

(** The head of the sorted objects has the highest remainder. *)
Lemma head_remainder (h o : PercentageObj) :
  sortsBefore h o -> remainder o <= remainder h.
Proof. unfold sortsBefore, compareFn. case_decide; lia. Qed.

Lemma pointsPlaced_body (st : LoopState) :
  pointsPlaced st -> loopCond st = true -> pointsPlaced (loopBody st).
Proof.
  intros (Hs & Hnd & Hrem & Hr) Hc.
  destruct (loopCond_true st Hc) as (Hpos & h & t & E).
  rewrite (loopBody_cons st h t E). rewrite E in Hs, Hnd, Hrem, Hr.
  destruct (ties_alone h t Hnd) as [-> ->].
  apply StronglySorted_inv in Hs as [Hst Hall].
  apply Forall_cons_1 in Hrem as [Hh Hrem].
  rewrite fmap_cons in Hnd. apply NoDup_cons in Hnd as [_ Hnd].
  unfold fractional in Hr. rewrite fmap_cons, filter_cons in Hr.
  assert (Hnz : remainder h <> 0).
  { intros Hz. rewrite Hz in Hh.
    rewrite decide_False in Hr by (intros Hf; by rewrite <- Hh in Hf).
    destruct (filter _ (value <$> t)) as [|p l] eqn:Ef; [simpl in Hr; lia|].
    assert (Hp : p ∈ filter (fun p => fractionOf p <> 0) (value <$> t))
      by (rewrite Ef; apply list_elem_of_here).
    apply list_elem_of_filter in Hp as [Hpf Hp].
    apply list_elem_of_fmap in Hp as (o & -> & Ho).
    rewrite Forall_forall in Hall, Hrem.
    pose proof (head_remainder h o (Hall o Ho)) as Hle.
    rewrite (Hrem o Ho) in Hle. pose proof (fractionOf_nonneg (value o)). lia. }
  rewrite decide_True in Hr by (by rewrite <- Hh).
  simpl length in *.
  assert (Hup : (1 <=? st_remainder st) && negb (remainder h =? 0) = true).
  { apply andb_true_iff. split; [lia|]. apply negb_true_iff. lia. }
  change (Z.of_nat 1) with 1. rewrite Hup.
  unfold pointsPlaced, fractional. simpl. repeat split; try done; lia.
Qed.

(** What is handed out is the budget less what is left of it. *)
Lemma distribute_sum (remainder0 : Z) (percentages : list Z) :
  0 <= remainder0 ->
  Forall (fun p => 0 <= p <= 10000) percentages ->
  sumZ (distribute remainder0 percentages).*2
  = sumZ (Math_floor <$> percentages) + remainder0
    - st_remainder (whileLoop (length (preserveOriginalOf percentages))
                              (loopStart remainder0 percentages)).
Proof.
  intros Hr0 Hps. unfold distribute. rewrite forEach_arraySet.
  set (st0 := loopStart remainder0 percentages).
  assert (Hfl : (fun o => Math_floor (value o)) <$> preserveOriginalOf percentages
                ≡ₚ Math_floor <$> percentages).
  { unfold preserveOriginalOf. rewrite merge_sort_Permutation, fmap_imap.
    change (imap (const Math_floor) percentages ≡ₚ Math_floor <$> percentages).
    by rewrite imap_const. }
  assert (HI : valuesOk (sumZ (Math_floor <$> percentages)) remainder0
                        (whileLoop (length (preserveOriginalOf percentages)) st0)).
  { apply whileLoop_invariant; [apply valuesOk_body|].
    unfold valuesOk. simpl. split; [|split; [|split]].
    - lia.
    - rewrite Hfl. lia.
    - done.
    - unfold preserveOriginalOf. rewrite merge_sort_Permutation.
      apply Forall_forall. intros o Ho.
      apply elem_of_lookup_imap in Ho as (i & p & -> & Hp).
      split; simpl; [|done].
      rewrite Forall_forall in Hps. apply Hps. by eapply list_elem_of_lookup_2. }
  destruct HI as (Hr & Hsum & Hlog & Hpo).
  set (st := whileLoop _ st0) in *.
  rewrite fmap_app, fmap_reverse, sumZ_app, sumZ_reverse, <- list_fmap_compose.
  change (snd ∘ (fun o : PercentageObj => (originalIndex o, Math_floor (value o))))
    with (fun o : PercentageObj => Math_floor (value o)).
  lia.
Qed.

Lemma values_of_objects (percentages : list Z) :
  value <$> preserveOriginalOf percentages ≡ₚ percentages.
Proof.
  unfold preserveOriginalOf. rewrite merge_sort_Permutation, fmap_imap.
  change (imap (const id) percentages ≡ₚ percentages).
  by rewrite imap_const, list_fmap_id.
Qed.

(** Without ties, and with enough percentages that are not whole, the loop
    hands out every point of the budget. *)
Lemma distribute_exhausts (remainder0 : Z) (percentages : list Z) :
  NoDup percentages ->
  0 <= remainder0 <= Z.of_nat (fractional percentages) ->
  st_remainder (whileLoop (length (preserveOriginalOf percentages))
                          (loopStart remainder0 percentages)) = 0.
Proof.
  intros Hnd Hr.
  set (st0 := loopStart remainder0 percentages).
  assert (HI : pointsPlaced (whileLoop (length (preserveOriginalOf percentages)) st0)).
  { apply whileLoop_invariant; [apply pointsPlaced_body|].
    unfold pointsPlaced. simpl. split; [apply preserveOriginalOf_sorted|].
    split; [by rewrite values_of_objects|]. split.
    - unfold preserveOriginalOf. rewrite merge_sort_Permutation.
      apply Forall_forall. intros o Ho.
      by apply elem_of_lookup_imap in Ho as (i & p & -> & Hp).
    - unfold fractional in *. by rewrite values_of_objects. }
  assert (Hexit : loopCond (whileLoop (length (preserveOriginalOf percentages)) st0) = false)
    by (by apply whileLoop_exits).
  destruct HI as (_ & _ & _ & Hlo & Hhi).
  set (st := whileLoop _ st0) in *.
  unfold loopCond in Hexit. apply andb_false_iff in Hexit as [Hz|Hz]; [lia|].
  apply negb_false_iff, Nat.eqb_eq in Hz.
  destruct (st_preserveOriginal st); [|done].
  unfold fractional in Hhi. simpl in Hhi. lia.
Qed.

(** *** Enough percentages that are not whole *)

(** After the correction every percentage that was rounded up keeps a
    remainder. *)
Lemma adjusted_fractional (p : Z) :
  Math_round p - Math_floor p
  <= if decide (fractionOf (overshootAdjust p) <> 0) then 1 else 0.
Proof.
  case_decide as Hf.
  - unfold Math_round, Math_floor. Z.div_mod_to_equations. lia.
  - revert Hf. unfold Math_round, Math_floor, overshootAdjust, toFixed2, fractionOf.
    intros Hf. Z.div_mod_to_equations. lia.
Qed.

Lemma fractional_adjusted (percentages : list Z) :
  roundedTotal percentages
  <= sumZ (Math_floor <$> percentages)
     + Z.of_nat (fractional (overshootAdjust <$> percentages)).
Proof.
  rewrite roundedTotal_sum. to_fmap. unfold fractional.
  induction percentages as [|p ps IH]; [simpl; lia|].
  rewrite !fmap_cons, filter_cons. change (sumZ (?x :: ?k)) with (x + sumZ k).
  pose proof (adjusted_fractional p) as Hp.
  destruct (decide (fractionOf (overshootAdjust p) <> 0)); simpl length; lia.
Qed.

(** Percentages of which none is rounded up: the rounded total is the
    total of the floors, and the percentages add up to no more than the
    floors and 0.49 for each of them that is not whole. *)
Lemma unrounded_total (percentages : list Z) :
  Forall (fun p => fractionOf p < 50) percentages ->
  roundedTotal percentages = sumZ (Math_floor <$> percentages)
  /\ sumZ percentages
     <= 100 * sumZ (Math_floor <$> percentages) + 49 * Z.of_nat (fractional percentages).
Proof.
  rewrite roundedTotal_sum. to_fmap. unfold fractional.
  induction 1 as [|p ps Hp _ [IH1 IH2]]; [simpl; lia|].
  rewrite !fmap_cons, filter_cons. change (sumZ (?x :: ?k)) with (x + sumZ k).
  assert (Hr : Math_round p = Math_floor p
               /\ p <= 100 * Math_floor p + if decide (fractionOf p <> 0) then 49 else 0).
  { case_decide as Hf; revert Hp Hf; unfold Math_round, Math_floor, fractionOf;
      intros Hp Hf; Z.div_mod_to_equations; lia. }
  destruct Hr as [Hr1 Hr2].
  destruct (decide (fractionOf p <> 0)); simpl length; lia.
Qed.

(** Whole percentages between 0 and 100 that differ from each other: there
    are at most 101 of them. *)
Lemma whole_percentages_few (percentages : list Z) :
  NoDup percentages ->
  Forall (fun p => 0 <= p <= 10000) percentages ->
  (length percentages
   <= fractional percentages + 101)%nat.
Proof.
  intros Hnd Hrg. unfold fractional.
  set (whole := filter (fun p => ~ fractionOf p <> 0) percentages).
  assert (Hsplit : length percentages
                   = (length (filter (fun p => (fractionOf p <> 0)%Z) percentages)
                      + length whole)%nat).
  { rewrite <- length_app. apply Permutation_length. symmetry.
    apply (filter_app_complement (fun p => fractionOf p <> 0) percentages). }
  assert (Hw : (length whole <= 101)%nat).
  { rewrite <- (length_fmap (fun p => Z.to_nat (p / 100)) whole).
    change 101%nat with (length (seq 0%nat 101%nat)).
    apply submseteq_length, NoDup_submseteq.
    - apply NoDup_fmap_2_strong; [|by apply NoDup_filter].
      intros x y Hx Hy Hxy.
      apply list_elem_of_filter in Hx as [Hxf Hx], Hy as [Hyf Hy].
      rewrite Forall_forall in Hrg. pose proof (Hrg x Hx). pose proof (Hrg y Hy).
      revert Hxf Hyf Hxy. unfold fractionOf. intros Hxf Hyf Hxy.
      assert (x / 100 = y / 100).
      { apply Z2Nat.inj; [apply Z.div_pos; lia|apply Z.div_pos; lia|done]. }
      Z.div_mod_to_equations. lia.
    - intros k Hk. apply list_elem_of_fmap in Hk as (p & -> & Hp).
      apply list_elem_of_filter in Hp as [_ Hp].
      rewrite Forall_forall in Hrg. pose proof (Hrg p Hp).
      apply elem_of_seq.
      assert (0 <= p / 100 <= 100) by (Z.div_mod_to_equations; lia).
      lia. }
  lia.
Qed.

Section Nearest.
Variable toFixed2Pct : N -> N -> Z.
Hypothesis toFixed2Pct_nearest : nearestHundredth toFixed2Pct.

(** The printed percentages fall short of 100 by at most half a hundredth
    each. *)
Lemma percentages_sum_scaled (t : N) (od : list InteractiveOptionType) :
  (0 < t)%N -> (forall e, e ∈ od -> (totalCount e <= t)%N) ->
  20000 * Z.of_N (countSum od) - Z.of_N t * Z.of_nat (length od)
  <= 2 * Z.of_N t * sumZ ((fun e => toFixed2Pct (totalCount e) t) <$> od).
Proof.
  intros Ht. induction od as [|e od IH]; intros Hle; [simpl; lia|].
  rewrite fmap_cons. change (sumZ (?x :: ?k)) with (x + sumZ k).
  simpl countSum. rewrite length_cons.
  pose proof (toFixed2Pct_nearest (totalCount e) t Ht
                (Hle e ltac:(apply elem_of_cons; by left))) as He.
  assert (IH' := IH (fun x Hx => Hle x ltac:(apply elem_of_cons; by right))).
  lia.
Qed.

(** With percentages that differ from each other and of which none is
    rounded up, at least as many are not whole as points are missing. *)
Lemma fractional_unrounded (od : list InteractiveOptionType) :
  (0 < totalResponseCountOf od)%N ->
  NoDup (rawPercentages toFixed2Pct od) ->
  Forall (fun p => fractionOf p < 50) (rawPercentages toFixed2Pct od) ->
  100 - sumZ (Math_floor <$> rawPercentages toFixed2Pct od)
  <= Z.of_nat (fractional (rawPercentages toFixed2Pct od)).
Proof.
  intros Ht Hnd Hlow.
  destruct (unrounded_total _ Hlow) as [_ Hsum].
  assert (Hrg : Forall (fun p => 0 <= p <= 10000) (rawPercentages toFixed2Pct od)).
  { unfold rawPercentages. rewrite totalResponseCountOf_sum in *.
    by apply percentages_range. }
  pose proof (whole_percentages_few _ Hnd Hrg) as Hfew.
  rewrite rawPercentages_length in Hfew.
  assert (Hsc : 20000 * Z.of_N (countSum od) - Z.of_N (countSum od) * Z.of_nat (length od)
                <= 2 * Z.of_N (countSum od) * sumZ (rawPercentages toFixed2Pct od)).
  { unfold rawPercentages. rewrite totalResponseCountOf_sum in *. to_fmap.
    apply percentages_sum_scaled; [done|apply count_le_sum]. }
  rewrite totalResponseCountOf_sum in Ht.
  set (F := sumZ (Math_floor <$> rawPercentages toFixed2Pct od)) in *.
  set (m := fractional (rawPercentages toFixed2Pct od)) in *.
  set (S := sumZ (rawPercentages toFixed2Pct od)) in *.
  set (t := Z.of_N (countSum od)) in *.
  assert (Htp : 0 < t) by lia.
  assert (H1 : 20000 - Z.of_nat (length od) <= 2 * S) by nia.
  lia.
Qed.

(** Without ties, and with the budget counted from the floors, the entries
    add up to 100. *)
Lemma resultOf_sum_100 (od : list InteractiveOptionType) :
  (0 < totalResponseCountOf od)%N ->
  NoDup (correctOvershoot (rawPercentages toFixed2Pct od)).1 ->
  budgetFromFloors (rawPercentages toFixed2Pct od) ->
  sumZ (resultOf toFixed2Pct od) = 100.
Proof.
  intros Ht Hnd Hb.
  destruct (resultOf_bounds toFixed2Pct toFixed2Pct_nearest od Ht) as (_ & _ & H100).
  destruct (corrected_facts toFixed2Pct toFixed2Pct_nearest od Ht) as (Htot & Hfl & Hrg).
  pose proof (correctOvershoot_length (rawPercentages toFixed2Pct od)) as Hlen.
  rewrite rawPercentages_length in Hlen.
  destruct (Z.eq_dec (correctOvershoot (rawPercentages toFixed2Pct od)).2 100) as [E|E];
    [by apply H100|].
  assert (Hcount : 100 - (correctOvershoot (rawPercentages toFixed2Pct od)).2
                   <= Z.of_nat (fractional (correctOvershoot (rawPercentages toFixed2Pct od)).1)
                   /\ sumZ (Math_floor <$> (correctOvershoot (rawPercentages toFixed2Pct od)).1)
                      = (correctOvershoot (rawPercentages toFixed2Pct od)).2).
  { destruct (correctOvershoot_cases (rawPercentages toFixed2Pct od)) as [[Hc Eq]|[Hc Eq]];
      rewrite Eq in *; cbn [fst snd] in *.
    - destruct Hb as [Hb|Hb]; [lia|].
      destruct (unrounded_total _ Hb) as [Hrt _]. rewrite Hrt.
      split; [by apply fractional_unrounded|done].
    - pose proof (fractional_adjusted (rawPercentages toFixed2Pct od)) as Hfa.
      pose proof (floorSum_adjusted (rawPercentages toFixed2Pct od)) as Hfs. to_fmap.
      split; [lia|done]. }
  destruct Hcount as [Hcount Hfloors].
  unfold resultOf.
  set (ps := (correctOvershoot (rawPercentages toFixed2Pct od)).1) in *.
  set (total := (correctOvershoot (rawPercentages toFixed2Pct od)).2) in *.
  destruct (Z.eqb_spec total 100) as [E'|_]; [done|].
  pose proof (distribute_indices (100 - total) ps) as Hidx. rewrite Hlen in Hidx.
  rewrite (readBack_perm _ _ Hidx).
  rewrite distribute_sum by (lia || done).
  rewrite distribute_exhausts by (done || lia). lia.
Qed.

End Nearest.

End BudgetFacts.

(** ** Properties of the apportionment engine *)

Module Apportionment.
Import Engine EngineNotions EngineExtraNotions EngineFacts LoopFacts EngineWhole BudgetFacts.

(** Three equal counts and an option nobody chose: 33.33 three times and
    0.00.  The rounded total is 99, the tie of three does not fit the one
    point left, and 0.00 never receives a point. *)
Example preprocess_1_1_1_0 :
  preprocessPercentages_ toFixed2HalfUp (ofCounts [1; 1; 1; 0]%N)
  = [Int 33; Int 33; Int 33; Int 0].
Proof. vm_compute. reflexivity. Qed.

(** C1, as claimed, fails: for the counts 1, 1, 1, 0 (total 3) the returned
    vector is not one of four entries within [0,100] summing to exactly 100:
    it sums to 99. *)
Lemma preprocessPercentages_sum_below_100 :
  ~ (exists zs : list Z,
        preprocessPercentages_ toFixed2HalfUp (ofCounts [1; 1; 1; 0]%N) = Int <$> zs
        /\ length zs = length (ofCounts [1; 1; 1; 0]%N)
        /\ Forall (fun z => 0 <= z <= 100) zs
        /\ sumZ zs = 100).
Proof.
  intros (zs & Hzs & _ & _ & Hsum).
  rewrite preprocess_1_1_1_0 in Hzs.
  destruct zs as [|a [|b [|c [|d [|? ?]]]]]; try discriminate Hzs.
  cbn in Hzs. injection Hzs as <- <- <- <-.
  vm_compute in Hsum. discriminate Hsum.
Qed.

(** The counts 1, 4, 7, 11 (total 23) are printed as 4.35, 17.39, 30.43 and
    47.83, no two alike.  They round to 4, 17, 30 and 48, in total 99, so
    one point is taken as the budget; but the points are added to the
    floors 4, 17, 30 and 47, which are 98 in total, and the result stays at
    99 although no tie stands in the way. *)
Example preprocess_1_4_7_11 :
  rawPercentages toFixed2HalfUp (ofCounts [1; 4; 7; 11]%N) = [435; 1739; 3043; 4783]
  /\ preprocessPercentages_ toFixed2HalfUp (ofCounts [1; 4; 7; 11]%N)
     = [Int 4; Int 17; Int 30; Int 48].
Proof. vm_compute. done. Qed.

(** C1, amended: for every sequence of counts with a positive total, and
    whichever nearest hundredth the quotients are printed as, the engine
    returns integers, as many as there are counts, each within [0,100].
    They add up to exactly 100 whenever the rounded percentages (after the
    overshoot correction, when it applies) add up to 100, and whenever no
    two of the percentages that are distributed are equal and the budget is
    counted from the floors (the rounded percentages add up to more than
    100, or none of the percentages is rounded up).  When two of them are
    equal, the entries add up to at most 100.  Nothing is said of the sum
    where the budget is counted from percentages that were rounded up. *)
Theorem preprocessPercentages_range_and_sum
        (toFixed2Pct : N -> N -> Z) (optionsData : list InteractiveOptionType) :
  nearestHundredth toFixed2Pct ->
  (0 < totalResponseCountOf optionsData)%N ->
  let percentages := rawPercentages toFixed2Pct optionsData in
  exists zs : list Z,
    preprocessPercentages_ toFixed2Pct optionsData = Int <$> zs
    /\ length zs = length optionsData
    /\ Forall (fun z => 0 <= z <= 100) zs
    /\ ((correctOvershoot percentages).2 = 100 -> sumZ zs = 100)
    /\ (NoDup (correctOvershoot percentages).1 -> budgetFromFloors percentages ->
        sumZ zs = 100)
    /\ (~ NoDup (correctOvershoot percentages).1 -> sumZ zs <= 100).
Proof.
  intros Hn Ht percentages. exists (resultOf toFixed2Pct optionsData).
  destruct (resultOf_bounds toFixed2Pct Hn optionsData Ht) as (Hall & Hsum & Hex).
  split; [by apply preprocess_shape|].
  split; [apply resultOf_length|]. split; [done|]. split; [done|].
  split; [|done]. intros Hnd Hb. by apply resultOf_sum_100.
Qed.

Lemma preprocessPercentages_range_and_sum_witness :
  nearestHundredth toFixed2HalfUp
  /\ (0 < totalResponseCountOf (ofCounts [1; 2; 3; 5]%N))%N
  /\ exists zs : list Z,
       preprocessPercentages_ toFixed2HalfUp (ofCounts [1; 2; 3; 5]%N) = Int <$> zs
       /\ length zs = 4%nat
       /\ sumZ zs = 100.
Proof.
  split; [exact toFixed2HalfUp_nearest|].
  split; [reflexivity|].
  destruct (preprocessPercentages_range_and_sum toFixed2HalfUp (ofCounts [1; 2; 3; 5]%N)
              toFixed2HalfUp_nearest eq_refl)
    as (zs & Hzs & Hlen & _ & _ & Hsum & _).
  exists zs. split; [exact Hzs|]. split; [exact Hlen|].
  apply Hsum.
  - apply (bool_decide_unpack _). vm_compute. exact I.
  - right. apply (bool_decide_unpack _). vm_compute. exact I.
Defined.

(** Three equal counts: 33.33 each, rounded total 99, one point left for a
    group of three. *)
Example preprocess_1_1_1 :
  preprocessPercentages_ toFixed2HalfUp (ofCounts [1; 1; 1]%N)
  = [Int 33; Int 33; Int 33].
Proof. vm_compute. reflexivity. Qed.

(** C2, as claimed, fails: for the counts 1, 1, 1 the returned vector does
    not sum to 100. *)
Lemma three_way_tie_not_100 :
  ~ (exists zs : list Z,
        preprocessPercentages_ toFixed2HalfUp (ofCounts [1; 1; 1]%N) = Int <$> zs
        /\ sumZ zs = 100).
Proof.
  intros (zs & Hzs & Hsum).
  rewrite preprocess_1_1_1 in Hzs.
  destruct zs as [|a [|b [|c [|? ?]]]]; try discriminate Hzs.
  cbn in Hzs. injection Hzs as <- <- <-.
  vm_compute in Hsum. discriminate Hsum.
Qed.

Lemma nearest_one_third (f : N -> N -> Z) :
  nearestHundredth f -> f 1%N 3%N = toFixed2HalfUp 1%N 3%N.
Proof.
  intros Hn. pose proof (Hn 1%N 3%N ltac:(lia) ltac:(lia)) as H13.
  change (toFixed2HalfUp 1 3) with 3333. lia.
Qed.

(** C2, amended: for the counts 1, 1, 1 the engine returns 33, 33, 33, which
    sums to 99: the three entries form one tie group, too large for the one
    point left, and are floored together.  In general a pass of the loop
    takes all objects with the head's value at once, gives each its floor
    plus one exactly when the group fits the remaining budget and the head's
    remainder is not 0.00, its floor otherwise, and charges the budget with
    the group's size only when it rounds up; and entries with equal counts
    always receive equal results. *)
Theorem tie_groups_kept_together (toFixed2Pct : N -> N -> Z) :
  nearestHundredth toFixed2Pct ->
  preprocessPercentages_ toFixed2Pct (ofCounts [1; 1; 1]%N) = [Int 33; Int 33; Int 33]
  /\ (forall (st : LoopState) (h : PercentageObj) (t : list PercentageObj),
        st_preserveOriginal st = h :: t ->
        let ties := filter (fun o => value o = value h) (h :: t) in
        let up := bool_decide (Z.of_nat (length ties) <= st_remainder st
                               /\ remainder h <> 0) in
        st_preserveOriginal (loopBody st) = filter (fun o => value o <> value h) (h :: t)
        /\ st_remainder (loopBody st)
           = st_remainder st - (if up then Z.of_nat (length ties) else 0)
        /\ st_finalPercentages (loopBody st)
           = reverse ((fun o => (originalIndex o,
                                 Math_floor (value o) + (if up then 1 else 0))) <$> ties)
             ++ st_finalPercentages st)
  /\ (forall (optionsData : list InteractiveOptionType) (i j : nat)
             (ei ej : InteractiveOptionType),
        optionsData !! i = Some ei -> optionsData !! j = Some ej ->
        totalCount ei = totalCount ej ->
        preprocessPercentages_ toFixed2Pct optionsData !! i
        = preprocessPercentages_ toFixed2Pct optionsData !! j).
Proof.
  intros Hn. split; [|split].
  - rewrite (preprocess_ext toFixed2Pct toFixed2HalfUp).
    + apply preprocess_1_1_1.
    + intros e He. change (totalResponseCountOf (ofCounts [1; 1; 1]%N)) with 3%N.
      assert (Hc : totalCount e = 1%N).
      { unfold ofCounts in He. simpl in He.
        repeat (apply elem_of_cons in He as [->|He]; [done|]).
        by apply elem_of_nil in He. }
      rewrite Hc. by apply nearest_one_third.
  - intros st h t Hpo ties up.
    rewrite (loopBody_cons st h t Hpo). simpl. fold ties.
    assert (E : (Z.of_nat (length ties) <=? st_remainder st) && negb (remainder h =? 0) = up).
    { unfold up. destruct (Z.leb_spec (Z.of_nat (length ties)) (st_remainder st));
        destruct (Z.eqb_spec (remainder h) 0); simpl; symmetry.
      - apply bool_decide_eq_false. tauto.
      - apply bool_decide_eq_true. tauto.
      - apply bool_decide_eq_false. lia.
      - apply bool_decide_eq_false. lia. }
    rewrite E. done.
  - intros od i j ei ej. apply equal_counts_equal_results.
Qed.

Lemma tie_groups_kept_together_witness :
  nearestHundredth toFixed2HalfUp
  /\ preprocessPercentages_ toFixed2HalfUp (ofCounts [1; 1; 1]%N)
     = [Int 33; Int 33; Int 33].
Proof.
  split; [exact toFixed2HalfUp_nearest|].
  exact (proj1 (tie_groups_kept_together toFixed2HalfUp toFixed2HalfUp_nearest)).
Defined.

(** *** The overshoot correction, in the words of the description *)

Lemma Math_round_roundHalfUp (p : Z) : Math_round p = roundHalfUp (pct p).
Proof.
  unfold Math_round, roundHalfUp, pct. cbn.
  Z.div_mod_to_equations. lia.
Qed.

Lemma overshootAdjust_twoThirds (p : Z) :
  (Qabs (pct (overshootAdjust p) - twoThirdsCorrection (pct p)) < 1 # 200)%Q.
Proof.
  apply Qabs_Qlt_condition.
  unfold twoThirdsCorrection, fractionalPart, pct, overshootAdjust, toFixed2, fractionOf.
  unfold Qlt, Qminus, Qplus, Qmult, Qopp, inject_Z, Qfloor. cbn.
  Z.div_mod_to_equations. lia.
Qed.

(** The special case of lines 444-455 on its own: the total of the
    independently rounded percentages decides.  Above 100 every percentage
    is replaced by itself minus two thirds of its fractional part, kept to
    two decimals, and the rounded total is taken anew from the replaced
    percentages; at 100 or below percentages and total are left as they
    are. *)
Lemma correctOvershoot_two_thirds (percentages : list Z) :
  let roundedSum := sumZ ((fun p => roundHalfUp (pct p)) <$> percentages) in
  roundedTotal percentages = roundedSum
  /\ (100 < roundedSum ->
      (correctOvershoot percentages).1 = overshootAdjust <$> percentages
      /\ Forall2 (fun p a => (Qabs (pct a - twoThirdsCorrection (pct p)) < 1 # 200)%Q)
                 percentages (correctOvershoot percentages).1
      /\ (correctOvershoot percentages).2
         = sumZ ((fun a => roundHalfUp (pct a)) <$> (correctOvershoot percentages).1))
  /\ (roundedSum <= 100 ->
      correctOvershoot percentages = (percentages, roundedSum)).
Proof.
  intros roundedSum.
  assert (Hrs : forall l, roundedTotal l = sumZ ((fun p => roundHalfUp (pct p)) <$> l)).
  { intros l. rewrite roundedTotal_sum. to_fmap. f_equal.
    apply list_fmap_ext. intros _ p _. apply Math_round_roundHalfUp. }
  split; [apply Hrs|]. split.
  - intros Hgt. unfold roundedSum in Hgt. rewrite <- Hrs in Hgt.
    destruct (correctOvershoot_cases percentages) as [[Hc _]|[_ E]]; [lia|].
    rewrite <- Hrs, <- correctOvershoot_total. rewrite E. simpl.
    split; [done|]. split; [|done].
    apply Forall2_fmap_r, Forall2_same_length_lookup. split; [done|].
    intros i p q Hp Hq. simplify_eq. apply overshootAdjust_twoThirds.
  - intros Hle. unfold roundedSum in *. rewrite <- Hrs in *.
    destruct (correctOvershoot_cases percentages) as [[_ E]|[Hc _]]; [done|lia].
Qed.

(** C5: in the engine the total of the independently rounded percentages
    decides.  Above 100 every percentage is replaced by itself minus two
    thirds of its fractional part, kept to two decimals, and what the engine
    returns is what the rest of it makes of the replaced percentages and of
    their rounded total, taken anew; at 100 or below it is what the rest
    makes of the percentages and their total as they are. *)
Theorem overshoot_correction_two_thirds
        (toFixed2Pct : N -> N -> Z) (optionsData : list InteractiveOptionType) :
  (0 < totalResponseCountOf optionsData)%N ->
  let percentages := rawPercentages toFixed2Pct optionsData in
  let roundedSum (ps : list Z) := sumZ ((fun p => roundHalfUp (pct p)) <$> ps) in
  let apportioned (ps : list Z) :=
    if roundedSum ps =? 100 then (fun p => Int (roundHalfUp (pct p))) <$> ps
    else arrayToList (distribute (100 - roundedSum ps) ps) in
  (100 < roundedSum percentages ->
     Forall2 (fun p a => (Qabs (pct a - twoThirdsCorrection (pct p)) < 1 # 200)%Q)
             percentages (overshootAdjust <$> percentages)
     /\ preprocessPercentages_ toFixed2Pct optionsData
        = apportioned (overshootAdjust <$> percentages))
  /\ (roundedSum percentages <= 100 ->
      preprocessPercentages_ toFixed2Pct optionsData = apportioned percentages).
Proof.
  intros Ht percentages roundedSum apportioned.
  assert (Hrs : forall l, roundedTotal l = roundedSum l).
  { intros l. apply (proj1 (correctOvershoot_two_thirds l)). }
  assert (Hengine : preprocessPercentages_ toFixed2Pct optionsData
                    = apportioned (correctOvershoot percentages).1).
  { unfold preprocessPercentages_, apportioned.
    destruct (N.eqb_spec (totalResponseCountOf optionsData) 0) as [E|_]; [lia|].
    fold percentages. rewrite <- Hrs, <- correctOvershoot_total.
    destruct (correctOvershoot percentages) as [ps total]. cbn [fst snd].
    destruct (total =? 100); [|done]. to_fmap.
    apply list_fmap_ext. intros _ p _. by rewrite Math_round_roundHalfUp. }
  destruct (correctOvershoot_two_thirds percentages) as (_ & Habove & Hbelow).
  split.
  - intros Hgt. destruct (Habove Hgt) as (E & Hall & _).
    rewrite E in Hall. split; [done|]. by rewrite Hengine, E.
  - intros Hle. by rewrite Hengine, (Hbelow Hle).
Qed.

(** 995 and 5 responses: 99.50 and 0.50 round to 100 and 1.  They are
    corrected to 99.17 and 0.17, which round to 99 and 0, and the one point
    left goes to the larger: 100 and 0, where the percentages as printed
    would have given 99 and 0. *)
Lemma overshoot_correction_two_thirds_witness :
  (0 < totalResponseCountOf (ofCounts [995; 5]%N))%N
  /\ 100 < sumZ ((fun p => roundHalfUp (pct p))
                 <$> rawPercentages toFixed2HalfUp (ofCounts [995; 5]%N))
  /\ overshootAdjust <$> rawPercentages toFixed2HalfUp (ofCounts [995; 5]%N) = [9917; 17]
  /\ preprocessPercentages_ toFixed2HalfUp (ofCounts [995; 5]%N) = [Int 100; Int 0]
  /\ arrayToList (distribute (100 - 101)
                             (rawPercentages toFixed2HalfUp (ofCounts [995; 5]%N)))
     = [Int 99; Int 0].
Proof.
  assert (Ht : (0 < totalResponseCountOf (ofCounts [995; 5]%N))%N) by reflexivity.
  assert (H : 100 < sumZ ((fun p => roundHalfUp (pct p))
                           <$> rawPercentages toFixed2HalfUp (ofCounts [995; 5]%N)))
    by (vm_compute; reflexivity).
  split; [exact Ht|]. split; [exact H|]. split; [vm_compute; reflexivity|].
  split; [|vm_compute; reflexivity].
  destruct (overshoot_correction_two_thirds toFixed2HalfUp (ofCounts [995; 5]%N) Ht)
    as (Habove & _).
  destruct (Habove H) as (_ & Heq).
  refine (eq_trans Heq _). vm_compute. reflexivity.
Defined.

(** Six equal counts: 16.67 each rounds to 17, in total 102; two thirds of
    0.67 taken away leaves 16.22. *)
Example correctOvershoot_six_equal :
  correctOvershoot (rawPercentages toFixed2HalfUp (ofCounts [1; 1; 1; 1; 1; 1]%N))
  = ([1622; 1622; 1622; 1622; 1622; 1622], 96).
Proof. vm_compute. reflexivity. Qed.

(** *** Termination and coverage of the distribution loop *)

Lemma preserveOriginalOf_length (percentages : list Z) :
  length (preserveOriginalOf percentages) = length percentages.
Proof.
  unfold preserveOriginalOf. by rewrite merge_sort_Permutation, length_imap.
Qed.

(** C10: whatever the budget and the percentages, the loop leaves by its
    own test after at most as many passes as there are entries, and further
    passes would change nothing; the assignments made to the result array
    hit every position from 0 up to the number of entries exactly once, so
    that the array read back has no hole and the length of the input; and
    with a positive total the engine returns one integer per option. *)
Theorem distribution_terminates_and_fills
        (toFixed2Pct : N -> N -> Z) (optionsData : list InteractiveOptionType)
        (remainder0 : Z) (percentages : list Z) (fuel : nat) :
  (length percentages <= fuel)%nat ->
  (0 < totalResponseCountOf optionsData)%N ->
  loopCond (whileLoop fuel (loopStart remainder0 percentages)) = false
  /\ whileLoop fuel (loopStart remainder0 percentages)
     = whileLoop (length (preserveOriginalOf percentages))
                 (loopStart remainder0 percentages)
  /\ (distribute remainder0 percentages).*1 ≡ₚ seq 0 (length percentages)
  /\ (exists zs : list Z,
        arrayToList (distribute remainder0 percentages) = Int <$> zs
        /\ length zs = length percentages)
  /\ (exists zs : list Z,
        preprocessPercentages_ toFixed2Pct optionsData = Int <$> zs
        /\ length zs = length optionsData).
Proof.
  intros Hfuel Ht.
  assert (Hlen : (length (st_preserveOriginal (loopStart remainder0 percentages)) <= fuel)%nat).
  { simpl. by rewrite preserveOriginalOf_length. }
  split; [by apply whileLoop_exits|].
  split; [apply whileLoop_enough; [done|simpl; lia]|].
  split; [apply distribute_indices|].
  split.
  - exists (readBack (distribute remainder0 percentages) (length percentages)).
    split; [apply arrayToList_full, distribute_indices|apply readBack_length].
  - exists (resultOf toFixed2Pct optionsData).
    split; [by apply preprocess_shape|apply resultOf_length].
Qed.

(** 40.00 twice and 6.67 three times round to 101; corrected to 40.00 and
    6.22 they round to 98.  The group of three is too large for the two
    points left and the group of two has no remainder: the budget stays at
    two until no object is left. *)
Example preprocess_6_6_1_1_1 :
  correctOvershoot (rawPercentages toFixed2HalfUp (ofCounts [6; 6; 1; 1; 1]%N))
  = ([4000; 4000; 622; 622; 622], 98)
  /\ st_remainder (whileLoop 5 (loopStart 2 [4000; 4000; 622; 622; 622])) = 2
  /\ preprocessPercentages_ toFixed2HalfUp (ofCounts [6; 6; 1; 1; 1]%N)
     = [Int 40; Int 40; Int 6; Int 6; Int 6].
Proof. vm_compute. done. Qed.

Lemma distribution_terminates_and_fills_witness :
  (length [4000; 4000; 622; 622; 622] <= 5)%nat
  /\ (0 < totalResponseCountOf (ofCounts [6; 6; 1; 1; 1]%N))%N
  /\ loopCond (whileLoop 5 (loopStart 2 [4000; 4000; 622; 622; 622])) = false
  /\ (distribute 2 [4000; 4000; 622; 622; 622]).*1 ≡ₚ seq 0 5
  /\ exists zs : list Z,
       preprocessPercentages_ toFixed2HalfUp (ofCounts [6; 6; 1; 1; 1]%N) = Int <$> zs
       /\ length zs = 5%nat.
Proof.
  split; [simpl; lia|].
  split; [reflexivity|].
  destruct (distribution_terminates_and_fills toFixed2HalfUp
              (ofCounts [6; 6; 1; 1; 1]%N) 2 [4000; 4000; 622; 622; 622] 5)
    as (Hexit & _ & Hidx & _ & Hres).
  - simpl. lia.
  - reflexivity.
  - split; [exact Hexit|]. split; [exact Hidx|]. exact Hres.
Defined.

End Apportionment.

(** ** What the handlers do *)

Module LifecycleFacts.
Import Lifecycle LifecycleNotions.

Ltac js_unfold :=
  unfold handle, handleTap_, handleOptionSelection_, settle, runCatches, runThens, runThen,
    onSelectionFulfilled, onSelectionRejected, layoutCallback, retrieveInteractiveData_,
    executeInteractiveRequest_, handleSuccessfulDataRetrieval_, devAssert, devError,
    triggerAnalytics_, mutateElement, when, bind, ret, throw, get, modify,
    addEffect, setOptionsData, setHasUserSelection, setBackendDataPromise, setReactions,
    assignBackendDataPromise, setSuperseded, settleSuperseded in *.

Lemma forEach_retrieval (data l : list InteractiveOptionType) (index : nat)
      (this : Component) :
  forEachFrom index l
    (fun response index =>
       when (selectedByUser response)
            (modify (setHasUserSelection true) ;;
             mutateElement (RetrievalMutation data index))) this
  = (Normal tt,
     {| hasEndpoint := hasEndpoint this; endpointIsHttp := endpointIsHttp this;
        numOptions := numOptions this; devAsserts := devAsserts this;
        hasUserSelection_ := hasUserSelection_ this || existsb selectedByUser l;
        optionsData_ := optionsData_ this;
        backendDataPromise_ := backendDataPromise_ this;
        reactions := reactions this;
        superseded := superseded this;
        effects := effects this ++ retrievalMutations data index l |}).
Proof.
  revert index this. induction l as [|response l IH]; intros index this.
  - destruct this. simpl. unfold ret. by rewrite orb_false_r, app_nil_r.
  - simpl. unfold bind at 1.
    destruct (selectedByUser response) eqn:Hsel; js_unfold; simpl; rewrite IH; simpl.
    + by rewrite orb_true_r, <- !app_assoc.
    + destruct this; simpl. done.
Qed.

Lemma updateComponentOnDataRetrieval_spec (data : list InteractiveOptionType)
      (this : Component) :
  updateComponentOnDataRetrieval_ data this
  = (Normal tt,
     {| hasEndpoint := hasEndpoint this; endpointIsHttp := endpointIsHttp this;
        numOptions := numOptions this; devAsserts := devAsserts this;
        hasUserSelection_ := hasUserSelection_ this || existsb selectedByUser data;
        optionsData_ := Some data;
        backendDataPromise_ := backendDataPromise_ this;
        reactions := reactions this;
        superseded := superseded this;
        effects := effects this ++ retrievalMutations data 0 data |}).
Proof.
  unfold updateComponentOnDataRetrieval_, forEach, bind at 1, modify at 1.
  by rewrite forEach_retrieval.
Qed.

Lemma onSelectionFulfilled_selected (optionEl : nat) (this : Component) :
  hasUserSelection_ this = true -> onSelectionFulfilled optionEl this = (Normal tt, this).
Proof. intros Hsel. unfold onSelectionFulfilled, bind, get. by rewrite Hsel. Qed.

(** Once a selection is recorded, registered [then] callbacks do nothing. *)
Lemma runThens_selected (registered : list nat) (this : Component) :
  hasUserSelection_ this = true -> runThens registered this = (Normal [], this).
Proof.
  intros Hsel. induction registered as [|optionEl rest IH]; [done|].
  simpl. unfold bind at 1. unfold runThen, onSelectionFulfilled, bind at 1, get at 1.
  rewrite Hsel. unfold ret at 1. unfold bind at 1. rewrite IH. done.
Qed.

Lemma handleTap_selected (target : option nat) (this : Component) :
  hasUserSelection_ this = true -> handleTap_ target this = (Normal tt, this).
Proof.
  intros Hsel. unfold handleTap_, bind, get. by rewrite Hsel.
Qed.

Lemma runCatches_spec (failed : list nat) (this : Component) :
  runCatches failed this
  = (Normal tt,
     {| hasEndpoint := hasEndpoint this; endpointIsHttp := endpointIsHttp this;
        numOptions := numOptions this; devAsserts := devAsserts this;
        hasUserSelection_ :=
          hasUserSelection_ this || negb (bool_decide (failed = []));
        optionsData_ := optionsData_ this;
        backendDataPromise_ := backendDataPromise_ this;
        reactions := reactions this;
        superseded := superseded this;
        effects := effects this ++ fallbackEffects failed |}).
Proof.
  revert this. induction failed as [|optionEl rest IH]; intros this.
  - destruct this. simpl. unfold ret. by rewrite orb_false_r, app_nil_r.
  - simpl. unfold bind at 1. js_unfold. simpl. fold runCatches. rewrite IH. simpl.
    by rewrite orb_true_r, <- !app_assoc.
Qed.

Lemma onSelectionFulfilled_spec (optionEl : nat) (this : Component) :
  hasUserSelection_ this = false ->
  onSelectionFulfilled optionEl this
  = match selectedData this optionEl with
    | Some data' =>
        (Normal tt,
         {| hasEndpoint := hasEndpoint this; endpointIsHttp := endpointIsHttp this;
            numOptions := numOptions this; devAsserts := devAsserts this;
            hasUserSelection_ := true;
            optionsData_ := data';
            backendDataPromise_ := backendDataPromise_ this;
            reactions := reactions this;
            superseded := superseded this;
            effects := effects this ++ selectionEffects this optionEl |})
    | None =>
        (Throw,
         {| hasEndpoint := hasEndpoint this; endpointIsHttp := endpointIsHttp this;
            numOptions := numOptions this; devAsserts := devAsserts this;
            hasUserSelection_ := true;
            optionsData_ := optionsData_ this;
            backendDataPromise_ := backendDataPromise_ this;
            reactions := reactions this;
            superseded := superseded this;
            effects := effects this ++ [TriggerAnalytics optionEl] |})
    end.
Proof.
  intros Hsel. destruct this as [ep http n dev sel data pr rs old eff]. simpl in Hsel. subst sel.
  unfold selectedData, selectionEffects. simpl.
  destruct data as [data|]; [destruct (data !! optionEl) as [e|] eqn:He|];
    js_unfold; simpl; rewrite ?He; simpl; try done;
    destruct ep, http; simpl; by rewrite <- ?app_assoc.
Qed.

Lemma onSelectionFulfilled_locks (optionEl : nat) (this : Component) :
  hasUserSelection_ (onSelectionFulfilled optionEl this).2 = true.
Proof.
  destruct (hasUserSelection_ this) eqn:Hsel.
  - unfold onSelectionFulfilled, bind, get. by rewrite Hsel.
  - rewrite onSelectionFulfilled_spec by done. by destruct (selectedData this optionEl).
Qed.

(** Of several registered options only the first is served. *)
Lemma runThens_cons (optionEl : nat) (rest : list nat) (this : Component) :
  runThens (optionEl :: rest) this
  = match onSelectionFulfilled optionEl this with
    | (Normal _, this') => (Normal [], this')
    | (Throw, this') => (Normal [optionEl], this')
    end.
Proof.
  pose proof (onSelectionFulfilled_locks optionEl this) as Hlock.
  simpl. unfold bind at 1, runThen.
  destruct (onSelectionFulfilled optionEl this) as [[[]|] this'] eqn:E; simpl in Hlock;
    unfold bind at 1; rewrite (runThens_selected rest this' Hlock); done.
Qed.

(** *** Selection is never undone *)

Lemma runThens_keeps_selection (registered : list nat) (this : Component) :
  hasUserSelection_ this = true -> hasUserSelection_ (runThens registered this).2 = true.
Proof. intros Hsel. by rewrite runThens_selected. Qed.

Lemma settle_keeps_selection (fulfilled : bool) (this : Component) :
  hasUserSelection_ this = true -> hasUserSelection_ (settle fulfilled this).2 = true.
Proof.
  intros Hsel. unfold settle, bind, get, modify. destruct fulfilled.
  - rewrite runThens_selected by done. rewrite runCatches_spec. simpl. by rewrite Hsel.
  - rewrite runCatches_spec. simpl. by rewrite Hsel.
Qed.

Lemma handleSuccessfulDataRetrieval_keeps_selection (response : Response) (this : Component) :
  hasUserSelection_ this = true ->
  hasUserSelection_ (handleSuccessfulDataRetrieval_ response this).2 = true.
Proof.
  intros Hsel. unfold handleSuccessfulDataRetrieval_.
  destruct (optionsOf response) as [entries|].
  - unfold bind, get. rewrite updateComponentOnDataRetrieval_spec. simpl. by rewrite Hsel.
  - js_unfold. destruct (devAsserts this && negb (hasOptionsField response)); done.
Qed.

(** [layoutCallback] starts the retrieval where the endpoint allows it and
    puts the promise in place, whatever the field held. *)
Lemma layoutCallback_spec (this : Component) :
  layoutCallback this
  = (Normal tt,
     {| hasEndpoint := hasEndpoint this; endpointIsHttp := endpointIsHttp this;
        numOptions := numOptions this; devAsserts := devAsserts this;
        hasUserSelection_ := hasUserSelection_ this;
        optionsData_ := optionsData_ this;
        backendDataPromise_ := layoutPromise this;
        reactions := [];
        superseded := supersededAtLayout this;
        effects := effects this ++ layoutEffects this |}).
Proof.
  unfold layoutCallback, retrieveInteractiveData_, executeInteractiveRequest_,
    bind, get, modify, ret, layoutPromise, supersededAtLayout, layoutEffects,
    assignBackendDataPromise.
  destruct this as [ep http n dev sel data pr rs old eff].
  destruct ep, http, pr; cbn; by rewrite ?app_nil_r.
Qed.

Lemma settleSuperseded_keeps_selection (fulfilled : bool) (registered : list nat)
      (this : Component) :
  hasUserSelection_ this = true ->
  hasUserSelection_ (settleSuperseded fulfilled registered this).2 = true.
Proof.
  intros Hsel. unfold settleSuperseded, bind. destruct fulfilled.
  - rewrite runThens_selected by done. rewrite runCatches_spec. simpl. by rewrite Hsel.
  - rewrite runCatches_spec. simpl. by rewrite Hsel.
Qed.

Lemma step_keeps_selection (this : Component) (e : Event) :
  hasUserSelection_ this = true -> hasUserSelection_ (step this e) = true.
Proof.
  intros Hsel. unfold step.
  destruct e as [|target|response| |position response|position]; simpl.
  - by rewrite layoutCallback_spec.
  - by rewrite handleTap_selected.
  - unfold bind, get. destruct (backendDataPromise_ this); try done.
    pose proof (handleSuccessfulDataRetrieval_keeps_selection response this Hsel) as H1.
    destruct (handleSuccessfulDataRetrieval_ response this) as [[[]|] this'];
      by apply settle_keeps_selection.
  - unfold bind, get. destruct (backendDataPromise_ this); try done.
    by apply settle_keeps_selection.
  - unfold bind at 1, get at 1. destruct (superseded this !! position); [|done].
    unfold bind at 1, modify at 1.
    set (this0 := setSuperseded _ this).
    pose proof (handleSuccessfulDataRetrieval_keeps_selection response this0 Hsel) as H1.
    destruct (handleSuccessfulDataRetrieval_ response this0) as [[[]|] this'].
    + by apply (settleSuperseded_keeps_selection true).
    + by apply (settleSuperseded_keeps_selection false).
  - unfold bind at 1, get at 1. destruct (superseded this !! position); [|done].
    unfold bind at 1, modify at 1.
    by apply (settleSuperseded_keeps_selection false).
Qed.

Lemma run_keeps_selection (events : list Event) (this : Component) :
  hasUserSelection_ this = true -> hasUserSelection_ (run events this) = true.
Proof.
  revert this. induction events as [|e events IH]; intros this Hsel; [done|].
  simpl. apply IH. by apply step_keeps_selection.
Qed.

Lemma settle_no_reactions (fulfilled : bool) (this : Component) :
  reactions this = [] ->
  settle fulfilled this
  = (Normal tt,
     setBackendDataPromise (if fulfilled then Fulfilled else Rejected)
                           (setReactions [] this)).
Proof.
  intros Hr. unfold settle, bind at 1, get at 1. rewrite Hr.
  destruct fulfilled; destruct this; cbn; by rewrite ?app_nil_r, ?orb_false_r.
Qed.

(** *** A retrieval that completes while one tap is waiting *)

Lemma step_retrieved_waiting (this : Component) (optionEl : nat)
      (entries : list InteractiveOptionType) :
  backendDataPromise_ this = Pending ->
  reactions this = [optionEl] ->
  step this (Retrieved (ResponseObject (OptionsArray entries)))
  = match onSelectionFulfilled optionEl
            (retrievedState this (take (numOptions this) entries)) with
    | (Normal _, this') => this'
    | (Throw, this') => (runCatches [optionEl] this').2
    end.
Proof.
  intros Hp Hr. unfold step. cbn [handle]. unfold bind at 1, get at 1. rewrite Hp.
  unfold handleSuccessfulDataRetrieval_. cbn [optionsOf].
  unfold bind at 1, get at 1. rewrite updateComponentOnDataRetrieval_spec.
  unfold settle, bind at 1, get at 1, bind at 1, modify at 1, bind at 1, modify at 1.
  cbn [reactions setReactions setBackendDataPromise hasEndpoint endpointIsHttp numOptions
       devAsserts hasUserSelection_ optionsData_ backendDataPromise_ effects].
  rewrite Hr. unfold bind at 1. rewrite runThens_cons.
  fold (retrievedState this (take (numOptions this) entries)).
  destruct (onSelectionFulfilled optionEl _) as [[[]|] this']; [|done].
  by destruct this'.
Qed.

End LifecycleFacts.

(** ** At most one selected entry *)

Module SingleSelection.
Import Lifecycle LifecycleNotions LifecycleFacts.

Lemma selectedCount_none (data : list InteractiveOptionType) :
  existsb selectedByUser data = false -> selectedCount (Some data) = 0%nat.
Proof.
  unfold selectedCount. induction data as [|e data IH]; [done|].
  cbn [existsb]. intros H. apply orb_false_iff in H as [He Hd].
  rewrite filter_cons. destruct (decide (selectedByUser e = true)); [congruence|].
  by apply IH.
Qed.

Lemma selectedCount_insert (data : list InteractiveOptionType) (i : nat)
      (e : InteractiveOptionType) :
  selectedCount (Some data) = 0%nat ->
  (selectedCount (Some (<[i := countSelection e]> data)) <= 1)%nat.
Proof.
  unfold selectedCount. revert i. induction data as [|x data IH]; intros i H; [simpl; lia|].
  rewrite filter_cons in H.
  destruct (decide (selectedByUser x = true)) as [Hx|Hx]; [simpl in H; lia|].
  destruct i as [|i]; cbn [list_insert insert].
  - rewrite filter_cons. rewrite decide_True by done. cbn [length]. rewrite H. lia.
  - rewrite filter_cons. rewrite decide_False by done. by apply IH.
Qed.

Lemma good_frame (n : nat) (this this' : Component) :
  numOptions this' = numOptions this ->
  optionsData_ this' = optionsData_ this ->
  (hasUserSelection_ this' = false -> hasUserSelection_ this = false) ->
  good n this -> good n this'.
Proof.
  intros Hn Hd Hs (Hnum & Hle & Hzero). unfold good, singleSelection.
  rewrite Hn, Hd. split; [done|]. split; [done|]. intros Hf. apply Hzero. by apply Hs.
Qed.

Lemma good_runCatches (n : nat) (failed : list nat) (this : Component) :
  good n this -> good n (runCatches failed this).2.
Proof.
  rewrite runCatches_spec. apply good_frame; simpl; try done.
  intros H. by apply orb_false_iff in H as [? _].
Qed.

Lemma good_onSelectionFulfilled (n : nat) (optionEl : nat) (this : Component) :
  good n this -> good n (onSelectionFulfilled optionEl this).2.
Proof.
  intros Hg. destruct (hasUserSelection_ this) eqn:Hsel.
  - unfold onSelectionFulfilled, bind, get. by rewrite Hsel.
  - rewrite onSelectionFulfilled_spec by done.
    destruct Hg as (Hnum & Hle & Hzero). specialize (Hzero Hsel).
    unfold selectedData.
    destruct (optionsData_ this) as [data|] eqn:Hd;
      [destruct (data !! optionEl) as [e|]|]; unfold good, singleSelection; simpl;
      rewrite ?Hd; (split; [done|]); (split; [|done]).
    + by apply selectedCount_insert.
    + simpl in Hle. lia.
    + lia.
Qed.

Lemma good_runThens (n : nat) (registered : list nat) (this : Component) :
  good n this -> good n (runThens registered this).2.
Proof.
  intros Hg. destruct registered as [|optionEl rest]; [done|].
  rewrite runThens_cons.
  pose proof (good_onSelectionFulfilled n optionEl this Hg) as H1.
  by destruct (onSelectionFulfilled optionEl this) as [[[]|] this'].
Qed.

Lemma good_settle (n : nat) (fulfilled : bool) (this : Component) :
  good n this -> good n (settle fulfilled this).2.
Proof.
  intros Hg. unfold settle, bind at 1, get at 1, bind at 1, modify at 1.
  destruct fulfilled; unfold bind at 1, modify at 1.
  - unfold bind at 1.
    set (this1 := setBackendDataPromise Fulfilled (setReactions [] this)).
    assert (H1 : good n this1) by (by apply (good_frame n this)).
    pose proof (good_runThens n (reactions this) this1 H1) as H2.
    destruct (runThens (reactions this) this1) as [[failed|] this2]; [|done].
    by apply good_runCatches.
  - apply good_runCatches. by apply (good_frame n this).
Qed.

Lemma good_handleSuccessfulDataRetrieval (n : nat) (response : Response) (this : Component) :
  good n this -> flagsAtMostOne n (Retrieved response) ->
  good n (handleSuccessfulDataRetrieval_ response this).2.
Proof.
  intros Hg Hw. unfold handleSuccessfulDataRetrieval_.
  destruct (optionsOf response) as [entries|] eqn:Ho.
  - destruct response as [|[| |entries']]; simpl in Ho; try done. simplify_eq.
    unfold bind, get. rewrite updateComponentOnDataRetrieval_spec.
    destruct Hg as (Hnum & _). rewrite Hnum.
    unfold good, singleSelection. cbn [snd numOptions optionsData_ hasUserSelection_].
    split; [done|]. split; [exact Hw|].
    intros H. apply orb_false_iff in H as [_ H]. by apply selectedCount_none.
  - js_unfold. destruct (devAsserts this && negb (hasOptionsField response)); [done|].
    by apply (good_frame n this).
Qed.

Lemma good_settleSuperseded (n : nat) (fulfilled : bool) (registered : list nat)
      (this : Component) :
  good n this -> good n (settleSuperseded fulfilled registered this).2.
Proof.
  intros Hg. unfold settleSuperseded. destruct fulfilled.
  - unfold bind at 1.
    pose proof (good_runThens n registered this Hg) as H2.
    destruct (runThens registered this) as [[failed|] this2]; [|done].
    by apply good_runCatches.
  - by apply good_runCatches.
Qed.

Lemma good_step (n : nat) (this : Component) (e : Event) :
  good n this -> flagsAtMostOne n e -> good n (step this e).
Proof.
  intros Hg Hw. unfold step.
  destruct e as [|target|response| |position response|position]; simpl.
  - rewrite layoutCallback_spec. by apply (good_frame n this).
  - unfold handleTap_, bind at 1, get at 1.
    destruct (hasUserSelection_ this); [done|].
    destruct target as [optionEl|]; [|done].
    unfold handleOptionSelection_, bind at 1, get at 1.
    destruct (backendDataPromise_ this).
    + done.
    + by apply (good_frame n this).
    + unfold bind.
      pose proof (good_runThens n [optionEl] this Hg) as H1.
      destruct (runThens [optionEl] this) as [[failed|] this1]; [|done].
      by apply good_runCatches.
    + by apply good_runCatches.
  - unfold bind, get. destruct (backendDataPromise_ this); try done.
    pose proof (good_handleSuccessfulDataRetrieval n response this Hg Hw) as H1.
    destruct (handleSuccessfulDataRetrieval_ response this) as [[[]|] this'];
      by apply good_settle.
  - unfold bind, get. destruct (backendDataPromise_ this); try done.
    by apply good_settle.
  - unfold bind at 1, get at 1. destruct (superseded this !! position); [|done].
    unfold bind at 1, modify at 1.
    set (this0 := setSuperseded _ this).
    assert (Hg0 : good n this0) by (by apply (good_frame n this)).
    pose proof (good_handleSuccessfulDataRetrieval n response this0 Hg0 Hw) as H1.
    destruct (handleSuccessfulDataRetrieval_ response this0) as [[[]|] this'].
    + by apply (good_settleSuperseded n true).
    + by apply (good_settleSuperseded n false).
  - unfold bind at 1, get at 1. destruct (superseded this !! position); [|done].
    unfold bind at 1, modify at 1.
    apply (good_settleSuperseded n false). by apply (good_frame n this).
Qed.

Lemma good_run (n : nat) (events : list Event) (this : Component) :
  good n this -> Forall (flagsAtMostOne n) events -> good n (run events this).
Proof.
  revert this. induction events as [|e events IH]; intros this Hg Hall; [done|].
  apply Forall_cons_1 in Hall as [He Hall]. simpl. apply IH; [|done].
  by apply good_step.
Qed.

End SingleSelection.

(** ** Properties of the response lifecycle *)

Module ResponseLifecycle.
Import Lifecycle LifecycleNotions LifecycleFacts SingleSelection.

(** C3, as claimed, fails: a tap on the first option while the retrieval is
    pending records no selection and requests no rendering; when the
    retrieval then reports the second option as selected, that entry is the
    one shown, the tapped entry is neither counted nor flagged and no
    analytics event is triggered for the tap. *)
Lemma tap_before_retrieval_is_deferred :
  let tapped := run [Layout; Tap (Some 0%nat)] twoOptions in
  let final := step tapped (Retrieved (ResponseObject (OptionsArray earlierAnswer))) in
  hasUserSelection_ tapped = false
  /\ effects tapped = [ExecuteRequest GET None]
  /\ hasUserSelection_ final = true
  /\ optionsData_ final = Some earlierAnswer
  /\ effects final
     = [ExecuteRequest GET None; MutateElement (RetrievalMutation earlierAnswer 1)].
Proof. vm_compute. done. Qed.

(** C3, amended: a tap while the retrieval is pending only registers the
    tapped option: no selection is recorded, no data changes and nothing
    leaves the component.  When the retrieval then delivers entries of which
    one is flagged as selected, the selection is recorded for the delivered
    data as it is, with only the rendering requests of the retrieval and no
    analytics event; when no delivered entry is flagged, the registered tap
    is served then: the selection is recorded, the analytics event is
    triggered, and the tapped entry is counted and flagged. *)
Theorem tap_waits_for_retrieval (this : Component) (optionEl : nat) :
  hasUserSelection_ this = false ->
  backendDataPromise_ this = Pending ->
  reactions this = [] ->
  let tapped := step this (Tap (Some optionEl)) in
  tapped = setReactions [optionEl] this
  /\ forall entries : list InteractiveOptionType,
      let data := take (numOptions this) entries in
      let final := step tapped (Retrieved (ResponseObject (OptionsArray entries))) in
      (existsb selectedByUser data = true ->
         hasUserSelection_ final = true
         /\ optionsData_ final = Some data
         /\ effects final = effects this ++ retrievalMutations data 0 data)
      /\ (existsb selectedByUser data = false ->
            hasUserSelection_ final = true
            /\ TriggerAnalytics optionEl ∈ effects final
            /\ forall e, data !! optionEl = Some e ->
                 optionsData_ final = Some (<[optionEl := countSelection e]> data)).
Proof.
  intros Hsel Hp Hr.
  assert (Ht : step this (Tap (Some optionEl)) = setReactions [optionEl] this).
  { destruct this as [ep http n dev sel data pr rs old eff].
    simpl in Hsel, Hp, Hr. subst. reflexivity. }
  cbv zeta. rewrite Ht. split; [done|]. intros entries.
  rewrite (step_retrieved_waiting _ optionEl) by done.
  cbn [setReactions numOptions].
  set (data := take (numOptions this) entries).
  set (stored := retrievedState _ data).
  assert (Hst : hasUserSelection_ stored = existsb selectedByUser data).
  { unfold stored. cbn. by rewrite Hsel. }
  split.
  - intros Hex. rewrite onSelectionFulfilled_selected by (by rewrite Hst).
    split; [by rewrite Hst|]. done.
  - intros Hex. rewrite onSelectionFulfilled_spec by (by rewrite Hst).
    unfold selectedData. cbn [stored retrievedState optionsData_].
    destruct (data !! optionEl) as [e|] eqn:He.
    + cbn. split; [done|]. split; [|by intros ? [= ->]].
      rewrite elem_of_app. right.
      unfold selectionEffects. cbn. apply elem_of_cons. by left.
    + rewrite runCatches_spec. cbn. split; [done|]. split; [|done].
      rewrite elem_of_app. left. rewrite elem_of_app. right. apply elem_of_cons. by left.
Qed.

Lemma tap_waits_for_retrieval_witness :
  let this := step twoOptions Layout in
  hasUserSelection_ this = false
  /\ backendDataPromise_ this = Pending
  /\ reactions this = []
  /\ step this (Tap (Some 0%nat)) = setReactions [0%nat] this.
Proof.
  cbv zeta.
  split; [reflexivity|]. split; [reflexivity|]. split; [reflexivity|].
  exact (proj1 (tap_waits_for_retrieval (step twoOptions Layout) 0
                  eq_refl eq_refl eq_refl)).
Defined.

(** C4: once a selection is recorded, a tap, on whichever option or
    outside all of them, leaves the whole component as it is: counts and
    flags are unchanged and no call is made, in particular no analytics
    event is triggered; likewise for any number of taps. *)
Theorem tap_after_selection_changes_nothing
        (this : Component) (target : option nat) (targets : list (option nat)) :
  hasUserSelection_ this = true ->
  step this (Tap target) = this
  /\ optionsData_ (step this (Tap target)) = optionsData_ this
  /\ effects (step this (Tap target)) = effects this
  /\ run (Tap <$> targets) this = this.
Proof.
  intros Hsel.
  assert (H1 : forall t, step this (Tap t) = this).
  { intros t. unfold step. cbn [handle]. by rewrite handleTap_selected. }
  rewrite H1. repeat split; try done.
  induction targets as [|t targets IH]; [done|].
  cbn. change (fold_left step (Tap <$> targets) (step this (Tap t)) = this).
  rewrite H1. exact IH.
Qed.

Lemma tap_after_selection_changes_nothing_witness :
  let this := run [Layout; Tap (Some 0%nat)] (construct false false 2 false) in
  hasUserSelection_ this = true
  /\ step this (Tap (Some 1%nat)) = this.
Proof.
  cbv zeta. split; [reflexivity|].
  exact (proj1 (tap_after_selection_changes_nothing
                  (run [Layout; Tap (Some 0%nat)] (construct false false 2 false))
                  (Some 1%nat) [] eq_refl)).
Defined.

(** C6: a response without usable options (no response at all, no
    [options] field, or a field that holds nothing) changes nothing in the
    handler: the selection state and the aggregate data stay as they were and
    no rendering is requested; at most the error is logged.  As an event on
    a component with no tap waiting, the same holds for the whole step. *)
Theorem response_without_options_changes_nothing
        (this : Component) (response : Response) :
  optionsOf response = None ->
  let handled := (handleSuccessfulDataRetrieval_ response this).2 in
  (handled = this \/ handled = addEffect DevError this)
  /\ hasUserSelection_ handled = hasUserSelection_ this
  /\ optionsData_ handled = optionsData_ this
  /\ (forall callback, MutateElement callback ∈ effects handled ->
                       MutateElement callback ∈ effects this)
  /\ (reactions this = [] ->
      let after := step this (Retrieved response) in
      hasUserSelection_ after = hasUserSelection_ this
      /\ optionsData_ after = optionsData_ this
      /\ (forall callback, MutateElement callback ∈ effects after ->
                           MutateElement callback ∈ effects this)).
Proof.
  intros Ho. cbv zeta.
  assert (Hh : (handleSuccessfulDataRetrieval_ response this).2 = this
               /\ (handleSuccessfulDataRetrieval_ response this).1 = Throw
               \/ (handleSuccessfulDataRetrieval_ response this).2 = addEffect DevError this
                  /\ (handleSuccessfulDataRetrieval_ response this).1 = Normal tt).
  { unfold handleSuccessfulDataRetrieval_. rewrite Ho.
    unfold devAssert, devError, bind, get, modify, throw, ret.
    destruct (devAsserts this && negb (hasOptionsField response)); [by left|by right]. }
  assert (Hm : forall callback, MutateElement callback ∈ effects (addEffect DevError this) ->
                                MutateElement callback ∈ effects this).
  { intros callback Hin. cbn in Hin. apply elem_of_app in Hin as [Hin|Hin]; [done|].
    apply elem_of_cons in Hin as [Hin|Hin]; [done|]. by apply elem_of_nil in Hin. }
  split; [destruct Hh as [[-> _]|[-> _]]; tauto|].
  split; [by destruct Hh as [[-> _]|[-> _]]|].
  split; [by destruct Hh as [[-> _]|[-> _]]|].
  split; [destruct Hh as [[-> _]|[-> _]]; [done|exact Hm]|].
  intros Hr. remember (step this (Retrieved response)) as after eqn:Ha.
  unfold step in Ha. cbn [handle] in Ha. unfold bind at 1, get at 1 in Ha.
  destruct (backendDataPromise_ this); try (by subst after).
  destruct (handleSuccessfulDataRetrieval_ response this) as [c handled].
  cbn [fst snd] in Hh.
  destruct Hh as [[-> ->]|[-> ->]]; rewrite settle_no_reactions in Ha by done;
    subst after; cbn [snd setBackendDataPromise setReactions hasUserSelection_
                      optionsData_ effects]; [done|].
  split; [done|]. split; [done|]. exact Hm.
Qed.

Lemma response_without_options_changes_nothing_witness :
  let this := step twoOptions Layout in
  optionsOf NoResponse = None
  /\ hasUserSelection_ (handleSuccessfulDataRetrieval_ NoResponse this).2 = false
  /\ optionsData_ (handleSuccessfulDataRetrieval_ NoResponse this).2 = None.
Proof.
  cbv zeta. split; [reflexivity|].
  destruct (response_without_options_changes_nothing (step twoOptions Layout) NoResponse eq_refl)
    as (_ & Hsel & Hdata & _).
  split; [exact Hsel|exact Hdata].
Defined.

(** C7: of a response with more entries than there are options, exactly
    the first entries, as many as there are options, become the aggregate
    data; no entry beyond them is kept. *)
Theorem surplus_entries_discarded
        (this : Component) (entries : list InteractiveOptionType) :
  (numOptions this < length entries)%nat ->
  let handled :=
    (handleSuccessfulDataRetrieval_ (ResponseObject (OptionsArray entries)) this).2 in
  exists data : list InteractiveOptionType,
    optionsData_ handled = Some data
    /\ data = take (numOptions this) entries
    /\ length data = numOptions this
    /\ (forall i, (i < numOptions this)%nat -> data !! i = entries !! i)
    /\ (forall i, (numOptions this <= i)%nat -> data !! i = None).
Proof.
  intros Hlen. cbv zeta. exists (take (numOptions this) entries).
  unfold handleSuccessfulDataRetrieval_. cbn [optionsOf].
  unfold bind, get. rewrite updateComponentOnDataRetrieval_spec. cbn [snd optionsData_].
  split; [done|]. split; [done|].
  split; [rewrite length_take; lia|].
  split.
  - intros i Hi. by apply lookup_take_lt.
  - intros i Hi. apply lookup_take_ge. done.
Qed.

Lemma surplus_entries_discarded_witness :
  (numOptions (construct true true 1 false) < length earlierAnswer)%nat
  /\ exists data : list InteractiveOptionType,
       optionsData_
         (handleSuccessfulDataRetrieval_ (ResponseObject (OptionsArray earlierAnswer))
                                         (construct true true 1 false)).2
       = Some data
       /\ data = take 1 earlierAnswer.
Proof.
  split; [simpl; lia|].
  destruct (surplus_entries_discarded (construct true true 1 false) earlierAnswer)
    as (data & Hd & Ht & _).
  - simpl. lia.
  - exists data. split; [exact Hd|exact Ht].
Defined.

(** C8: with a rejected backend promise a tap on an option is served by
    the fallback: the analytics event is triggered, the selection is
    recorded, the post-selection update is requested, the aggregate data is
    left alone, and no later event takes the selection back.  The same holds
    when the tap comes first and the pending request fails afterwards.  An
    endpoint that is not http(s) leaves the promise rejected right after
    layout. *)
Theorem selection_survives_rejected_backend (this : Component) (optionEl : nat) :
  hasUserSelection_ this = false ->
  let served (after : Component) :=
    hasUserSelection_ after = true
    /\ effects after
       = effects this
         ++ [TriggerAnalytics optionEl; MutateElement (FallbackMutation optionEl)]
    /\ optionsData_ after = optionsData_ this
    /\ forall events, hasUserSelection_ (run events after) = true in
  (backendDataPromise_ this = Rejected -> served (step this (Tap (Some optionEl))))
  /\ (backendDataPromise_ this = Pending -> reactions this = [] ->
      served (run [Tap (Some optionEl); RetrievalFailed] this))
  /\ (forall (options : nat) (dev : bool),
        backendDataPromise_ (step (construct true false options dev) Layout) = Rejected
        /\ hasUserSelection_ (step (construct true false options dev) Layout) = false).
Proof.
  intros Hsel served. split; [|split].
  - intros Hp. unfold step. cbn [handle]. unfold handleTap_, bind at 1, get at 1.
    rewrite Hsel. unfold handleOptionSelection_, bind at 1, get at 1. rewrite Hp.
    rewrite runCatches_spec. unfold served. cbn.
    split; [by rewrite orb_true_r|]. split; [done|]. split; [done|].
    intros events. apply run_keeps_selection. cbn. by rewrite orb_true_r.
  - intros Hp Hr. cbn [run fold_left].
    assert (Ht : step this (Tap (Some optionEl)) = setReactions [optionEl] this).
    { destruct this as [ep http n dev sel data pr rs old eff].
    simpl in Hsel, Hp, Hr. subst. reflexivity. }
    rewrite Ht. unfold step. cbn [handle]. unfold bind at 1, get at 1.
    cbn [setReactions backendDataPromise_]. rewrite Hp.
    unfold settle, bind at 1, get at 1, bind at 1, modify at 1, bind at 1, modify at 1.
    rewrite runCatches_spec. unfold served. cbn.
    split; [by rewrite orb_true_r|]. split; [done|]. split; [done|].
    intros events. apply run_keeps_selection. cbn. by rewrite orb_true_r.
  - intros options dev. by vm_compute.
Qed.

Lemma selection_survives_rejected_backend_witness :
  let this := step (construct true false 2 false) Layout in
  hasUserSelection_ this = false
  /\ backendDataPromise_ this = Rejected
  /\ hasUserSelection_ (step this (Tap (Some 1%nat))) = true
  /\ effects (step this (Tap (Some 1%nat)))
     = [TriggerAnalytics 1; MutateElement (FallbackMutation 1)].
Proof.
  cbv zeta. split; [reflexivity|]. split; [reflexivity|].
  destruct (selection_survives_rejected_backend
              (step (construct true false 2 false) Layout) 1 eq_refl)
    as (Hrej & _ & _).
  destruct (Hrej eq_refl) as (Hs & He & _ & _).
  split; [exact Hs|exact He].
Defined.

(** C9, as claimed, fails: the retrieved entries are stored as they come;
    after layout and a retrieval whose payload flags two entries, two
    entries of the aggregate data are flagged. *)
Lemma two_selected_entries_reachable :
  selectedCount
    (optionsData_
       (run [Layout; Retrieved (ResponseObject (OptionsArray bothFlagged))] twoOptions))
  = 2%nat.
Proof. vm_compute. reflexivity. Qed.

(** C9, amended: as long as every retrieved payload flags at most one of
    the entries that are kept, every state reached from the constructed
    component by layout, taps and retrieval results has at most one entry
    of its aggregate data flagged as selected. *)
Theorem at_most_one_selected
        (endpoint http : bool) (options : nat) (dev : bool) (events : list Event) :
  Forall (flagsAtMostOne options) events ->
  (selectedCount (optionsData_ (run events (construct endpoint http options dev))) <= 1)%nat.
Proof.
  intros Hall.
  assert (Hg : good options (construct endpoint http options dev)).
  { unfold good, singleSelection. simpl. split; [done|]. split; [lia|done]. }
  by destruct (good_run options events _ Hg Hall) as (_ & Hle & _).
Qed.

Lemma at_most_one_selected_witness :
  Forall (flagsAtMostOne 2)
         [Layout; Tap (Some 0%nat);
          Retrieved (ResponseObject (OptionsArray earlierAnswer)); Tap (Some 0%nat)]
  /\ (selectedCount
        (optionsData_
           (run [Layout; Tap (Some 0%nat);
                 Retrieved (ResponseObject (OptionsArray earlierAnswer)); Tap (Some 0%nat)]
                twoOptions)) <= 1)%nat.
Proof.
  assert (H : Forall (flagsAtMostOne 2)
                [Layout; Tap (Some 0%nat);
                 Retrieved (ResponseObject (OptionsArray earlierAnswer)); Tap (Some 0%nat)]).
  { repeat constructor. }
  split; [exact H|].
  exact (at_most_one_selected true true 2 false _ H).
Defined.

End ResponseLifecycle.

(** ** More about the engine *)

Module EngineExtras.
Import Engine EngineNotions EngineExtraNotions EngineFacts LoopFacts EngineWhole.

Lemma roundedNear_body (ps : list Z) (st : LoopState) :
  roundedNear ps st -> loopCond st = true -> roundedNear ps (loopBody st).
Proof.
  intros (Hown & Hlog) Hc.
  destruct (loopCond_true st Hc) as (_ & h & t & E).
  rewrite (loopBody_cons st h t E). rewrite E in Hown.
  set (up := (_ <=? _) && _).
  assert (Hh : h ∈ h :: t) by (apply elem_of_cons; by left).
  split; simpl.
  - intros o Ho. apply list_elem_of_filter in Ho as [_ Ho]. by apply Hown.
  - intros i v Hin. apply elem_of_app in Hin as [Hin|Hin]; [|by apply Hlog].
    apply elem_of_reverse, list_elem_of_fmap in Hin as (o & Heq & Ho).
    apply list_elem_of_filter in Ho as [Hv Ho]. simplify_eq.
    destruct (Hown o Ho) as [Hp _]. destruct (Hown h Hh) as [_ Hr].
    exists (value o). split; [done|]. unfold nearFloor.
    destruct up eqn:Hup; [|left; lia].
    right. split; [done|]. apply andb_true_iff in Hup as [_ Hnz].
    rewrite Hv, <- Hr. lia.
Qed.

Lemma distribute_near (remainder0 : Z) (ps : list Z) (i : nat) (v : Z) :
  (i, v) ∈ distribute remainder0 ps -> exists p, ps !! i = Some p /\ nearFloor p v.
Proof.
  unfold distribute. rewrite forEach_arraySet.
  assert (HI : roundedNear ps (whileLoop (length (preserveOriginalOf ps))
                                         (loopStart remainder0 ps))).
  { apply whileLoop_invariant; [apply roundedNear_body|].
    split; simpl.
    - intros o Ho. unfold preserveOriginalOf in Ho.
      rewrite merge_sort_Permutation in Ho.
      apply elem_of_lookup_imap in Ho as (k & q & -> & Hq). done.
    - intros ? ? Hin. by apply elem_of_nil in Hin. }
  destruct HI as (Hown & Hlog). intros Hin.
  apply elem_of_app in Hin as [Hin|Hin]; [|by apply Hlog].
  apply elem_of_reverse, list_elem_of_fmap in Hin as (o & Heq & Ho). simplify_eq.
  destruct (Hown o Ho) as [Hp _]. exists (value o). split; [done|]. by left.
Qed.

Lemma nearFloor_round (p : Z) : nearFloor p (Math_round p).
Proof.
  unfold nearFloor, Math_round, Math_floor, fractionOf.
  Z.div_mod_to_equations. lia.
Qed.

Lemma nearFloor_adjusted (p v : Z) : nearFloor (overshootAdjust p) v -> nearFloor p v.
Proof.
  unfold nearFloor. rewrite overshootAdjust_floor.
  intros [->|[-> Hnz]]; [by left|]. right. split; [done|].
  intros Hz. apply Hnz.
  unfold overshootAdjust, toFixed2, fractionOf in *. Z.div_mod_to_equations. lia.
Qed.

(** Every returned entry is the printed percentage of its option rounded
    down or up. *)
Lemma result_near (f : N -> N -> Z) (od : list InteractiveOptionType)
      (i : nat) (e : InteractiveOptionType) :
  (0 < totalResponseCountOf od)%N -> od !! i = Some e ->
  exists z, resultOf f od !! i = Some z
            /\ nearFloor (f (totalCount e) (totalResponseCountOf od)) z.
Proof.
  intros Ht Hi. unfold resultOf.
  pose proof (correctOvershoot_length (rawPercentages f od)) as Hlen.
  rewrite rawPercentages_length in Hlen.
  assert (Hraw : rawPercentages f od !! i
                 = Some (f (totalCount e) (totalResponseCountOf od))).
  { unfold rawPercentages. to_fmap. by rewrite list_lookup_fmap, Hi. }
  set (p0 := f (totalCount e) (totalResponseCountOf od)) in *.
  assert (Hps : exists p, (correctOvershoot (rawPercentages f od)).1 !! i = Some p
                          /\ (forall v, nearFloor p v -> nearFloor p0 v)).
  { destruct (correctOvershoot_cases (rawPercentages f od)) as [[_ ->]|[_ ->]]; simpl.
    - exists p0. done.
    - exists (overshootAdjust p0). split; [by rewrite list_lookup_fmap, Hraw|].
      apply nearFloor_adjusted. }
  destruct Hps as (p & Hp & Hnear).
  set (ps := (correctOvershoot (rawPercentages f od)).1) in *.
  set (total := (correctOvershoot (rawPercentages f od)).2) in *.
  destruct (total =? 100).
  - exists (Math_round p). split; [by rewrite list_lookup_fmap, Hp|].
    apply Hnear, nearFloor_round.
  - pose proof (distribute_indices (100 - total) ps) as Hidx. rewrite Hlen in Hidx.
    apply lookup_lt_Some in Hi as Hilt.
    destruct (lookup_lt_is_Some_2 (readBack (distribute (100 - total) ps) (length od)) i)
      as [v Hv]; [by rewrite readBack_length|].
    exists v. split; [done|].
    apply (readBack_lookup _ _ _ _ Hidx) in Hv.
    destruct (distribute_near _ _ _ _ Hv) as (q & Hq & Hqv).
    rewrite Hp in Hq. simplify_eq. by apply Hnear.
Qed.

(** X1: whatever the counts (with a positive total) and however the
    quotients are printed, the entry returned for an option is its printed
    percentage rounded down to an integer, or that plus one; a printed
    percentage that is whole is never rounded up. *)
Theorem entry_is_percentage_rounded_down_or_up
        (toFixed2Pct : N -> N -> Z) (optionsData : list InteractiveOptionType)
        (i : nat) (e : InteractiveOptionType) :
  (0 < totalResponseCountOf optionsData)%N ->
  optionsData !! i = Some e ->
  exists z : Z,
    preprocessPercentages_ toFixed2Pct optionsData !! i = Some (Int z)
    /\ (z = Math_floor (toFixed2Pct (totalCount e) (totalResponseCountOf optionsData))
        \/ (z = Math_floor (toFixed2Pct (totalCount e) (totalResponseCountOf optionsData)) + 1
            /\ fractionOf (toFixed2Pct (totalCount e) (totalResponseCountOf optionsData)) <> 0)).
Proof.
  intros Ht Hi. destruct (result_near toFixed2Pct optionsData i e Ht Hi) as (z & Hz & Hn).
  exists z. split; [|exact Hn].
  by rewrite preprocess_shape, list_lookup_fmap, Hz.
Qed.

Lemma entry_is_percentage_rounded_down_or_up_witness :
  (0 < totalResponseCountOf (ofCounts [408; 408; 408; 406; 185; 185]%N))%N
  /\ ofCounts [408; 408; 408; 406; 185; 185]%N !! 3%nat
     = Some {| optionIndex := 3; totalCount := 406; selectedByUser := false |}
  /\ exists z : Z,
       preprocessPercentages_ toFixed2HalfUp (ofCounts [408; 408; 408; 406; 185; 185]%N)
         !! 3%nat = Some (Int z)
       /\ (z = Math_floor (toFixed2HalfUp 406 2000)
           \/ (z = Math_floor (toFixed2HalfUp 406 2000) + 1
               /\ fractionOf (toFixed2HalfUp 406 2000) <> 0)).
Proof.
  split; [reflexivity|]. split; [reflexivity|].
  exact (entry_is_percentage_rounded_down_or_up toFixed2HalfUp
           (ofCounts [408; 408; 408; 406; 185; 185]%N) 3
           {| optionIndex := 3; totalCount := 406; selectedByUser := false |}
           eq_refl eq_refl).
Defined.

Lemma nearest_zero (f : N -> N -> Z) (t : N) :
  nearestHundredth f -> (0 < t)%N -> f 0%N t = 0.
Proof.
  intros Hn Ht. pose proof (Hn 0%N t Ht ltac:(lia)) as H0. nia.
Qed.

(** X2: an option without any response is shown as 0, whatever the other
    counts are (their total being positive). *)
Theorem option_without_responses_shows_zero
        (toFixed2Pct : N -> N -> Z) (optionsData : list InteractiveOptionType)
        (i : nat) (e : InteractiveOptionType) :
  nearestHundredth toFixed2Pct ->
  (0 < totalResponseCountOf optionsData)%N ->
  optionsData !! i = Some e ->
  totalCount e = 0%N ->
  preprocessPercentages_ toFixed2Pct optionsData !! i = Some (Int 0).
Proof.
  intros Hn Ht Hi Hc.
  destruct (result_near toFixed2Pct optionsData i e Ht Hi) as (z & Hz & Hnear).
  rewrite Hc, (nearest_zero toFixed2Pct _ Hn Ht) in Hnear.
  rewrite preprocess_shape, list_lookup_fmap, Hz by done. simpl.
  destruct Hnear as [->|[_ Hnz]]; [done|]. by destruct Hnz.
Qed.

Lemma option_without_responses_shows_zero_witness :
  nearestHundredth toFixed2HalfUp
  /\ (0 < totalResponseCountOf (ofCounts [2; 0; 5]%N))%N
  /\ preprocessPercentages_ toFixed2HalfUp (ofCounts [2; 0; 5]%N) !! 1%nat = Some (Int 0).
Proof.
  split; [exact toFixed2HalfUp_nearest|]. split; [reflexivity|].
  exact (option_without_responses_shows_zero toFixed2HalfUp (ofCounts [2; 0; 5]%N) 1
           {| optionIndex := 1; totalCount := 0; selectedByUser := false |}
           toFixed2HalfUp_nearest eq_refl eq_refl eq_refl).
Defined.

(** *** Percentages that are whole numbers *)

Lemma nearest_whole (f : N -> N -> Z) (c t : N) (m : Z) :
  nearestHundredth f -> (0 < t)%N -> (c <= t)%N ->
  100 * Z.of_N c = Z.of_N t * m -> f c t = 100 * m.
Proof.
  intros Hn Ht Hc Hm. pose proof (Hn c t Ht Hc) as H1. nia.
Qed.

Lemma whole_sum (t : N) (od : list InteractiveOptionType) :
  (0 < t)%N ->
  (forall e, e ∈ od -> (Z.of_N t | 100 * Z.of_N (totalCount e))) ->
  Z.of_N t * sumZ ((fun e => 100 * Z.of_N (totalCount e) / Z.of_N t) <$> od)
  = 100 * Z.of_N (countSum od).
Proof.
  intros Ht. induction od as [|e od IH]; intros Hdiv; [simpl; lia|].
  rewrite fmap_cons. change (sumZ (?x :: ?k)) with (x + sumZ k). simpl countSum.
  assert (IH' := IH (fun x Hx => Hdiv x ltac:(apply elem_of_cons; by right))).
  destruct (Hdiv e ltac:(apply elem_of_cons; by left)) as [q Hq].
  rewrite Hq, Z.div_mul by lia. lia.
Qed.

Lemma round_whole (m : Z) : Math_round (100 * m) = m.
Proof. unfold Math_round. Z.div_mod_to_equations. lia. Qed.

(** X3: when every count makes a whole percentage of the total, the engine
    returns exactly these percentages, and they add up to 100. *)
Theorem whole_percentages_returned_as_they_are
        (toFixed2Pct : N -> N -> Z) (optionsData : list InteractiveOptionType) :
  nearestHundredth toFixed2Pct ->
  (0 < totalResponseCountOf optionsData)%N ->
  (forall e, e ∈ optionsData ->
     (Z.of_N (totalResponseCountOf optionsData) | 100 * Z.of_N (totalCount e))) ->
  let exact :=
    (fun e => 100 * Z.of_N (totalCount e) / Z.of_N (totalResponseCountOf optionsData))
      <$> optionsData in
  preprocessPercentages_ toFixed2Pct optionsData = Int <$> exact
  /\ sumZ exact = 100.
Proof.
  intros Hn Ht Hdiv exact.
  set (t := totalResponseCountOf optionsData) in *.
  assert (Hsum : sumZ exact = 100).
  { pose proof (whole_sum t optionsData Ht Hdiv) as Hw.
    change (Z.of_N t * sumZ exact = 100 * Z.of_N (countSum optionsData)) in Hw.
    assert (Et : Z.of_N (countSum optionsData) = Z.of_N t)
      by (unfold t; by rewrite totalResponseCountOf_sum).
    rewrite Et in Hw. nia. }
  split; [|done].
  assert (Hraw : rawPercentages toFixed2Pct optionsData = (fun m => 100 * m) <$> exact).
  { unfold rawPercentages, exact. to_fmap. rewrite <- list_fmap_compose.
    apply list_fmap_ext. intros i e He. simpl.
    apply list_elem_of_lookup_2 in He.
    destruct (Hdiv e He) as [q Hq]. fold t in Hq |- *.
    rewrite Hq, Z.div_mul by lia.
    apply nearest_whole; [done|done| |lia].
    unfold t. rewrite totalResponseCountOf_sum. by apply count_le_sum. }
  assert (Hround : Math_round <$> rawPercentages toFixed2Pct optionsData = exact).
  { rewrite Hraw, <- list_fmap_compose. rewrite <- (list_fmap_id exact) at 2.
    apply list_fmap_ext. intros i m _. simpl. apply round_whole. }
  assert (Htot : roundedTotal (rawPercentages toFixed2Pct optionsData) = 100).
  { rewrite roundedTotal_sum. to_fmap. by rewrite Hround. }
  rewrite preprocess_shape by done. f_equal. unfold resultOf.
  destruct (correctOvershoot_cases (rawPercentages toFixed2Pct optionsData))
    as [[_ ->]|[Hc _]]; [|lia].
  simpl. rewrite Htot. simpl. exact Hround.
Qed.

Lemma whole_percentages_returned_as_they_are_witness :
  nearestHundredth toFixed2HalfUp
  /\ (0 < totalResponseCountOf (ofCounts [3; 0; 9; 13]%N))%N
  /\ preprocessPercentages_ toFixed2HalfUp (ofCounts [3; 0; 9; 13]%N)
     = [Int 12; Int 0; Int 36; Int 52].
Proof.
  split; [exact toFixed2HalfUp_nearest|]. split; [reflexivity|].
  refine (proj1 (whole_percentages_returned_as_they_are toFixed2HalfUp
                   (ofCounts [3; 0; 9; 13]%N) toFixed2HalfUp_nearest eq_refl _)).
  intros e He. change (totalResponseCountOf (ofCounts [3; 0; 9; 13]%N)) with 25%N.
  unfold ofCounts in He. simpl in He.
  repeat (apply elem_of_cons in He as [->|He];
          [simpl; first [by exists 12 | by exists 0 | by exists 36 | by exists 52]|]).
  by apply elem_of_nil in He.
Defined.

(** *** How far the sum can stay below 100 *)

Section Shortfall.
Variable toFixed2Pct : N -> N -> Z.
Hypothesis toFixed2Pct_nearest : nearestHundredth toFixed2Pct.

Lemma floor_lower (c t : N) :
  (0 < t)%N -> (c <= t)%N ->
  20000 * Z.of_N c - 199 * Z.of_N t
  <= 200 * Z.of_N t * Math_floor (toFixed2Pct c t).
Proof.
  intros Ht Hc. pose proof (toFixed2Pct_nearest c t Ht Hc) as Hn.
  unfold Math_floor. set (k := toFixed2Pct c t) in *.
  assert (Hk : k - 99 <= 100 * (k / 100)) by (Z.div_mod_to_equations; lia).
  nia.
Qed.

Lemma floorSum_lower (t : N) (od : list InteractiveOptionType) :
  (0 < t)%N -> (forall e, e ∈ od -> (totalCount e <= t)%N) ->
  20000 * Z.of_N (countSum od) - 199 * Z.of_N t * Z.of_nat (length od)
  <= 200 * Z.of_N t
     * sumZ (Math_floor <$> ((fun e => toFixed2Pct (totalCount e) t) <$> od)).
Proof.
  intros Ht. induction od as [|e od IH]; intros Hle; [simpl; lia|].
  rewrite !fmap_cons. change (sumZ (?x :: ?k)) with (x + sumZ k).
  simpl countSum. rewrite length_cons.
  pose proof (floor_lower (totalCount e) t Ht
                (Hle e ltac:(apply elem_of_cons; by left))) as He.
  assert (IH' := IH (fun x Hx => Hle x ltac:(apply elem_of_cons; by right))).
  lia.
Qed.

Lemma resultOf_lower (od : list InteractiveOptionType) :
  (0 < totalResponseCountOf od)%N ->
  100 - Z.of_nat (length od) < sumZ (resultOf toFixed2Pct od).
Proof.
  intros Ht.
  destruct (corrected_facts toFixed2Pct toFixed2Pct_nearest od Ht) as (Htot & Hfl & Hrg).
  assert (Hfloors : sumZ (Math_floor <$> (correctOvershoot (rawPercentages toFixed2Pct od)).1)
                    = sumZ (Math_floor <$> rawPercentages toFixed2Pct od)).
  { destruct (correctOvershoot_cases (rawPercentages toFixed2Pct od)) as [[_ ->]|[_ ->]];
      simpl; [done|]. pose proof (floorSum_adjusted (rawPercentages toFixed2Pct od)) as Ha.
    to_fmap. exact Ha. }
  assert (Hlow : 100 - Z.of_nat (length od)
                 < sumZ (Math_floor <$> rawPercentages toFixed2Pct od)).
  { unfold rawPercentages. rewrite totalResponseCountOf_sum in *.
    pose proof (floorSum_lower (countSum od) od Ht (count_le_sum od)) as Hs.
    to_fmap.
    assert (Hn : (1 <= length od)%nat).
    { destruct od; [simpl in Ht; lia|simpl; lia]. }
    nia. }
  pose proof (correctOvershoot_total (rawPercentages toFixed2Pct od)) as Hrt.
  pose proof (correctOvershoot_length (rawPercentages toFixed2Pct od)) as Hlen.
  rewrite rawPercentages_length in Hlen.
  unfold resultOf.
  set (ps := (correctOvershoot (rawPercentages toFixed2Pct od)).1) in *.
  set (total := (correctOvershoot (rawPercentages toFixed2Pct od)).2) in *.
  destruct (Z.eqb_spec total 100) as [E|E].
  - pose proof (floorSum_le_rounded ps) as Hle. rewrite roundedTotal_sum in Hle.
    to_fmap. lia.
  - destruct (distribute_values (100 - total) ps ltac:(lia) Hrg) as [Hsum _].
    pose proof (distribute_indices (100 - total) ps) as Hidx. rewrite Hlen in Hidx.
    rewrite (readBack_perm _ _ Hidx). lia.
Qed.

End Shortfall.

(** X4: with a positive total the returned entries add up to more than 100
    minus the number of options (and, as shown before, to at most 100). *)
Theorem sum_short_by_less_than_option_count
        (toFixed2Pct : N -> N -> Z) (optionsData : list InteractiveOptionType) :
  nearestHundredth toFixed2Pct ->
  (0 < totalResponseCountOf optionsData)%N ->
  exists zs : list Z,
    preprocessPercentages_ toFixed2Pct optionsData = Int <$> zs
    /\ 100 - Z.of_nat (length optionsData) < sumZ zs.
Proof.
  intros Hn Ht. exists (resultOf toFixed2Pct optionsData).
  split; [by apply preprocess_shape|]. by apply resultOf_lower.
Qed.

Lemma sum_short_by_less_than_option_count_witness :
  nearestHundredth toFixed2HalfUp
  /\ (0 < totalResponseCountOf (ofCounts [1; 1; 1; 1; 1; 1]%N))%N
  /\ exists zs : list Z,
       preprocessPercentages_ toFixed2HalfUp (ofCounts [1; 1; 1; 1; 1; 1]%N) = Int <$> zs
       /\ 100 - 6 < sumZ zs.
Proof.
  split; [exact toFixed2HalfUp_nearest|]. split; [reflexivity|].
  exact (sum_short_by_less_than_option_count toFixed2HalfUp
           (ofCounts [1; 1; 1; 1; 1; 1]%N) toFixed2HalfUp_nearest eq_refl).
Defined.

End EngineExtras.

(** ** More about the component *)

Module LifecycleExtras.
Import Lifecycle LifecycleNotions LifecycleExtraNotions LifecycleFacts SingleSelection.

(** *** The promise *)

Lemma onSelectionFulfilled_promise (optionEl : nat) (this : Component) :
  backendDataPromise_ (onSelectionFulfilled optionEl this).2 = backendDataPromise_ this.
Proof.
  destruct (hasUserSelection_ this) eqn:Hsel.
  - by rewrite onSelectionFulfilled_selected.
  - rewrite onSelectionFulfilled_spec by done. by destruct (selectedData this optionEl).
Qed.

Lemma runThens_promise (registered : list nat) (this : Component) :
  backendDataPromise_ (runThens registered this).2 = backendDataPromise_ this.
Proof.
  destruct registered as [|optionEl rest]; [done|].
  rewrite runThens_cons. pose proof (onSelectionFulfilled_promise optionEl this) as H1.
  by destruct (onSelectionFulfilled optionEl this) as [[[]|] this'].
Qed.

Lemma runThens_normal (registered : list nat) (this : Component) :
  exists failed, (runThens registered this).1 = Normal failed.
Proof.
  destruct registered as [|optionEl rest]; [by exists []|].
  rewrite runThens_cons.
  destruct (onSelectionFulfilled optionEl this) as [[[]|] this']; simpl; eauto.
Qed.

Lemma settle_promise (fulfilled : bool) (this : Component) :
  backendDataPromise_ (settle fulfilled this).2
  = if fulfilled then Fulfilled else Rejected.
Proof.
  unfold settle, bind at 1, get at 1, bind at 1, modify at 1.
  destruct fulfilled; unfold bind at 1, modify at 1.
  - unfold bind at 1.
    set (this1 := setBackendDataPromise Fulfilled (setReactions [] this)).
    pose proof (runThens_promise (reactions this) this1) as H1.
    destruct (runThens_normal (reactions this) this1) as [failed Hf].
    destruct (runThens (reactions this) this1) as [c this2]. simpl in *. subst c.
    rewrite runCatches_spec. simpl. by rewrite H1.
  - by rewrite runCatches_spec.
Qed.

Lemma handleSuccessfulDataRetrieval_promise (response : Response) (this : Component) :
  backendDataPromise_ (handleSuccessfulDataRetrieval_ response this).2
  = backendDataPromise_ this.
Proof.
  unfold handleSuccessfulDataRetrieval_. destruct (optionsOf response).
  - unfold bind, get. by rewrite updateComponentOnDataRetrieval_spec.
  - js_unfold. by destruct (devAsserts this && negb (hasOptionsField response)).
Qed.

Lemma handleSuccessfulDataRetrieval_normal (response : Response) (this : Component) :
  (handleSuccessfulDataRetrieval_ response this).1 = Normal tt
  \/ (handleSuccessfulDataRetrieval_ response this).1 = Throw.
Proof. destruct (handleSuccessfulDataRetrieval_ response this) as [[[]|] ?]; tauto. Qed.

(** What settling a superseded promise comes to. *)
Lemma settleSuperseded_cases (fulfilled : bool) (registered : list nat) (this : Component) :
  (settleSuperseded fulfilled registered this).2
  = if fulfilled then
      match registered with
      | [] => this
      | optionEl :: _ =>
          match onSelectionFulfilled optionEl this with
          | (Normal _, this') => this'
          | (Throw, this') => (runCatches [optionEl] this').2
          end
      end
    else (runCatches registered this).2.
Proof.
  unfold settleSuperseded. destruct fulfilled; [|done].
  destruct registered as [|optionEl rest]; [by destruct this|].
  unfold bind at 1. rewrite runThens_cons.
  destruct (onSelectionFulfilled optionEl this) as [[[]|] this']; [|done].
  by destruct this'.
Qed.

(** One event, written out by the state of the promise. *)
Lemma step_cases (this : Component) (e : Event) :
  step this e =
  match e, backendDataPromise_ this with
  | Layout, _ => (layoutCallback this).2
  | Tap target, promise =>
      if hasUserSelection_ this then this else
      match target with
      | None => this
      | Some optionEl =>
          match promise with
          | PromiseNull => this
          | Pending => setReactions (reactions this ++ [optionEl]) this
          | Fulfilled =>
              match onSelectionFulfilled optionEl this with
              | (Normal _, this') => this'
              | (Throw, this') => (runCatches [optionEl] this').2
              end
          | Rejected => (runCatches [optionEl] this).2
          end
      end
  | Retrieved response, Pending =>
      match handleSuccessfulDataRetrieval_ response this with
      | (Normal _, this') => (settle true this').2
      | (Throw, this') => (settle false this').2
      end
  | Retrieved _, _ => this
  | RetrievalFailed, Pending => (settle false this).2
  | RetrievalFailed, _ => this
  | SupersededRetrieved position response, _ =>
      match superseded this !! position with
      | Some registered =>
          match handleSuccessfulDataRetrieval_ response
                  (setSuperseded (delete position (superseded this)) this) with
          | (Normal _, this') => (settleSuperseded true registered this').2
          | (Throw, this') => (settleSuperseded false registered this').2
          end
      | None => this
      end
  | SupersededRetrievalFailed position, _ =>
      match superseded this !! position with
      | Some registered =>
          (settleSuperseded false registered
             (setSuperseded (delete position (superseded this)) this)).2
      | None => this
      end
  end.
Proof.
  unfold step. destruct e as [|target|response| |position response|position]; cbn [handle].
  - by destruct (backendDataPromise_ this).
  - unfold handleTap_, bind at 1, get at 1.
    destruct (hasUserSelection_ this); [done|]. destruct target as [optionEl|]; [|done].
    unfold handleOptionSelection_, bind at 1, get at 1.
    destruct (backendDataPromise_ this); try done.
    unfold bind at 1. rewrite runThens_cons.
    destruct (onSelectionFulfilled optionEl this) as [[[]|] this']; [|done].
    by destruct this'.
  - unfold bind, get. destruct (backendDataPromise_ this); try done.
    by destruct (handleSuccessfulDataRetrieval_ response this) as [[[]|] this'].
  - unfold bind, get. by destruct (backendDataPromise_ this).
  - unfold bind at 1, get at 1.
    destruct (superseded this !! position) as [registered|];
      [|by destruct (backendDataPromise_ this)].
    unfold bind at 1, modify at 1.
    destruct (handleSuccessfulDataRetrieval_ response _) as [[[]|] this'];
      by destruct (backendDataPromise_ this).
  - unfold bind at 1, get at 1.
    destruct (superseded this !! position) as [registered|];
      [|by destruct (backendDataPromise_ this)].
    unfold bind at 1, modify at 1. by destruct (backendDataPromise_ this).
Qed.

(** A property kept by every part of the handlers is kept by every event. *)
Lemma step_stable (P : Component -> Prop) (ok : Event -> Prop) :
  (forall this r, P this -> P (setReactions r this)) ->
  (forall this position, P this ->
     P (setSuperseded (delete position (superseded this)) this)) ->
  (forall this (b : bool), P this ->
     P (setBackendDataPromise (if b then Fulfilled else Rejected) this)) ->
  (forall this failed, P this -> P (runCatches failed this).2) ->
  (forall this optionEl, P this -> P (onSelectionFulfilled optionEl this).2) ->
  (forall this e response, ok e -> responseOf e = Some response -> P this ->
     P (handleSuccessfulDataRetrieval_ response this).2) ->
  (forall this, ok Layout -> P this -> P (layoutCallback this).2) ->
  forall this e, ok e -> P this -> P (step this e).
Proof.
  intros Hr Ho Hp Hc Hf Hh Hl this e Hok HP.
  assert (Hserve : forall s optionEl, P s ->
            P match onSelectionFulfilled optionEl s with
              | (Normal _, s') => s'
              | (Throw, s') => (runCatches [optionEl] s').2
              end).
  { intros s optionEl Hs. pose proof (Hf s optionEl Hs) as H2.
    destruct (onSelectionFulfilled optionEl s) as [[[]|] s2]; cbn [snd] in H2; [done|].
    by apply Hc. }
  assert (Hold : forall s (b : bool) registered, P s ->
                   P (settleSuperseded b registered s).2).
  { intros s b registered Hs. rewrite settleSuperseded_cases.
    destruct b; [|by apply Hc]. destruct registered; [done|]. by apply Hserve. }
  assert (Hsettle : forall s (b : bool), P s -> P (settle b s).2).
  { intros s b Hs.
    unfold settle, bind at 1, get at 1, bind at 1, modify at 1.
    assert (H1 : P (setBackendDataPromise (if b then Fulfilled else Rejected)
                                          (setReactions [] s))).
    { apply Hp. by apply Hr. }
    destruct b; unfold bind at 1, modify at 1.
    - fold (settleSuperseded true (reactions s)
              (setBackendDataPromise Fulfilled (setReactions [] s))).
      by apply Hold.
    - by apply Hc. }
  rewrite step_cases. destruct e as [|target|response| |position response|position].
  - assert (H1 : P (layoutCallback this).2) by (by apply Hl).
    by destruct (backendDataPromise_ this).
  - destruct (hasUserSelection_ this); [done|]. destruct target as [optionEl|]; [|done].
    destruct (backendDataPromise_ this) eqn:E; [done|by apply Hr|by apply Hserve|].
    by apply Hc.
  - destruct (backendDataPromise_ this) eqn:E; try done.
    pose proof (Hh this _ response Hok eq_refl HP) as H1.
    destruct (handleSuccessfulDataRetrieval_ response this) as [[[]|] s1];
      cbn [snd] in H1; by apply Hsettle.
  - destruct (backendDataPromise_ this) eqn:E; try done. by apply Hsettle.
  - assert (H0 : match superseded this !! position with
                 | Some registered =>
                     P match handleSuccessfulDataRetrieval_ response
                               (setSuperseded (delete position (superseded this)) this) with
                       | (Normal _, this') => (settleSuperseded true registered this').2
                       | (Throw, this') => (settleSuperseded false registered this').2
                       end
                 | None => P this
                 end).
    { destruct (superseded this !! position) as [registered|]; [|done].
      pose proof (Hh _ _ response Hok eq_refl (Ho this position HP)) as H1.
      destruct (handleSuccessfulDataRetrieval_ response _) as [[[]|] s1];
        cbn [snd] in H1; by apply Hold. }
    destruct (superseded this !! position); by destruct (backendDataPromise_ this).
  - assert (H0 : match superseded this !! position with
                 | Some registered =>
                     P (settleSuperseded false registered
                          (setSuperseded (delete position (superseded this)) this)).2
                 | None => P this
                 end).
    { destruct (superseded this !! position) as [registered|]; [|done].
      apply Hold. by apply Ho. }
    destruct (superseded this !! position); by destruct (backendDataPromise_ this).
Qed.

Lemma run_stable (P : Component -> Prop) (ok : Event -> Prop) :
  (forall this e, ok e -> P this -> P (step this e)) ->
  forall events this, Forall ok events -> P this -> P (run events this).
Proof.
  intros Hstep events. induction events as [|e events IH]; intros this Hall HP; [done|].
  apply Forall_cons_1 in Hall as [He Hall]. simpl. apply IH; [done|]. by apply Hstep.
Qed.

Lemma handleSuccessfulDataRetrieval_cases (response : Response) (this : Component) :
  (exists entries,
      optionsOf response = Some entries
      /\ handleSuccessfulDataRetrieval_ response this
         = updateComponentOnDataRetrieval_ (take (numOptions this) entries) this)
  \/ (optionsOf response = None
      /\ ((handleSuccessfulDataRetrieval_ response this).2 = this
          \/ (handleSuccessfulDataRetrieval_ response this).2 = addEffect DevError this)).
Proof.
  unfold handleSuccessfulDataRetrieval_. destruct (optionsOf response) as [entries|].
  - left. exists entries. done.
  - right. split; [done|]. js_unfold.
    destruct (devAsserts this && negb (hasOptionsField response)); [by left|by right].
Qed.

(** *** Counting calls *)

Lemma countCalls_app (p : Effect -> bool) (this this' : Component) (extra : list Effect) :
  effects this' = effects this ++ extra ->
  countCalls p this' = (countCalls p this + length (List.filter p extra))%nat.
Proof.
  intros E. unfold countCalls. by rewrite E, List.filter_app, length_app.
Qed.

Lemma fallbackEffects_requests (failed : list nat) :
  List.filter isRequest (fallbackEffects failed) = [].
Proof. induction failed as [|i failed IH]; [done|]. simpl. exact IH. Qed.

Lemma retrievalMutations_requests (data l : list InteractiveOptionType) (index : nat) :
  List.filter isRequest (retrievalMutations data index l) = [].
Proof.
  revert index. induction l as [|e l IH]; intros index; [done|].
  simpl. destruct (selectedByUser e); simpl; apply IH.
Qed.

Lemma filter_weaker (p q : Effect -> bool) (l : list Effect) :
  (forall e, p e = true -> q e = true) ->
  List.filter q l = [] -> List.filter p l = [].
Proof.
  intros Hpq. induction l as [|e l IH]; [done|]. simpl.
  destruct (q e) eqn:Hq; [done|]. intros Hl.
  destruct (p e) eqn:Hp; [|by apply IH].
  apply Hpq in Hp. congruence.
Qed.

Lemma get_is_request (e : Effect) : isGet e = true -> isRequest e = true.
Proof. by destruct e as [| |[]|]. Qed.

Lemma post_is_request (e : Effect) : isPost e = true -> isRequest e = true.
Proof. by destruct e as [| |[]|]. Qed.

Lemma countCalls_no_request (p : Effect -> bool) (this this' : Component)
      (extra : list Effect) :
  (forall e, p e = true -> isRequest e = true) ->
  effects this' = effects this ++ extra ->
  List.filter isRequest extra = [] ->
  countCalls p this' = countCalls p this.
Proof.
  intros Hp E Hx. rewrite (countCalls_app p this this' extra E).
  rewrite (filter_weaker p isRequest extra Hp Hx). simpl. lia.
Qed.

(** A state that differs in fields which the requests do not depend on,
    whose calls are those of [this] and some that are no requests, and which
    has a selection at least when [this] has one. *)
Lemma requestsOk_frame (endpoint http : bool) (this this' : Component)
      (extra : list Effect) :
  hasEndpoint this' = hasEndpoint this ->
  endpointIsHttp this' = endpointIsHttp this ->
  (hasUserSelection_ this' = false -> hasUserSelection_ this = false) ->
  effects this' = effects this ++ extra ->
  List.filter isPost extra = [] ->
  (endpoint && http = false -> List.filter isRequest extra = []) ->
  requestsOk endpoint http this -> requestsOk endpoint http this'.
Proof.
  intros He Hh Hs E Hx Hy (H1 & H2 & H5 & H6 & H7).
  unfold requestsOk.
  rewrite (countCalls_app isPost this this' extra E), Hx, Nat.add_0_r.
  rewrite (countCalls_app isRequest this this' extra E).
  repeat split; try done; try congruence.
  - intros Hn. apply H6. by apply Hs.
  - intros Hn. by rewrite (H7 Hn), (Hy Hn).
Qed.

Lemma requestsOk_step (endpoint http : bool) (this : Component) (e : Event) :
  requestsOk endpoint http this -> requestsOk endpoint http (step this e).
Proof.
  intros Hok.
  apply (step_stable (requestsOk endpoint http) (fun _ => True)); [| | | | | | |done|done];
    clear.
  - intros this r. apply (requestsOk_frame _ _ _ _ []); try done.
    simpl. by rewrite app_nil_r.
  - intros this old. apply (requestsOk_frame _ _ _ _ []); try done.
    simpl. by rewrite app_nil_r.
  - intros this b. apply (requestsOk_frame _ _ _ _ []); try done.
    simpl. by rewrite app_nil_r.
  - intros this failed. rewrite runCatches_spec.
    apply (requestsOk_frame _ _ _ _ (fallbackEffects failed)); try done.
    + simpl. intros H. by apply orb_false_iff in H as [? _].
    + apply (filter_weaker _ isRequest); [apply post_is_request|].
      apply fallbackEffects_requests.
    + intros _. apply fallbackEffects_requests.
  - intros this optionEl Hok.
    destruct (hasUserSelection_ this) eqn:Hsel.
    { by rewrite onSelectionFulfilled_selected. }
    rewrite onSelectionFulfilled_spec by done.
    destruct (selectedData this optionEl) as [data'|]; cbn [snd].
    + destruct Hok as (H1 & H2 & H5 & H6 & H7).
      specialize (H6 Hsel).
      set (this' := {| hasEndpoint := _ |}).
      assert (E : effects this' = effects this ++ selectionEffects this optionEl) by done.
      unfold requestsOk.
      rewrite (countCalls_app isPost this this' _ E),
        (countCalls_app isRequest this this' _ E).
      unfold selectionEffects. rewrite H1, H2.
      destruct (endpoint && http) eqn:Eh; simpl;
        repeat split; try done; try lia; try congruence;
        intros _; rewrite (H7 eq_refl); lia.
    + apply (requestsOk_frame _ _ this _ [TriggerAnalytics optionEl]); done.
  - intros this e response _ _.
    destruct (handleSuccessfulDataRetrieval_cases response this)
      as [(entries & _ & ->)|(_ & [->| ->])].
    + rewrite updateComponentOnDataRetrieval_spec. cbn [snd].
      apply (requestsOk_frame _ _ this _
               (retrievalMutations (take (numOptions this) entries) 0
                                   (take (numOptions this) entries))); try done.
      * simpl. intros H. by apply orb_false_iff in H as [? _].
      * apply (filter_weaker _ isRequest); [apply post_is_request|].
        apply retrievalMutations_requests.
      * intros _. apply retrievalMutations_requests.
    + done.
    + apply (requestsOk_frame _ _ this _ [DevError]); done.
  - intros this _ Hok. rewrite layoutCallback_spec. cbn [snd].
    apply (requestsOk_frame _ _ this _ (layoutEffects this)); try done.
    + unfold layoutEffects. by destruct (hasEndpoint this && endpointIsHttp this).
    + destruct Hok as (H1 & H2 & _). unfold layoutEffects. rewrite H1, H2.
      by intros ->.
Qed.

Lemma requestsOk_construct (endpoint http : bool) (options : nat) (dev : bool) :
  requestsOk endpoint http (construct endpoint http options dev).
Proof. unfold requestsOk, countCalls. simpl. repeat split; done || lia. Qed.

Lemma requestsOk_run (endpoint http : bool) (options : nat) (dev : bool)
      (events : list Event) :
  requestsOk endpoint http (run events (construct endpoint http options dev)).
Proof.
  apply (run_stable (requestsOk endpoint http) (fun _ => True)).
  - intros this e _. apply requestsOk_step.
  - by apply Forall_forall.
  - apply requestsOk_construct.
Qed.

(** Calls that are no retrieval request leave the retrievals as they are. *)
Lemma retrievalsOk_frame (endpoint http : bool) (layouts : nat) (this this' : Component)
      (extra : list Effect) :
  hasEndpoint this' = hasEndpoint this ->
  endpointIsHttp this' = endpointIsHttp this ->
  effects this' = effects this ++ extra ->
  List.filter isGet extra = [] ->
  retrievalsOk endpoint http layouts this -> retrievalsOk endpoint http layouts this'.
Proof.
  intros He Hh E Hx (H1 & H2 & H3). unfold retrievalsOk.
  rewrite (countCalls_app isGet this this' extra E), Hx, Nat.add_0_r.
  repeat split; congruence.
Qed.

Lemma retrievalsOk_step (endpoint http : bool) (layouts : nat) (this : Component)
      (e : Event) :
  retrievalsOk endpoint http layouts this ->
  retrievalsOk endpoint http (layouts + if isLayout e then 1 else 0) (step this e).
Proof.
  intros Hok. destruct (isLayout e) eqn:El.
  - destruct e; try done.
    assert (E : step this Layout = (layoutCallback this).2) by done.
    rewrite E, layoutCallback_spec. cbn [snd].
    destruct Hok as (H1 & H2 & H3). unfold retrievalsOk, countCalls in *. simpl.
    rewrite List.filter_app, length_app, H3. unfold layoutEffects. rewrite H1, H2.
    repeat split; try done. destruct (endpoint && http); simpl; lia.
  - rewrite Nat.add_0_r.
    apply (step_stable (retrievalsOk endpoint http layouts) (fun e => isLayout e = false));
      [| | | | | | |done|done]; clear.
    + intros this r. apply (retrievalsOk_frame _ _ _ _ _ []); try done.
      simpl. by rewrite app_nil_r.
    + intros this old. apply (retrievalsOk_frame _ _ _ _ _ []); try done.
      simpl. by rewrite app_nil_r.
    + intros this b. apply (retrievalsOk_frame _ _ _ _ _ []); try done.
      simpl. by rewrite app_nil_r.
    + intros this failed. rewrite runCatches_spec.
      apply (retrievalsOk_frame _ _ _ _ _ (fallbackEffects failed)); try done.
      apply (filter_weaker _ isRequest); [apply get_is_request|].
      apply fallbackEffects_requests.
    + intros this optionEl.
      destruct (hasUserSelection_ this) eqn:Hsel.
      { by rewrite onSelectionFulfilled_selected. }
      rewrite onSelectionFulfilled_spec by done.
      destruct (selectedData this optionEl) as [data'|]; cbn [snd].
      * apply (retrievalsOk_frame _ _ _ this _ (selectionEffects this optionEl)); try done.
        unfold selectionEffects. by destruct (hasEndpoint this && endpointIsHttp this).
      * apply (retrievalsOk_frame _ _ _ this _ [TriggerAnalytics optionEl]); done.
    + intros this e response _ _.
      destruct (handleSuccessfulDataRetrieval_cases response this)
        as [(entries & _ & ->)|(_ & [->| ->])].
      * rewrite updateComponentOnDataRetrieval_spec. cbn [snd].
        apply (retrievalsOk_frame _ _ _ this _
                 (retrievalMutations (take (numOptions this) entries) 0
                                     (take (numOptions this) entries))); try done.
        apply (filter_weaker _ isRequest); [apply get_is_request|].
        apply retrievalMutations_requests.
      * done.
      * apply (retrievalsOk_frame _ _ _ this _ [DevError]); done.
    + done.
Qed.

Lemma retrievalsOk_run (endpoint http : bool) (events : list Event) :
  forall (layouts : nat) (this : Component),
    retrievalsOk endpoint http layouts this ->
    retrievalsOk endpoint http (layouts + countLayouts events) (run events this).
Proof.
  induction events as [|e events IH]; intros layouts this Hok.
  - unfold countLayouts. simpl. by rewrite Nat.add_0_r.
  - simpl. pose proof (IH _ _ (retrievalsOk_step _ _ _ _ e Hok)) as H1.
    unfold countLayouts in *. simpl.
    destruct (isLayout e); simpl in *; [|by rewrite Nat.add_0_r in H1].
    by replace (layouts + S (length (List.filter isLayout events)))%nat
      with (layouts + 1 + length (List.filter isLayout events))%nat by lia.
Qed.

(** X5: every layout of a component with a valid endpoint starts one
    retrieval request, and nothing else starts one; whatever happens, at
    most one submission request is started, and that only when a selection
    is recorded.  A component laid out once therefore starts at most one
    request of each kind. *)
Theorem one_retrieval_per_layout_one_submission_at_most
        (endpoint http : bool) (options : nat) (dev : bool) (events : list Event) :
  let this := run events (construct endpoint http options dev) in
  countCalls isGet this = (if endpoint && http then countLayouts events else 0%nat)
  /\ (countCalls isPost this <= 1)%nat
  /\ (hasUserSelection_ this = false -> countCalls isPost this = 0%nat)
  /\ ((countLayouts events <= 1)%nat -> (countCalls isGet this <= 1)%nat).
Proof.
  destruct (requestsOk_run endpoint http options dev events)
    as (_ & _ & H5 & H6 & _).
  assert (H0 : retrievalsOk endpoint http 0 (construct endpoint http options dev)).
  { unfold retrievalsOk, countCalls. simpl. by destruct (endpoint && http). }
  destruct (retrievalsOk_run endpoint http events 0 _ H0) as (_ & _ & H3).
  cbv zeta. rewrite H3. simpl. repeat split; try done.
  destruct (endpoint && http); lia.
Qed.

(** X6: a component without an endpoint attribute, or with an endpoint that
    is not accepted as http(s), never starts a request. *)
Theorem no_request_without_valid_endpoint
        (endpoint http : bool) (options : nat) (dev : bool) (events : list Event) :
  endpoint && http = false ->
  forall method optionSelected,
    ExecuteRequest method optionSelected
    ∉ effects (run events (construct endpoint http options dev)).
Proof.
  intros Hno method optionSelected Hin.
  destruct (requestsOk_run endpoint http options dev events)
    as (_ & _ & _ & _ & H7).
  specialize (H7 Hno). unfold countCalls in H7.
  apply length_zero_iff_nil in H7.
  assert (Hf : ExecuteRequest method optionSelected
               ∈ List.filter isRequest
                   (effects (run events (construct endpoint http options dev)))).
  { apply list_elem_of_In, List.filter_In. split; [by apply list_elem_of_In|done]. }
  rewrite H7 in Hf. by apply elem_of_nil in Hf.
Qed.

Lemma no_request_without_valid_endpoint_witness :
  true && false = false
  /\ ExecuteRequest POST (Some 1%nat)
     ∉ effects (run [Layout; Tap (Some 1%nat); Tap (Some 0%nat)]
                    (construct true false 2 false)).
Proof.
  split; [reflexivity|].
  exact (no_request_without_valid_endpoint true false 2 false
           [Layout; Tap (Some 1%nat); Tap (Some 0%nat)] eq_refl POST (Some 1%nat)).
Defined.

(** *** Before the promise is settled *)

Lemma tap_promise (this : Component) (target : option nat) :
  backendDataPromise_ (step this (Tap target)) = backendDataPromise_ this.
Proof.
  rewrite step_cases. destruct (hasUserSelection_ this); [done|].
  destruct target as [optionEl|]; [|done].
  destruct (backendDataPromise_ this) eqn:E; [done|done| |by rewrite runCatches_spec].
  pose proof (onSelectionFulfilled_promise optionEl this) as H1.
  destruct (onSelectionFulfilled optionEl this) as [[[]|] this']; cbn [snd] in H1;
    [congruence|]. rewrite runCatches_spec. simpl. congruence.
Qed.

(** Events other than layout supersede no promise. *)
Lemma superseded_step (this : Component) (e : Event) :
  isLayout e = false -> superseded this = [] -> superseded (step this e) = [].
Proof.
  apply (step_stable (fun s => superseded s = []) (fun e => isLayout e = false)); clear.
  - done.
  - intros this position H. simpl. by rewrite H.
  - done.
  - intros this failed. by rewrite runCatches_spec.
  - intros this optionEl.
    destruct (hasUserSelection_ this) eqn:Hsel.
    { by rewrite onSelectionFulfilled_selected. }
    rewrite onSelectionFulfilled_spec by done.
    by destruct (selectedData this optionEl).
  - intros this e response _ _.
    destruct (handleSuccessfulDataRetrieval_cases response this)
      as [(entries & _ & ->)|(_ & [->| ->])]; [|done|done].
    by rewrite updateComponentOnDataRetrieval_spec.
  - done.
Qed.

(** Without a superseded promise, an answer to one finds none. *)
Lemma superseded_none (this : Component) (e : Event) :
  superseded this = [] ->
  (exists position response, e = SupersededRetrieved position response)
  \/ (exists position, e = SupersededRetrievalFailed position) ->
  step this e = this.
Proof.
  intros Ho [(position & response & ->)|(position & ->)];
    rewrite step_cases, Ho; by destruct (backendDataPromise_ this).
Qed.

(** Before layout no event but layout does anything. *)
Lemma step_before_layout (this : Component) (e : Event) :
  backendDataPromise_ this = PromiseNull -> superseded this = [] ->
  isLayout e = false -> step this e = this.
Proof.
  intros Hp Ho He. destruct e as [|target|response| |position response|position]; [done| | | | |].
  - rewrite step_cases, Hp. destruct (hasUserSelection_ this); [done|]. by destruct target.
  - by rewrite step_cases, Hp.
  - by rewrite step_cases, Hp.
  - apply superseded_none; eauto.
  - apply superseded_none; eauto.
Qed.

Lemma settled_step (this : Component) (e : Event) :
  settled this -> superseded this = [] -> isLayout e = false ->
  backendDataPromise_ (step this e) = backendDataPromise_ this.
Proof.
  intros Hs Ho He.
  destruct e as [|target|response| |position response|position];
    [done| apply tap_promise | | | |].
  - rewrite step_cases. by destruct Hs as [E|E]; rewrite E.
  - rewrite step_cases. by destruct Hs as [E|E]; rewrite E.
  - rewrite superseded_none; eauto.
  - rewrite superseded_none; eauto.
Qed.

Lemma retrieval_settles (this : Component) (e : Event) :
  backendDataPromise_ this = Pending ->
  (exists response, e = Retrieved response) \/ e = RetrievalFailed ->
  settled (step this e).
Proof.
  intros Hp He. rewrite step_cases, Hp. unfold settled.
  destruct He as [[response ->]| ->].
  - destruct (handleSuccessfulDataRetrieval_ response this) as [[[]|] this'];
      rewrite settle_promise; tauto.
  - rewrite settle_promise. tauto.
Qed.

Lemma quiet_step (this : Component) (e : Event) :
  isLayout e = false -> quiet this -> quiet (step this e).
Proof.
  intros He Hq. pose proof Hq as [Ho Hq'].
  pose proof (superseded_step this e He Ho) as Ho'.
  split; [done|].
  destruct (backendDataPromise_ this) eqn:Hp.
  - (* not laid out *)
    rewrite step_before_layout by done. by rewrite Hp.
  - (* pending *)
    destruct e as [|target|response| |position response|position]; [done| | | | |].
    + rewrite tap_promise. rewrite Hp in *.
      destruct Hq' as (Hs & Hd & Hf).
      rewrite step_cases, Hp, Hs. by destruct target.
    + assert (Hset : settled (step this (Retrieved response)))
        by (apply retrieval_settles; eauto).
      by destruct Hset as [-> | ->].
    + assert (Hset : settled (step this RetrievalFailed))
        by (apply retrieval_settles; eauto).
      by destruct Hset as [-> | ->].
    + rewrite superseded_none by eauto. by rewrite Hp.
    + rewrite superseded_none by eauto. by rewrite Hp.
  - rewrite settled_step, Hp by (done || by left). done.
  - rewrite settled_step, Hp by (done || by right). done.
Qed.

Lemma quiet_layout (this : Component) :
  backendDataPromise_ this = PromiseNull -> quiet this -> quiet (step this Layout).
Proof.
  intros Hp [Ho Hq]. rewrite Hp in Hq. destruct Hq as (Hs & Hd & Hf).
  assert (E : step this Layout = (layoutCallback this).2) by done.
  rewrite E, layoutCallback_spec. cbn [snd]. unfold quiet. simpl.
  unfold supersededAtLayout, layoutPromise, layoutEffects. rewrite Hp, Hf.
  split; [done|]. by destruct (hasEndpoint this), (endpointIsHttp this).
Qed.

Lemma countLayouts_app (events events' : list Event) :
  countLayouts (events ++ events') = (countLayouts events + countLayouts events')%nat.
Proof. unfold countLayouts. by rewrite List.filter_app, length_app. Qed.

Lemma run_app (events events' : list Event) (this : Component) :
  run (events ++ events') this = run events' (run events this).
Proof. unfold run. apply fold_left_app. Qed.

(** A component laid out at most once is quiet, and its promise is null
    until the layout. *)
Lemma quiet_run (endpoint http : bool) (options : nat) (dev : bool) (events : list Event) :
  (countLayouts events <= 1)%nat ->
  quiet (run events (construct endpoint http options dev))
  /\ (countLayouts events = 0%nat ->
      backendDataPromise_ (run events (construct endpoint http options dev)) = PromiseNull).
Proof.
  induction events as [|e events IH] using rev_ind; intros Hc.
  - split; [by split|done].
  - rewrite countLayouts_app in Hc. rewrite run_app, countLayouts_app.
    destruct IH as [Hq Hn]; [lia|].
    change (run [e] ?s) with (step s e).
    destruct (isLayout e) eqn:He.
    + destruct e; try done. unfold countLayouts in Hc at 2. simpl in Hc.
      split; [|unfold countLayouts at 2; simpl; lia].
      apply quiet_layout; [apply Hn; lia|done].
    + split; [by apply quiet_step|].
      assert (E0 : countLayouts [e] = 0%nat) by (unfold countLayouts; simpl; by rewrite He).
      rewrite E0, Nat.add_0_r. intros H0.
      rewrite step_before_layout; [by apply Hn|by apply Hn|by destruct Hq|done].
Qed.

(** X7: of a component laid out at most once: as long as the backend
    promise is not settled, whatever taps have come, no selection is
    recorded, no aggregate data is stored, and the only call the component
    can have made is the start of the retrieval. *)
Theorem nothing_happens_before_the_promise_settles
        (endpoint http : bool) (options : nat) (dev : bool) (events : list Event) :
  (countLayouts events <= 1)%nat ->
  let this := run events (construct endpoint http options dev) in
  backendDataPromise_ this = PromiseNull \/ backendDataPromise_ this = Pending ->
  hasUserSelection_ this = false
  /\ optionsData_ this = None
  /\ forall e, e ∈ effects this -> e = ExecuteRequest GET None.
Proof.
  intros Hc this Hp.
  destruct (quiet_run endpoint http options dev events Hc) as [[_ Hq] _].
  fold this in Hq.
  destruct Hp as [Hp|Hp]; rewrite Hp in Hq; destruct Hq as (Hs & Hd & He);
    rewrite He; repeat split; try done; intros e Hin.
  - by apply elem_of_nil in Hin.
  - apply elem_of_cons in Hin as [->|Hin]; [done|]. by apply elem_of_nil in Hin.
Qed.

Lemma nothing_happens_before_the_promise_settles_witness :
  let events := [Tap (Some 1%nat); Layout; Tap (Some 0%nat); Tap (Some 1%nat)] in
  let this := run events (construct true true 2 false) in
  (countLayouts events <= 1)%nat
  /\ (backendDataPromise_ this = PromiseNull \/ backendDataPromise_ this = Pending)
  /\ hasUserSelection_ this = false
  /\ optionsData_ this = None.
Proof.
  cbv zeta.
  assert (Hc : (countLayouts [Tap (Some 1%nat); Layout; Tap (Some 0%nat); Tap (Some 1%nat)]
                <= 1)%nat) by (vm_compute; lia).
  assert (H : backendDataPromise_
                (run [Tap (Some 1%nat); Layout; Tap (Some 0%nat); Tap (Some 1%nat)]
                     (construct true true 2 false)) = PromiseNull
              \/ backendDataPromise_
                   (run [Tap (Some 1%nat); Layout; Tap (Some 0%nat); Tap (Some 1%nat)]
                        (construct true true 2 false)) = Pending)
    by (right; reflexivity).
  split; [exact Hc|]. split; [exact H|].
  destruct (nothing_happens_before_the_promise_settles true true 2 false
              [Tap (Some 1%nat); Layout; Tap (Some 0%nat); Tap (Some 1%nat)] Hc H)
    as (Hs & Hd & _).
  split; [exact Hs|exact Hd].
Defined.

(** *** Without a tap on an option *)

Lemma retrievalMutations_fromTap (data l : list InteractiveOptionType) (index : nat) :
  List.filter fromTap (retrievalMutations data index l) = [].
Proof.
  revert index. induction l as [|e l IH]; intros index; [done|].
  simpl. destruct (selectedByUser e); simpl; apply IH.
Qed.

Lemma untouched_handled (response : Response) (this : Component) :
  untouched this -> untouched (handleSuccessfulDataRetrieval_ response this).2.
Proof.
  intros (Hr & Ho & Hf).
  destruct (handleSuccessfulDataRetrieval_cases response this)
    as [(entries & _ & ->)|(_ & [->| ->])].
  - rewrite updateComponentOnDataRetrieval_spec. repeat split; simpl; try done.
    by rewrite List.filter_app, Hf, retrievalMutations_fromTap.
  - done.
  - repeat split; simpl; try done. by rewrite List.filter_app, Hf.
Qed.

Lemma untouched_step (this : Component) (e : Event) :
  isOptionTap e = false -> untouched this -> untouched (step this e).
Proof.
  intros He Hu. pose proof Hu as (Hr & Ho & Hf). rewrite step_cases.
  destruct e as [|[optionEl|]|response| |position response|position]; try done.
  - assert (H1 : untouched (layoutCallback this).2).
    { rewrite layoutCallback_spec. repeat split; simpl.
      - unfold supersededAtLayout. destruct (backendDataPromise_ this); try done.
        apply Forall_app. split; [done|]. by constructor.
      - rewrite List.filter_app, Hf. unfold layoutEffects.
        by destruct (hasEndpoint this && endpointIsHttp this). }
    by destruct (backendDataPromise_ this).
  - by destruct (hasUserSelection_ this).
  - destruct (backendDataPromise_ this); try done.
    pose proof (untouched_handled response this Hu) as H1.
    destruct (handleSuccessfulDataRetrieval_ response this) as [[[]|] this'];
      cbn [snd] in H1; destruct H1 as (Hr1 & Ho1 & Hf1);
      by rewrite settle_no_reactions.
  - destruct (backendDataPromise_ this); try done.
    by rewrite settle_no_reactions.
  - assert (H0 : match superseded this !! position with
                 | Some registered =>
                     untouched
                       match handleSuccessfulDataRetrieval_ response
                               (setSuperseded (delete position (superseded this)) this) with
                       | (Normal _, this') => (settleSuperseded true registered this').2
                       | (Throw, this') => (settleSuperseded false registered this').2
                       end
                 | None => untouched this
                 end).
    { destruct (superseded this !! position) as [registered|] eqn:El; [|done].
      assert (registered = []) as ->.
      { rewrite Forall_forall in Ho. apply Ho. by eapply list_elem_of_lookup_2. }
      assert (Hu0 : untouched (setSuperseded (delete position (superseded this)) this)).
      { repeat split; simpl; try done. by apply Forall_delete. }
      pose proof (untouched_handled response _ Hu0) as H1.
      destruct (handleSuccessfulDataRetrieval_ response _) as [[[]|] this'];
        cbn [snd] in H1; rewrite settleSuperseded_cases; [done|].
      by destruct this'. }
    destruct (superseded this !! position); by destruct (backendDataPromise_ this).
  - assert (H0 : match superseded this !! position with
                 | Some registered =>
                     untouched
                       (settleSuperseded false registered
                          (setSuperseded (delete position (superseded this)) this)).2
                 | None => untouched this
                 end).
    { destruct (superseded this !! position) as [registered|] eqn:El; [|done].
      assert (registered = []) as ->.
      { rewrite Forall_forall in Ho. apply Ho. by eapply list_elem_of_lookup_2. }
      rewrite settleSuperseded_cases. cbn.
      repeat split; simpl; try done. by apply Forall_delete. }
    destruct (superseded this !! position); by destruct (backendDataPromise_ this).
Qed.

(** X8: without a tap on an option, layout, taps elsewhere and retrieval
    results never trigger an analytics event, never start a submission and
    never ask for the update that follows a tap, whatever is retrieved. *)
Theorem remote_data_alone_triggers_no_analytics
        (endpoint http : bool) (options : nat) (dev : bool) (events : list Event) :
  Forall (fun e => isOptionTap e = false) events ->
  forall e, e ∈ effects (run events (construct endpoint http options dev)) ->
            fromTap e = false.
Proof.
  intros Hall e Hin.
  assert (Hu : untouched (run events (construct endpoint http options dev))).
  { apply (run_stable untouched (fun e => isOptionTap e = false)); [|done|done].
    intros s ev. apply untouched_step. }
  destruct Hu as (_ & _ & Hf).
  destruct (fromTap e) eqn:Hft; [|done].
  assert (He : e ∈ List.filter fromTap
                      (effects (run events (construct endpoint http options dev)))).
  { apply list_elem_of_In, List.filter_In. split; [by apply list_elem_of_In|done]. }
  rewrite Hf in He. by apply elem_of_nil in He.
Qed.

Lemma remote_data_alone_triggers_no_analytics_witness :
  Forall (fun e => isOptionTap e = false)
         [Layout; Tap None; Retrieved (ResponseObject (OptionsArray earlierAnswer))]
  /\ fromTap (MutateElement (RetrievalMutation earlierAnswer 1)) = false.
Proof.
  assert (H : Forall (fun e => isOptionTap e = false)
                [Layout; Tap None; Retrieved (ResponseObject (OptionsArray earlierAnswer))])
    by (repeat constructor).
  split; [exact H|].
  apply (remote_data_alone_triggers_no_analytics true true 2 false _ H).
  vm_compute. apply list_elem_of_In. right. left. reflexivity.
Defined.

(** *** A tap served by the fulfilled promise *)

Lemma countSum_countSelection (data : list InteractiveOptionType) (i : nat)
      (e : InteractiveOptionType) :
  data !! i = Some e ->
  EngineNotions.countSum (<[i := countSelection e]> data)
  = (EngineNotions.countSum data + 1)%N.
Proof.
  revert i. induction data as [|x data IH]; intros i Hi; [done|].
  destruct i as [|i]; simpl in *.
  - simplify_eq. lia.
  - rewrite (IH i Hi). lia.
Qed.

(** X9: a tap on an option for which the fulfilled retrieval delivered no
    entry (its index is not below the number of stored entries) still
    records the selection, but the callback stops at the missing entry and
    the fallback takes over: the analytics event is triggered twice, only
    the fallback update is asked for, no submission is started and the
    stored data is left as it is. *)
Theorem tap_beyond_the_stored_entries
        (this : Component) (optionEl : nat) (data : list InteractiveOptionType) :
  hasUserSelection_ this = false ->
  backendDataPromise_ this = Fulfilled ->
  optionsData_ this = Some data ->
  (length data <= optionEl)%nat ->
  let after := step this (Tap (Some optionEl)) in
  hasUserSelection_ after = true
  /\ optionsData_ after = Some data
  /\ effects after
     = effects this
       ++ [TriggerAnalytics optionEl; TriggerAnalytics optionEl;
           MutateElement (FallbackMutation optionEl)].
Proof.
  intros Hsel Hp Hd Hlen. cbv zeta.
  rewrite step_cases, Hsel, Hp, onSelectionFulfilled_spec by done.
  unfold selectedData. rewrite Hd.
  rewrite (lookup_ge_None_2 data optionEl Hlen).
  rewrite runCatches_spec. cbn. by rewrite <- app_assoc.
Qed.

Lemma tap_beyond_the_stored_entries_witness :
  let this := run [Layout; Retrieved (ResponseObject (OptionsArray []))] twoOptions in
  hasUserSelection_ this = false
  /\ backendDataPromise_ this = Fulfilled
  /\ optionsData_ this = Some []
  /\ effects (step this (Tap (Some 0%nat)))
     = [ExecuteRequest GET None; TriggerAnalytics 0; TriggerAnalytics 0;
        MutateElement (FallbackMutation 0)].
Proof.
  cbv zeta. split; [reflexivity|]. split; [reflexivity|]. split; [reflexivity|].
  destruct (tap_beyond_the_stored_entries
              (run [Layout; Retrieved (ResponseObject (OptionsArray []))] twoOptions)
              0 [] eq_refl eq_refl eq_refl (Nat.le_refl 0)) as (_ & _ & He).
  exact He.
Defined.

(** X10: a tap on an option whose entry is stored, on a fulfilled promise
    and with no selection yet, records the selection, counts exactly that
    entry once more and flags it, leaves every other entry alone, triggers
    the analytics event once, asks for the update and starts the submission
    exactly when there is a valid endpoint.  The total of the counts grows
    by one, so that the engine then returns an integer for every entry. *)
Theorem tap_counts_the_tapped_entry_once
        (this : Component) (optionEl : nat) (data : list InteractiveOptionType)
        (e : InteractiveOptionType) (toFixed2Pct : N -> N -> Z) :
  hasUserSelection_ this = false ->
  backendDataPromise_ this = Fulfilled ->
  optionsData_ this = Some data ->
  data !! optionEl = Some e ->
  let after := step this (Tap (Some optionEl)) in
  let data' := <[optionEl := countSelection e]> data in
  hasUserSelection_ after = true
  /\ optionsData_ after = Some data'
  /\ (forall j, j <> optionEl -> data' !! j = data !! j)
  /\ Engine.totalResponseCountOf data' = (Engine.totalResponseCountOf data + 1)%N
  /\ effects after
     = effects this
       ++ [TriggerAnalytics optionEl; MutateElement (SelectionMutation optionEl)]
       ++ (if hasEndpoint this && endpointIsHttp this
           then [ExecuteRequest POST (Some optionEl)] else [])
  /\ exists zs : list Z,
       Engine.preprocessPercentages_ toFixed2Pct data' = Int <$> zs
       /\ length zs = length data.
Proof.
  intros Hsel Hp Hd He. cbv zeta.
  rewrite step_cases, Hsel, Hp, onSelectionFulfilled_spec by done.
  unfold selectedData. rewrite Hd, He. cbn [snd hasUserSelection_ optionsData_ effects].
  assert (Hcount : Engine.totalResponseCountOf (<[optionEl := countSelection e]> data)
                   = (Engine.totalResponseCountOf data + 1)%N).
  { rewrite !EngineFacts.totalResponseCountOf_sum. by apply countSum_countSelection. }
  split; [done|]. split; [done|].
  split; [intros j Hj; by apply list_lookup_insert_ne|].
  split; [done|]. split; [done|].
  exists (EngineNotions.resultOf toFixed2Pct (<[optionEl := countSelection e]> data)).
  split.
  - apply EngineWhole.preprocess_shape. rewrite Hcount. lia.
  - by rewrite EngineWhole.resultOf_length, length_insert.
Qed.

Lemma tap_counts_the_tapped_entry_once_witness :
  let this := run [Layout;
                   Retrieved (ResponseObject (OptionsArray
                     [ {| optionIndex := 0; totalCount := 0; selectedByUser := false |};
                       {| optionIndex := 1; totalCount := 0; selectedByUser := false |} ]))]
                  twoOptions in
  hasUserSelection_ this = false
  /\ backendDataPromise_ this = Fulfilled
  /\ optionsData_ (step this (Tap (Some 1%nat)))
     = Some [ {| optionIndex := 0; totalCount := 0; selectedByUser := false |};
              {| optionIndex := 1; totalCount := 1; selectedByUser := true |} ].
Proof.
  cbv zeta. split; [reflexivity|]. split; [reflexivity|].
  destruct (tap_counts_the_tapped_entry_once
              (run [Layout;
                    Retrieved (ResponseObject (OptionsArray
                      [ {| optionIndex := 0; totalCount := 0; selectedByUser := false |};
                        {| optionIndex := 1; totalCount := 0; selectedByUser := false |} ]))]
                   twoOptions)
              1 _ _ Engine.toFixed2HalfUp eq_refl eq_refl eq_refl eq_refl)
    as (_ & Hd & _).
  exact Hd.
Defined.

(** *** What the aggregate data can be *)

Lemma asRetrieved_selected (n : nat) (entries d : list InteractiveOptionType) (b : bool) :
  asRetrieved n entries b d -> asRetrieved n entries (b || true) d
                               /\ asRetrieved n entries true d.
Proof.
  rewrite orb_true_r. intros [H|(_ & H)]; split; (by left) || (right; by split).
Qed.

Lemma dataOk_frame (n : nat) (seen : list (list InteractiveOptionType))
      (this this' : Component) :
  numOptions this' = numOptions this ->
  optionsData_ this' = optionsData_ this ->
  (hasUserSelection_ this' = hasUserSelection_ this \/ hasUserSelection_ this' = true) ->
  dataOk n seen this -> dataOk n seen this'.
Proof.
  intros Hn Hd Hs (Hnum & Hdata). unfold dataOk. rewrite Hn, Hd. split; [done|].
  destruct (optionsData_ this) as [d|]; [|done].
  destruct Hdata as (entries & Hin & Hshape). exists entries. split; [done|].
  destruct Hs as [-> | ->]; [done|].
  by apply (asRetrieved_selected n entries d (hasUserSelection_ this)).
Qed.

Lemma dataOk_step (n : nat) (seen : list (list InteractiveOptionType))
      (this : Component) (e : Event) :
  (forall entries, responseOf e = Some (ResponseObject (OptionsArray entries)) ->
                   entries ∈ seen) ->
  dataOk n seen this -> dataOk n seen (step this e).
Proof.
  apply (step_stable (dataOk n seen)
           (fun e => forall entries,
                responseOf e = Some (ResponseObject (OptionsArray entries)) ->
                entries ∈ seen)); clear.
  - intros this r. apply dataOk_frame; try done. by left.
  - intros this position. apply dataOk_frame; try done. by left.
  - intros this b. apply dataOk_frame; try done. by left.
  - intros this failed. rewrite runCatches_spec. apply dataOk_frame; try done.
    simpl. destruct (bool_decide (failed = [])); simpl.
    + left. by rewrite orb_false_r.
    + right. by rewrite orb_true_r.
  - intros this optionEl Hok.
    destruct (hasUserSelection_ this) eqn:Hsel.
    { by rewrite onSelectionFulfilled_selected. }
    rewrite onSelectionFulfilled_spec by done. unfold selectedData.
    destruct Hok as (Hnum & Hdata).
    destruct (optionsData_ this) as [d|] eqn:Hd.
    + destruct Hdata as (entries & Hin & Hshape). rewrite Hsel in Hshape.
      destruct Hshape as [->|(Habs & _)]; [|done].
      destruct (take n entries !! optionEl) as [x|] eqn:Hx; split; simpl; try done.
      * exists entries. split; [done|]. right. split; [done|]. eauto.
      * exists entries. split; [done|]. by left.
    + split; simpl; done.
  - intros this e response Hok He (Hnum & Hdata).
    destruct (handleSuccessfulDataRetrieval_cases response this)
      as [(entries & Ho & ->)|(_ & [->| ->])].
    + rewrite updateComponentOnDataRetrieval_spec. split; simpl; [done|].
      destruct response as [|[| |entries']]; simpl in Ho; try done.
      injection Ho as ->.
      exists entries. split; [by apply Hok|]. left. by rewrite Hnum.
    + done.
    + by split.
  - intros this _ Hok. rewrite layoutCallback_spec.
    apply (dataOk_frame n seen this); [done|done|by left|done].
Qed.

Lemma payloads_elem (events : list Event) (entries : list InteractiveOptionType) :
  entries ∈ payloads events
  <-> exists e, e ∈ events
                /\ responseOf e = Some (ResponseObject (OptionsArray entries)).
Proof.
  unfold payloads. rewrite list_elem_of_In, in_flat_map. split.
  - intros (e & He & Hin). apply list_elem_of_In in He. exists e. split; [done|].
    destruct e as [| |[|[| |entries']]| |position [|[| |entries']]|];
      simpl in Hin; try done; by destruct Hin as [->|[]].
  - intros (e & He & Hr). exists e. split; [by apply list_elem_of_In|].
    destruct e as [| |response| |position response|]; simpl in Hr; try done;
      injection Hr as ->; by left.
Qed.

(** X11: in every state a component can reach, the aggregate data, if
    there is any, is the first entries (as many as there are options) of a
    retrieved payload, either exactly as they came or, once a selection is
    recorded, with one single entry counted once more and flagged.  The
    payload is that of an answer to the request of the current promise or
    of a superseded one. *)
Theorem data_is_retrieved_entries_with_at_most_one_count
        (endpoint http : bool) (options : nat) (dev : bool) (events : list Event)
        (d : list InteractiveOptionType) :
  let this := run events (construct endpoint http options dev) in
  optionsData_ this = Some d ->
  exists entries,
    (Retrieved (ResponseObject (OptionsArray entries)) ∈ events
     \/ exists position,
          SupersededRetrieved position (ResponseObject (OptionsArray entries)) ∈ events)
    /\ (d = take options entries
        \/ (hasUserSelection_ this = true
            /\ exists i e, take options entries !! i = Some e
                           /\ d = <[i := countSelection e]> (take options entries))).
Proof.
  intros this Hd.
  assert (Hok : dataOk options (payloads events) this).
  { apply (run_stable (dataOk options (payloads events))
             (fun e => forall entries,
                  responseOf e = Some (ResponseObject (OptionsArray entries)) ->
                  entries ∈ payloads events)).
    - intros s e. apply dataOk_step.
    - apply Forall_forall. intros e He entries Hr. apply payloads_elem. eauto.
    - by split. }
  destruct Hok as (_ & Hdata). rewrite Hd in Hdata.
  destruct Hdata as (entries & Hin & Hshape).
  exists entries. split.
  - apply payloads_elem in Hin as (e & He & Hr).
    destruct e as [| |response| |position response|]; simpl in Hr; try done;
      injection Hr as ->; [by left|right; eauto].
  - destruct Hshape as [->|(Hs & i & e & Hi & ->)]; [by left|].
    right. split; [done|]. eauto.
Qed.

Lemma data_is_retrieved_entries_with_at_most_one_count_witness :
  let events := [Layout; Tap (Some 0%nat);
                 Retrieved (ResponseObject (OptionsArray
                   [ {| optionIndex := 0; totalCount := 4; selectedByUser := false |};
                     {| optionIndex := 1; totalCount := 2; selectedByUser := false |};
                     {| optionIndex := 2; totalCount := 9; selectedByUser := false |} ]))] in
  optionsData_ (run events twoOptions)
  = Some [ {| optionIndex := 0; totalCount := 5; selectedByUser := true |};
           {| optionIndex := 1; totalCount := 2; selectedByUser := false |} ]
  /\ exists entries,
       Retrieved (ResponseObject (OptionsArray entries)) ∈ events
       \/ exists position,
            SupersededRetrieved position (ResponseObject (OptionsArray entries)) ∈ events.
Proof.
  cbv zeta. split; [reflexivity|].
  destruct (data_is_retrieved_entries_with_at_most_one_count true true 2 false
              [Layout; Tap (Some 0%nat);
               Retrieved (ResponseObject (OptionsArray
                 [ {| optionIndex := 0; totalCount := 4; selectedByUser := false |};
                   {| optionIndex := 1; totalCount := 2; selectedByUser := false |};
                   {| optionIndex := 2; totalCount := 9; selectedByUser := false |} ]))]
              _ eq_refl) as (entries & Hin & _).
  exists entries. exact Hin.
Defined.

(** *** The callbacks of the retrieval *)

Lemma retrievalMutations_ok (n : nat) (data l : list InteractiveOptionType) (index : nat) :
  (length data <= n)%nat ->
  (forall j x, l !! j = Some x -> data !! (index + j)%nat = Some x) ->
  Forall (callbackOk n) (retrievalMutations data index l).
Proof.
  intros Hlen. revert index. induction l as [|x l IH]; intros index Hl; [constructor|].
  simpl. apply Forall_app. split.
  - destruct (selectedByUser x) eqn:Hx; [|constructor].
    constructor; [|constructor]. simpl.
    pose proof (Hl 0%nat x eq_refl) as H0. rewrite Nat.add_0_r in H0.
    split; [apply lookup_lt_Some in H0; lia|]. eauto.
  - apply IH. intros j y Hj. specialize (Hl (S j) y Hj).
    by replace (S index + j)%nat with (index + S j)%nat by lia.
Qed.

Lemma callbacksOk_frame (n : nat) (this this' : Component) (extra : list Effect) :
  numOptions this' = numOptions this ->
  effects this' = effects this ++ extra ->
  Forall (callbackOk n) extra ->
  callbacksOk n this -> callbacksOk n this'.
Proof.
  intros Hn E Hx (Hnum & Hall). split; [congruence|].
  rewrite E. apply Forall_app. done.
Qed.

Lemma callbacksOk_step (n : nat) (this : Component) (e : Event) :
  callbacksOk n this -> callbacksOk n (step this e).
Proof.
  intros Hok.
  apply (step_stable (callbacksOk n) (fun _ => True)); [| | | | | | |done|done]; clear.
  - intros this r. apply (callbacksOk_frame n this _ []); try done.
    simpl. by rewrite app_nil_r.
  - intros this position. apply (callbacksOk_frame n this _ []); try done.
    simpl. by rewrite app_nil_r.
  - intros this b. apply (callbacksOk_frame n this _ []); try done.
    simpl. by rewrite app_nil_r.
  - intros this failed. rewrite runCatches_spec.
    apply (callbacksOk_frame n this _ (fallbackEffects failed)); try done.
    clear. induction failed as [|i failed IH]; simpl; [constructor|].
    constructor; [done|]. constructor; [done|]. exact IH.
  - intros this optionEl.
    destruct (hasUserSelection_ this) eqn:Hsel.
    { by rewrite onSelectionFulfilled_selected. }
    rewrite onSelectionFulfilled_spec by done.
    destruct (selectedData this optionEl) as [data'|].
    + apply (callbacksOk_frame n this _ (selectionEffects this optionEl)); try done.
      unfold selectionEffects.
      destruct (hasEndpoint this && endpointIsHttp this); repeat constructor.
    + apply (callbacksOk_frame n this _ [TriggerAnalytics optionEl]); try done.
      repeat constructor.
  - intros this e response _ _ Hok.
    destruct (handleSuccessfulDataRetrieval_cases response this)
      as [(entries & _ & ->)|(_ & [->| ->])].
    + rewrite updateComponentOnDataRetrieval_spec. cbn [snd].
      apply (callbacksOk_frame n this _
               (retrievalMutations (take (numOptions this) entries) 0
                                   (take (numOptions this) entries))); try done.
      destruct Hok as [Hnum _]. apply retrievalMutations_ok.
      * rewrite length_take. lia.
      * intros j x Hj. exact Hj.
    + done.
    + apply (callbacksOk_frame n this _ [DevError]); try done. repeat constructor.
  - intros this _. rewrite layoutCallback_spec.
    apply (callbacksOk_frame n this _ (layoutEffects this)); try done.
    unfold layoutEffects.
    destruct (hasEndpoint this && endpointIsHttp this); repeat constructor.
Qed.

(** X12: whenever the retrieval asks for the update of the option at some
    position, that position is below the number of options, so that the
    option element exists, and the entry at that position of the data
    handed over is flagged as selected. *)
Theorem retrieval_callbacks_refer_to_existing_options
        (endpoint http : bool) (options : nat) (dev : bool) (events : list Event)
        (data : list InteractiveOptionType) (index : nat) :
  MutateElement (RetrievalMutation data index)
  ∈ effects (run events (construct endpoint http options dev)) ->
  (index < options)%nat
  /\ exists entry, data !! index = Some entry /\ selectedByUser entry = true.
Proof.
  intros Hin.
  assert (Hok : callbacksOk options (run events (construct endpoint http options dev))).
  { apply (run_stable (callbacksOk options) (fun _ => True)).
    - intros s e _. apply callbacksOk_step.
    - by apply Forall_forall.
    - split; [done|constructor]. }
  destruct Hok as [_ Hall]. rewrite Forall_forall in Hall.
  exact (Hall _ Hin).
Qed.

Lemma retrieval_callbacks_refer_to_existing_options_witness :
  MutateElement (RetrievalMutation (take 1 bothFlagged) 0)
  ∈ effects (run [Layout; Retrieved (ResponseObject (OptionsArray bothFlagged))]
                 (construct true true 1 false))
  /\ (0 < 1)%nat.
Proof.
  assert (H : MutateElement (RetrievalMutation (take 1 bothFlagged) 0)
              ∈ effects (run [Layout; Retrieved (ResponseObject (OptionsArray bothFlagged))]
                             (construct true true 1 false))).
  { vm_compute. apply list_elem_of_In. right. left. reflexivity. }
  split; [exact H|].
  exact (proj1 (retrieval_callbacks_refer_to_existing_options true true 1 false _ _ _ H)).
Defined.

(** *** After the selection *)

Lemma selected_is_settled (this : Component) :
  quiet this -> hasUserSelection_ this = true -> settled this.
Proof.
  unfold quiet, settled. intros [_ Hq] Hs.
  destruct (backendDataPromise_ this); try tauto;
    destruct Hq as (Hn & _); congruence.
Qed.

Lemma selected_settled_step (this : Component) (e : Event) :
  hasUserSelection_ this = true -> settled this -> superseded this = [] ->
  isLayout e = false -> step this e = this.
Proof.
  intros Hs Hset Ho He.
  destruct e as [|target|response| |position response|position]; [done| | | | |].
  - rewrite step_cases, Hs. by destruct (backendDataPromise_ this).
  - rewrite step_cases. by destruct Hset as [E|E]; rewrite E.
  - rewrite step_cases. by destruct Hset as [E|E]; rewrite E.
  - apply superseded_none; eauto.
  - apply superseded_none; eauto.
Qed.

Lemma selected_run (this : Component) (events : list Event) :
  hasUserSelection_ this = true -> settled this -> superseded this = [] ->
  countLayouts events = 0%nat -> run events this = this.
Proof.
  intros Hs Hset Ho. induction events as [|e events IH]; [done|].
  unfold countLayouts. simpl. destruct (isLayout e) eqn:He; [done|]. intros Hc.
  rewrite selected_settled_step by done. by apply IH.
Qed.

(** In a component laid out at most once, a selection is only recorded
    after the layout, on a settled promise. *)
Lemma selected_once (endpoint http : bool) (options : nat) (dev : bool)
      (before after : list Event) :
  (countLayouts (before ++ after) <= 1)%nat ->
  let this := run before (construct endpoint http options dev) in
  hasUserSelection_ this = true ->
  settled this /\ superseded this = [] /\ countLayouts after = 0%nat.
Proof.
  intros Hc this Hs. rewrite countLayouts_app in Hc.
  destruct (quiet_run endpoint http options dev before ltac:(lia)) as [Hq Hn].
  fold this in Hq, Hn.
  split; [by apply selected_is_settled|]. split; [by destruct Hq|].
  destruct (countLayouts before) as [|k] eqn:Ek; [|lia].
  destruct Hq as [_ Hq]. rewrite (Hn eq_refl) in Hq. destruct Hq as (Hf & _). congruence.
Qed.

(** X13: in a component laid out at most once, once a selection is
    recorded, by a tap or by the retrieved data, no event changes the
    component any more: no tap, retrieval result or failure alters its
    data, its promise or the calls it has made. *)
Theorem selection_is_final
        (endpoint http : bool) (options : nat) (dev : bool)
        (before after : list Event) :
  (countLayouts (before ++ after) <= 1)%nat ->
  let this := run before (construct endpoint http options dev) in
  hasUserSelection_ this = true ->
  run after this = this.
Proof.
  intros Hc this Hs.
  destruct (selected_once endpoint http options dev before after Hc Hs) as (Hset & Ho & Ha).
  by apply selected_run.
Qed.

Lemma selection_is_final_witness :
  let before := [Layout; Retrieved (ResponseObject (OptionsArray earlierAnswer))] in
  let after := [Tap (Some 0%nat); RetrievalFailed;
                Retrieved (ResponseObject (OptionsArray bothFlagged));
                SupersededRetrieved 0 (ResponseObject (OptionsArray bothFlagged))] in
  (countLayouts (before ++ after) <= 1)%nat
  /\ hasUserSelection_ (run before twoOptions) = true
  /\ run after (run before twoOptions) = run before twoOptions.
Proof.
  cbv zeta.
  assert (Hc : (countLayouts
                  ([Layout; Retrieved (ResponseObject (OptionsArray earlierAnswer))]
                   ++ [Tap (Some 0%nat); RetrievalFailed;
                       Retrieved (ResponseObject (OptionsArray bothFlagged));
                       SupersededRetrieved 0 (ResponseObject (OptionsArray bothFlagged))])
                <= 1)%nat) by (vm_compute; lia).
  split; [exact Hc|]. split; [reflexivity|].
  exact (selection_is_final true true 2 false
           [Layout; Retrieved (ResponseObject (OptionsArray earlierAnswer))]
           [Tap (Some 0%nat); RetrievalFailed;
            Retrieved (ResponseObject (OptionsArray bothFlagged));
            SupersededRetrieved 0 (ResponseObject (OptionsArray bothFlagged))]
           Hc eq_refl).
Defined.

(** *** The display *)

Lemma fallbackEffects_mutations (failed : list nat) :
  failed = [] -> List.filter isMutation (fallbackEffects failed) = [].
Proof. by intros ->. Qed.

Lemma retrievalMutations_none (data l : list InteractiveOptionType) (index : nat) :
  existsb selectedByUser l = false -> retrievalMutations data index l = [].
Proof.
  revert index. induction l as [|x l IH]; intros index H; [done|].
  simpl in *. apply orb_false_iff in H as [-> H]. by apply IH.
Qed.

Lemma callbacksAfterSelection_frame (this this' : Component) (extra : list Effect) :
  effects this' = effects this ++ extra ->
  (hasUserSelection_ this = true -> hasUserSelection_ this' = true) ->
  (hasUserSelection_ this' = true \/ List.filter isMutation extra = []) ->
  callbacksAfterSelection this -> callbacksAfterSelection this'.
Proof.
  intros E Hs Hx [Hsel|Hnone]; [left; by apply Hs|].
  destruct Hx as [Hx|Hx]; [by left|]. right.
  rewrite (countCalls_app isMutation this this' extra E), Hnone, Hx. done.
Qed.

Lemma callbacksAfterSelection_step (this : Component) (e : Event) :
  callbacksAfterSelection this -> callbacksAfterSelection (step this e).
Proof.
  intros Hok.
  apply (step_stable callbacksAfterSelection (fun _ => True));
    [| | | | | | |done|done]; clear.
  - intros this r. apply (callbacksAfterSelection_frame this _ []); try done.
    + simpl. by rewrite app_nil_r.
    + by right.
  - intros this position. apply (callbacksAfterSelection_frame this _ []); try done.
    + simpl. by rewrite app_nil_r.
    + by right.
  - intros this b. apply (callbacksAfterSelection_frame this _ []); try done.
    + simpl. by rewrite app_nil_r.
    + by right.
  - intros this failed. rewrite runCatches_spec.
    apply (callbacksAfterSelection_frame this _ (fallbackEffects failed)); try done.
    + simpl. by intros ->.
    + simpl. destruct failed; [by right|left; by rewrite orb_true_r].
  - intros this optionEl _. left. apply onSelectionFulfilled_locks.
  - intros this e response _ _.
    destruct (handleSuccessfulDataRetrieval_cases response this)
      as [(entries & _ & ->)|(_ & [->| ->])].
    + rewrite updateComponentOnDataRetrieval_spec. cbn [snd].
      apply (callbacksAfterSelection_frame this _
               (retrievalMutations (take (numOptions this) entries) 0
                                   (take (numOptions this) entries))); try done.
      * simpl. by intros ->.
      * simpl. destruct (existsb selectedByUser (take (numOptions this) entries)) eqn:Ex.
        -- left. by rewrite orb_true_r.
        -- right. by rewrite retrievalMutations_none.
    + done.
    + apply (callbacksAfterSelection_frame this _ [DevError]); try done. by right.
  - intros this _. rewrite layoutCallback_spec.
    apply (callbacksAfterSelection_frame this _ (layoutEffects this)); try done.
    right. unfold layoutEffects. by destruct (hasEndpoint this && endpointIsHttp this).
Qed.

(** X14: in a component laid out at most once, a callback handed to
    [mutateElement] finds the component as it was left when the callback
    was asked for, however late it runs and whatever taps and answers come
    in between; it runs to its end, marks the root as post-selection, and
    marks it as having data exactly when aggregate data is stored. *)
Theorem callbacks_show_the_state_they_were_asked_in
        (endpoint http : bool) (options : nat) (dev : bool)
        (before between : list Event) (callback : Mutation) :
  (countLayouts (before ++ between) <= 1)%nat ->
  let this := run before (construct endpoint http options dev) in
  MutateElement callback ∈ effects this ->
  let shown := Display.runCallback callback (run between this) in
  shown = Display.runCallback callback this
  /\ shown.1 = Normal tt
  /\ Display.AddClass Display.Root "i-amphtml-story-interactive-post-selection" ∈ shown.2
  /\ (Display.AddClass Display.Root "i-amphtml-story-interactive-has-data" ∈ shown.2
      <-> optionsData_ this <> None).
Proof.
  intros Hc this Hin.
  assert (Hsel : hasUserSelection_ this = true).
  { assert (Hok : callbacksAfterSelection this).
    { apply (run_stable callbacksAfterSelection (fun _ => True)).
      - intros s e _. apply callbacksAfterSelection_step.
      - by apply Forall_forall.
      - by right. }
    destruct Hok as [Hs|Hnone]; [done|].
    unfold countCalls in Hnone. apply length_zero_iff_nil in Hnone.
    assert (Hf : MutateElement callback ∈ List.filter isMutation (effects this)).
    { apply list_elem_of_In, List.filter_In. split; [by apply list_elem_of_In|done]. }
    rewrite Hnone in Hf. by apply elem_of_nil in Hf. }
  destruct (selected_once endpoint http options dev before between Hc Hsel)
    as (Hset & Hold & Hb).
  assert (Hcb : callbacksOk options this).
  { apply (run_stable (callbacksOk options) (fun _ => True)).
    - intros s e _. apply callbacksOk_step.
    - by apply Forall_forall.
    - split; [done|constructor]. }
  destruct Hcb as [Hnum Hall]. rewrite Forall_forall in Hall. specialize (Hall _ Hin).
  cbv zeta. rewrite (selected_run this between Hsel Hset Hold Hb). split; [done|].
  assert (Hup : forall el (pre : list Display.DisplayOp),
            (forall x, x ∈ pre -> exists d, x = Display.UpdateOptionPercentages d) ->
            let r := Display.updateToPostSelectionState_ (Some el) this in
            r.1 = Normal tt
            /\ Display.AddClass Display.Root "i-amphtml-story-interactive-post-selection"
               ∈ pre ++ r.2
            /\ (Display.AddClass Display.Root "i-amphtml-story-interactive-has-data"
                ∈ pre ++ r.2 <-> optionsData_ this <> None)).
  { intros el pre Hpre. simpl. split; [done|]. split.
    - apply elem_of_app. right. apply elem_of_cons. by left.
    - rewrite elem_of_app. split.
      + intros [Hx|Hx]; [destruct (Hpre _ Hx) as [d Hd]; discriminate Hd|].
        destruct (optionsData_ this); [done|]. simpl in Hx.
        repeat (apply elem_of_cons in Hx as [Hx|Hx]; [discriminate Hx|]).
        by apply elem_of_nil in Hx.
      + intros Hd. right. destruct (optionsData_ this); [|done].
        simpl. do 2 (apply elem_of_cons; right). apply elem_of_cons. by left. }
  destruct callback as [optionEl|optionEl|data index].
  - unfold Display.runCallback.
    set (pre := match optionsData_ this with
                | Some d => [Display.UpdateOptionPercentages d] | None => [] end).
    assert (Hpre : forall x, x ∈ pre -> exists d, x = Display.UpdateOptionPercentages d).
    { intros x Hx. unfold pre in Hx. destruct (optionsData_ this) as [d|].
      - apply elem_of_cons in Hx as [->|Hx]; [eauto|by apply elem_of_nil in Hx].
      - by apply elem_of_nil in Hx. }
    specialize (Hup (Display.TappedOption optionEl) pre Hpre).
    destruct (Display.updateToPostSelectionState_ _ this) as [c ops]. exact Hup.
  - unfold Display.runCallback.
    exact (Hup (Display.TappedOption optionEl) [] ltac:(intros x Hx; by apply elem_of_nil in Hx)).
  - simpl in Hall. destruct Hall as [Hlt _].
    unfold Display.runCallback, Display.optionAt. rewrite Hnum.
    destruct (Nat.ltb_spec index options) as [_|Hge]; [|lia].
    assert (Hpre : forall x, x ∈ [Display.UpdateOptionPercentages data] ->
                             exists d, x = Display.UpdateOptionPercentages d).
    { intros x Hx. apply elem_of_cons in Hx as [->|Hx]; [eauto|by apply elem_of_nil in Hx]. }
    specialize (Hup (Display.OptionAt index) _ Hpre).
    destruct (Display.updateToPostSelectionState_ _ this) as [c ops]. exact Hup.
Qed.

Lemma callbacks_show_the_state_they_were_asked_in_witness :
  let before := [Layout; Tap (Some 1%nat); RetrievalFailed] in
  let between := [Tap (Some 0%nat); Retrieved (ResponseObject (OptionsArray earlierAnswer))] in
  let this := run before twoOptions in
  (countLayouts (before ++ between) <= 1)%nat
  /\ MutateElement (FallbackMutation 1) ∈ effects this
  /\ Display.runCallback (FallbackMutation 1) (run between this)
     = (Normal tt,
        [Display.AddClass Display.Root "i-amphtml-story-interactive-post-selection";
         Display.AddClass (Display.TappedOption 1)
                          "i-amphtml-story-interactive-option-selected"]).
Proof.
  cbv zeta.
  assert (Hc : (countLayouts
                  ([Layout; Tap (Some 1%nat); RetrievalFailed]
                   ++ [Tap (Some 0%nat);
                       Retrieved (ResponseObject (OptionsArray earlierAnswer))])
                <= 1)%nat) by (vm_compute; lia).
  assert (H : MutateElement (FallbackMutation 1)
              ∈ effects (run [Layout; Tap (Some 1%nat); RetrievalFailed] twoOptions)).
  { vm_compute. apply list_elem_of_In. right. right. left. reflexivity. }
  split; [exact Hc|]. split; [exact H|].
  destruct (callbacks_show_the_state_they_were_asked_in true true 2 false
              [Layout; Tap (Some 1%nat); RetrievalFailed]
              [Tap (Some 0%nat); Retrieved (ResponseObject (OptionsArray earlierAnswer))]
              (FallbackMutation 1) Hc H) as (Heq & _).
  exact (eq_trans Heq eq_refl).
Defined.

End LifecycleExtras.

(** * Reading the options: facts *)

Module OptionsFacts.
Import Strings.Ascii Options OptionsNotions.

Lemma afterPrefix_spec p s r : afterPrefix p s = Some r <-> s = p ++ r.
Proof.
  revert s. induction p as [|a p IH]; intros [|b s]; simpl.
  - split; [by intros [= <-] | by intros <-].
  - split; [by intros [= <-] | by intros <-].
  - split; done.
  - destruct (decide (a = b)) as [<-|Hne].
    + rewrite IH. split; [by intros -> | by intros [= ->]].
    + split; [done | by intros [= ? ?]].
Qed.

Lemma digits_split s : s = takeDigits s ++ dropDigits s.
Proof.
  induction s as [|c s IH]; [done|]. simpl.
  destruct (isDigit c); [|done]. simpl. by rewrite <- IH.
Qed.

Lemma takeDigits_digits s : forallb isDigit (takeDigits s) = true.
Proof.
  induction s as [|c s IH]; [done|]. simpl.
  destruct (isDigit c) eqn:E; [|done]. simpl. by rewrite E.
Qed.

Lemma takeDigits_app ds c r :
  forallb isDigit ds = true -> isDigit c = false ->
  takeDigits (ds ++ c :: r) = ds /\ dropDigits (ds ++ c :: r) = c :: r.
Proof.
  intros Hds Hc. induction ds as [|d ds IH]; simpl.
  - by rewrite Hc.
  - simpl in Hds. apply andb_prop in Hds as [Hd Hds]. rewrite Hd.
    destruct (IH Hds) as [-> ->]. done.
Qed.

Lemma takeDigits_all ds : forallb isDigit ds = true -> takeDigits ds = ds.
Proof.
  induction ds as [|d ds IH]; [done|]. simpl. intros H.
  apply andb_prop in H as [-> H]. by rewrite IH.
Qed.

Lemma matchesOption_spec name :
  matchesOption name = true <->
  exists ds w, wellFormed ds w
               /\ name = String.list_ascii_of_string "option-" ++ ds ++ hyphen :: w.
Proof.
  unfold matchesOption. split.
  - destruct (afterPrefix _ name) as [rest|] eqn:Hp; [|done].
    apply afterPrefix_spec in Hp.
    destruct (takeDigits rest) as [|d ds] eqn:Ht; [done|].
    destruct (dropDigits rest) as [|sep word] eqn:Hd; [done|].
    intros H. apply andb_prop in H as [H Hw]. apply andb_prop in H as [Hs Hn].
    apply bool_decide_eq_true in Hs as ->.
    apply negb_true_iff, bool_decide_eq_false in Hn.
    exists (d :: ds), word. split.
    + split; [done|]. split; [|done]. rewrite <- Ht. apply takeDigits_digits.
    + rewrite Hp. f_equal. rewrite <- Ht, <- Hd. apply digits_split.
  - intros (ds & w & (Hne & Hds & Hwne & Hw) & ->).
    assert (Hp : afterPrefix (String.list_ascii_of_string "option-")
                   (String.list_ascii_of_string "option-" ++ ds ++ hyphen :: w)
                 = Some (ds ++ hyphen :: w)) by by apply afterPrefix_spec.
    rewrite Hp. destruct (takeDigits_app ds hyphen w Hds eq_refl) as [-> ->].
    destruct ds as [|d ds]; [done|].
    rewrite Hw, bool_decide_eq_true_2 by done.
    by rewrite bool_decide_eq_false_2.
Qed.

Lemma splitFrom_plain cur l :
  Forall (fun c => c <> hyphen) l -> splitFrom cur l = [cur ++ l].
Proof.
  intros H. revert cur. induction H as [|c l Hc _ IH]; intros cur; simpl.
  - by rewrite app_nil_r.
  - destruct (decide (c = hyphen)); [done|]. rewrite IH. by rewrite <- app_assoc.
Qed.

Lemma splitFrom_hyphen cur l r :
  Forall (fun c => c <> hyphen) l ->
  splitFrom cur (l ++ hyphen :: r) = (cur ++ l) :: splitFrom [] r.
Proof.
  intros H. revert cur. induction H as [|c l Hc _ IH]; intros cur; simpl.
  - destruct (decide (hyphen = hyphen)); [|done]. by rewrite app_nil_r.
  - destruct (decide (c = hyphen)); [done|]. rewrite IH. by rewrite <- app_assoc.
Qed.

Lemma digits_no_hyphen ds :
  forallb isDigit ds = true -> Forall (fun c => c <> hyphen) ds.
Proof.
  induction ds as [|d ds IH]; simpl; [constructor|].
  intros H. apply andb_prop in H as [Hd H]. constructor; [|by apply IH].
  intros ->. done.
Qed.

Lemma word_no_hyphen w :
  forallb isWordChar w = true -> Forall (fun c => c <> hyphen) w.
Proof.
  induction w as [|d w IH]; simpl; [constructor|].
  intros H. apply andb_prop in H as [Hd H]. constructor; [|by apply IH].
  intros ->. done.
Qed.

Lemma split_option ds w :
  wellFormed ds w ->
  split (String.list_ascii_of_string "option-" ++ ds ++ hyphen :: w)
  = [String.list_ascii_of_string "option"; ds; w].
Proof.
  intros (_ & Hds & _ & Hw). unfold split.
  change (String.list_ascii_of_string "option-" ++ ds ++ hyphen :: w)
    with (String.list_ascii_of_string "option" ++ hyphen :: (ds ++ hyphen :: w)).
  rewrite splitFrom_hyphen by (repeat constructor; done).
  rewrite splitFrom_hyphen by by apply digits_no_hyphen.
  rewrite splitFrom_plain by by apply word_no_hyphen.
  done.
Qed.

Lemma parseInt_digits ds :
  ds <> [] -> forallb isDigit ds = true -> parseInt ds = Some (decimal ds).
Proof.
  intros Hne Hds. unfold parseInt. rewrite takeDigits_all by done.
  by destruct ds.
Qed.

Lemma readName_optionName ds w :
  wellFormed ds w ->
  readName (optionName ds w) = Some (Some (decimal ds), String.string_of_list_ascii w).
Proof.
  intros Hwf. unfold readName, optionName.
  rewrite String.list_ascii_of_string_of_list_ascii.
  assert (Hm : matchesOption
                 (String.list_ascii_of_string "option-" ++ ds ++ hyphen :: w) = true)
    by (apply matchesOption_spec; eauto).
  rewrite Hm, split_option by done. unfold part. simpl.
  destruct Hwf as (? & ? & _). by rewrite parseInt_digits.
Qed.

Lemma readName_inv name r :
  readName name = Some r ->
  exists ds w, wellFormed ds w /\ name = optionName ds w
               /\ r = (Some (decimal ds), String.string_of_list_ascii w).
Proof.
  intros H. pose proof H as H'. unfold readName in H.
  destruct (matchesOption _) eqn:Hm; [|done]. clear H.
  apply matchesOption_spec in Hm as (ds & w & Hwf & Hn).
  assert (En : name = optionName ds w).
  { unfold optionName. rewrite <- Hn. by rewrite String.string_of_list_ascii_of_string. }
  exists ds, w. split; [done|]. split; [done|].
  rewrite En, readName_optionName in H' by done. by injection H' as <-.
Qed.

Lemma readName_number name key : readName name <> Some (None, key).
Proof. intros H. apply readName_inv in H as (ds & w & _ & _ & [=]). Qed.

(** *** The loop *)

Lemma pushOptions_spec k options :
  pushOptions k options = options ++ (bare <$> seq (length options) k).
Proof.
  revert options. induction k as [|k IH]; intros options; simpl.
  - by rewrite app_nil_r.
  - rewrite IH, length_app. simpl. rewrite <- app_assoc. simpl.
    by rewrite Nat.add_1_r.
Qed.

Lemma pushOptions_length k options :
  length (pushOptions k options) = (length options + k)%nat.
Proof. by rewrite pushOptions_spec, length_app, length_fmap, length_seq. Qed.

Lemma pushOptions_at k options i :
  objectAt (pushOptions k options) i = objectAt options i.
Proof.
  unfold objectAt. rewrite pushOptions_spec.
  destruct (decide (i < length options)%nat) as [Hlt|Hge].
  - by rewrite lookup_app_l.
  - rewrite lookup_app_r by lia. rewrite (lookup_ge_None_2 options i) by lia.
    rewrite list_lookup_fmap.
    destruct (decide (i - length options < k)%nat) as [Hk|Hk].
    + rewrite lookup_seq_lt by done. simpl. f_equal. lia.
    + by rewrite lookup_seq_ge by lia.
Qed.

Lemma objectAt_lookup options i :
  (i < length options)%nat -> options !! i = Some (objectAt options i).
Proof.
  intros H. unfold objectAt. by destruct (lookup_lt_is_Some_2 options i H) as [o ->].
Qed.

Lemma readAttribute_option options attr n key :
  readName attr.1 = Some (Some n, key) ->
  if unservable n
  then readAttribute options attr
       = Abort (if (n =? 0)%N then TypeError else RangeError)
  else exists options',
      readAttribute options attr = Continue options'
      /\ length options' = (length options `max` N.to_nat n)%nat
      /\ forall i, objectAt options' i
                   = if decide (N.to_nat n = S i)
                     then setProperty key attr.2 (objectAt options i)
                     else objectAt options i.
Proof.
  intros Hr. unfold readAttribute, unservable. rewrite Hr.
  destruct (n =? 0)%N eqn:E0; simpl.
  - apply N.eqb_eq in E0 as ->. done.
  - apply N.eqb_neq in E0.
    destruct (maxArrayLength <? n)%N eqn:Em; [done|].
    destruct (N.to_nat n) as [|index] eqn:En; [lia|].
    set (pushed := pushOptions (S index - length options) options).
    assert (Hlen : length pushed = (length options `max` S index)%nat)
      by (unfold pushed; rewrite pushOptions_length; lia).
    rewrite (objectAt_lookup pushed index) by lia.
    eexists. split; [done|]. split; [by rewrite length_insert|].
    intros i. unfold objectAt at 1.
    destruct (decide (S index = S i)) as [[= ->]|Hne].
    + rewrite list_lookup_insert_eq by lia. simpl.
      unfold pushed. by rewrite pushOptions_at.
    + rewrite list_lookup_insert_ne by congruence.
      fold (objectAt pushed i). apply pushOptions_at.
Qed.

Lemma readAttribute_other options attr :
  (forall n key, readName attr.1 <> Some (Some n, key)) ->
  readAttribute options attr = Continue options.
Proof.
  intros H. unfold readAttribute.
  destruct (readName attr.1) as [[[n|] key]|] eqn:Hr; [|by apply readName_number in Hr|done].
  by destruct (H n key).
Qed.

Lemma optionAttributes_cons attr rest :
  optionAttributes (attr :: rest)
  = match readName attr.1 with
    | Some (Some n, key) => (n, key, attr.2) :: optionAttributes rest
    | _ => optionAttributes rest
    end.
Proof.
  unfold optionAttributes. simpl.
  by destruct (readName attr.1) as [[[n|] key]|].
Qed.

Lemma readAttributes_spec attributes : forall options,
  match firstUnservable attributes with
  | Some n =>
      readAttributes options attributes
      = Abort (if (n =? 0)%N then TypeError else RangeError)
  | None =>
      exists final,
        readAttributes options attributes = Continue final
        /\ length final = (length options `max` highestNumber attributes)%nat
        /\ forall i, objectAt final i = objectOf attributes (S i) (objectAt options i)
  end.
Proof.
  unfold firstUnservable, highestNumber, numbers, objectOf.
  induction attributes as [|attr rest IH]; intros options.
  - simpl. exists options. split; [done|]. split; [lia|done].
  - rewrite optionAttributes_cons. simpl.
    destruct (readName attr.1) as [[[n|] key]|] eqn:Hr.
    + pose proof (readAttribute_option options attr n key Hr) as Hstep.
      simpl. destruct (unservable n) eqn:Hu.
      * by rewrite Hstep.
      * destruct Hstep as (options' & -> & Hlen & Hat).
        specialize (IH options').
        destruct (List.find _ _) as [m|]; [done|].
        destruct IH as (final & -> & Hl & Hf). exists final.
        split; [done|]. split; [rewrite Hl, Hlen; apply eq_sym, Nat.max_assoc|].
        intros i. by rewrite Hf, Hat.
    + by apply readName_number in Hr.
    + rewrite readAttribute_other by (intros ??; congruence).
      apply IH.
Qed.

Lemma objectOf_lookup attributes n key base :
  objectOf attributes n base !! key
  = if decide (key = "__proto__"%string) then base !! key
    else match lastValue attributes n key with
         | Some value => Some (Str value)
         | None => base !! key
         end.
Proof.
  unfold objectOf, lastValue.
  induction (optionAttributes attributes) as [|t ts IH] using rev_ind.
  - simpl. by destruct (decide _).
  - rewrite fold_left_app, filter_app, filter_cons, filter_nil. simpl.
    destruct (decide (key = "__proto__"%string)) as [Hkp|Hkp].
    + destruct (decide (N.to_nat t.1.1 = n)); [|done].
      unfold setProperty.
      destruct (decide (t.1.2 = "__proto__"%string)); [done|].
      rewrite lookup_insert_ne by congruence. done.
    + destruct (decide (N.to_nat t.1.1 = n /\ t.1.2 = key)) as [[Hn Hk]|Hc].
      * rewrite decide_True by done. rewrite last_snoc. simpl.
        unfold setProperty. rewrite decide_False by congruence.
        by rewrite Hk, lookup_insert_eq.
      * rewrite app_nil_r.
        destruct (decide (N.to_nat t.1.1 = n)) as [Hn|Hn]; [|done].
        unfold setProperty.
        destruct (decide (t.1.2 = "__proto__"%string)); [done|].
        rewrite lookup_insert_ne; [done|]. intros Hk. by apply Hc.
Qed.

Lemma parseOptions_spec attributes optionBounds_ devAsserts :
  match firstUnservable attributes with
  | Some n =>
      parseOptions_ attributes optionBounds_ devAsserts
      = Thrown (if (n =? 0)%N then TypeError else RangeError)
  | None =>
      exists options,
        readAttributes [] attributes = Continue options
        /\ length options = highestNumber attributes
        /\ (forall i, (i < length options)%nat ->
                      options !! i = Some (objectOf attributes (S i) (bare i)))
        /\ parseOptions_ attributes optionBounds_ devAsserts
           = if (optionBounds_.1 <=? highestNumber attributes)%nat
                && (highestNumber attributes <=? optionBounds_.2)%nat
             then Options options
             else if devAsserts then Thrown AssertionError else Undefined
  end.
Proof.
  pose proof (readAttributes_spec attributes []) as H. unfold parseOptions_.
  destruct (firstUnservable attributes) as [n|].
  - by rewrite H.
  - destruct H as (final & -> & Hl & Hf). simpl in Hl. exists final.
    split; [done|]. split; [done|]. split; [|by rewrite Hl].
    intros i Hi. rewrite objectAt_lookup by done. by rewrite Hf.
Qed.

Lemma withinBounds_test optionBounds_ n :
  withinBounds optionBounds_ n
  <-> (optionBounds_.1 <=? n)%nat && (n <=? optionBounds_.2)%nat = true.
Proof.
  unfold withinBounds. rewrite andb_true_iff, !Nat.leb_le. done.
Qed.

Lemma readAttributes_filter attributes : forall options,
  readAttributes options (List.filter isOptionAttribute attributes)
  = readAttributes options attributes.
Proof.
  induction attributes as [|attr rest IH]; intros options; [done|]. simpl.
  unfold isOptionAttribute at 1.
  destruct (readName attr.1) as [r|] eqn:Hr.
  - rewrite bool_decide_eq_true_2 by by eexists. simpl.
    destruct (readAttribute options attr); [apply IH|done].
  - rewrite bool_decide_eq_false_2 by by intros [? ?].
    rewrite (readAttribute_other options attr) by (intros ??; congruence).
    apply IH.
Qed.

Lemma find_None_Forall {A} (f : A -> bool) l :
  List.find f l = None <-> Forall (fun x => f x = false) l.
Proof.
  induction l as [|x l IH]; simpl.
  - split; [constructor|done].
  - destruct (f x) eqn:E.
    + split; [done|]. intros H. apply Forall_cons in H as [H _]. congruence.
    + rewrite IH. split; [by constructor|]. intros H. by apply Forall_cons in H as [_ H].
Qed.

Lemma max_list_Permutation l1 l2 : l1 ≡ₚ l2 -> max_list l1 = max_list l2.
Proof. induction 1; simpl; lia. Qed.

Lemma filter_target_nil ts n key :
  (n, key) ∉ target <$> ts ->
  filter (fun t => N.to_nat t.1.1 = n /\ t.1.2 = key) ts = [].
Proof.
  intros Hn.
  destruct (filter _ ts) as [|x l] eqn:E; [done|]. exfalso. apply Hn.
  assert (Hx : x ∈ filter (fun t => N.to_nat t.1.1 = n /\ t.1.2 = key) ts)
    by (rewrite E; apply list_elem_of_here).
  apply list_elem_of_filter in Hx as [[<- <-] Hx].
  by apply (list_elem_of_fmap_2 target).
Qed.

Lemma last_filter_unique ts t n key :
  NoDup (target <$> ts) -> t ∈ ts -> target t = (n, key) ->
  last (filter (fun t => N.to_nat t.1.1 = n /\ t.1.2 = key) ts) = Some t.
Proof.
  intros Hnd Hin Ht. induction ts as [|a ts IH]; [by apply elem_of_nil in Hin|].
  rewrite fmap_cons in Hnd. apply NoDup_cons in Hnd as [Ha Hnd].
  rewrite filter_cons.
  apply elem_of_cons in Hin as [->|Hin].
  - injection Ht as Hn Hk. rewrite decide_True by done.
    rewrite filter_target_nil; [done|]. unfold target in Ha. by rewrite <- Hn, <- Hk.
  - destruct (decide (N.to_nat a.1.1 = n /\ a.1.2 = key)) as [[Hn Hk]|Hc].
    + exfalso. apply Ha. replace (target a) with (target t)
        by (rewrite Ht; unfold target; congruence).
      by apply (list_elem_of_fmap_2 target).
    + by apply IH.
Qed.

Lemma last_filter_Permutation ts1 ts2 n key :
  ts1 ≡ₚ ts2 -> NoDup (target <$> ts1) ->
  last (filter (fun t => N.to_nat t.1.1 = n /\ t.1.2 = key) ts1)
  = last (filter (fun t => N.to_nat t.1.1 = n /\ t.1.2 = key) ts2).
Proof.
  intros Hp Hnd.
  destruct (last (filter _ ts1)) as [t|] eqn:E.
  - apply last_Some_elem_of, list_elem_of_filter in E as [[Hn Hk] Hin].
    symmetry. apply last_filter_unique.
    + by rewrite <- Hp.
    + by rewrite <- Hp.
    + unfold target. congruence.
  - apply last_None in E. symmetry. apply last_None.
    apply Permutation_nil_r. rewrite <- E. by rewrite Hp.
Qed.

Lemma objectOf_Permutation attributes1 attributes2 n base :
  attributes1 ≡ₚ attributes2 ->
  NoDup (target <$> optionAttributes attributes1) ->
  objectOf attributes1 n base = objectOf attributes2 n base.
Proof.
  intros Hp Hnd. apply map_eq. intros key. rewrite !objectOf_lookup.
  unfold lastValue.
  rewrite (last_filter_Permutation (optionAttributes attributes1)
                                   (optionAttributes attributes2)); [done| |done].
  unfold optionAttributes. by rewrite Hp.
Qed.

End OptionsFacts.

(** * Reading the options: what [parseOptions_] returns *)

Module OptionParsing.
Import Strings.Ascii Options OptionsNotions OptionsFacts.

(** X15: an attribute is read as an option attribute exactly when its name
    is [option-], one or more digits, a hyphen, and one or more letters,
    digits or underscores; the option number is then the number the digits
    write in decimal (never not-a-number) and the property name is the
    word. *)
Theorem option_attribute_names name r :
  readName name = Some r <->
  exists digits word,
    wellFormed digits word /\ name = optionName digits word
    /\ r = (Some (decimal digits), String.string_of_list_ascii word).
Proof.
  split; [apply readName_inv|].
  intros (ds & w & Hwf & -> & ->). by apply readName_optionName.
Qed.

(** X16: when every option number is at least 1 and an array can be that
    long, and the highest option number lies within the bounds,
    [parseOptions_] returns a list with exactly as many options as the
    highest number: the numbers left out are filled in. *)
Theorem options_count_is_highest_number attributes optionBounds_ devAsserts :
  firstUnservable attributes = None ->
  withinBounds optionBounds_ (highestNumber attributes) ->
  exists options,
    parseOptions_ attributes optionBounds_ devAsserts = Options options
    /\ length options = highestNumber attributes.
Proof.
  intros Hu Hb. pose proof (parseOptions_spec attributes optionBounds_ devAsserts) as H.
  rewrite Hu in H. destruct H as (options & _ & Hl & _ & ->).
  apply withinBounds_test in Hb. rewrite Hb. by exists options.
Qed.

Lemma options_count_is_highest_number_witness :
  exists options,
    parseOptions_ [("id", "quiz"); ("option-3-text", "C"); ("option-1-text", "A")]%string
                  (2, 4)%nat false = Options options
    /\ length options
       = highestNumber [("id", "quiz"); ("option-3-text", "C"); ("option-1-text", "A")]%string.
Proof.
  apply (options_count_is_highest_number
           [("id", "quiz"); ("option-3-text", "C"); ("option-1-text", "A")]%string
           (2, 4)%nat false).
  - reflexivity.
  - vm_compute. lia.
Defined.

(** X17: in the list [parseOptions_] returns, the option at position [i]
    holds under each property name the value of the last attribute
    [option-(i+1)-name]; where no attribute gives it, [optionIndex] is [i]
    and any other property is absent.  Nothing is ever stored under
    [__proto__]. *)
Theorem option_properties attributes optionBounds_ devAsserts options i object key :
  parseOptions_ attributes optionBounds_ devAsserts = Options options ->
  options !! i = Some object ->
  object !! key
  = if decide (key = "__proto__"%string) then None
    else match lastValue attributes (S i) key with
         | Some value => Some (Str value)
         | None => if decide (key = "optionIndex"%string) then Some (Num i) else None
         end.
Proof.
  intros Hp Ho.
  pose proof (parseOptions_spec attributes optionBounds_ devAsserts) as H.
  destruct (firstUnservable attributes) as [n|]; [by rewrite Hp in H|].
  destruct H as (options' & _ & _ & Hf & H). rewrite Hp in H.
  destruct (_ && _); [|by destruct devAsserts]. injection H as <-.
  rewrite Hf in Ho by by eapply lookup_lt_Some. injection Ho as <-.
  rewrite objectOf_lookup. unfold bare.
  destruct (decide (key = "__proto__"%string)) as [->|_]; [done|].
  destruct (lastValue _ _ _); [done|].
  destruct (decide (key = "optionIndex"%string)) as [->|Hk].
  - by rewrite lookup_singleton_eq.
  - by rewrite lookup_singleton_ne.
Qed.

Lemma option_properties_witness :
  parseOptions_ [("option-2-text", "B"); ("option-1-text", "A"); ("option-01-text", "Z")]%string
                (2, 4)%nat false
  = Options [<["text"%string := Str "Z"]> (bare 0); <["text"%string := Str "B"]> (bare 1)]
  /\ (<["text"%string := Str "Z"]> (bare 0) : gmap string Value) !! "text"%string
     = Some (Str "Z").
Proof.
  assert (H1 : parseOptions_
                 [("option-2-text", "B"); ("option-1-text", "A"); ("option-01-text", "Z")]%string
                 (2, 4)%nat false
               = Options [<["text"%string := Str "Z"]> (bare 0);
                          <["text"%string := Str "B"]> (bare 1)])
    by (vm_compute; reflexivity).
  split; [exact H1|].
  refine (eq_trans (option_properties _ _ _ _ 0%nat _ "text"%string H1 eq_refl) _).
  vm_compute; reflexivity.
Defined.

(** X18: when every option number can be served but the highest one lies
    outside the bounds, no options are returned: the assertion throws where
    assertions are on, otherwise the error is logged and the result is
    undefined. *)
Theorem improper_number_of_options attributes optionBounds_ devAsserts :
  firstUnservable attributes = None ->
  ~ withinBounds optionBounds_ (highestNumber attributes) ->
  parseOptions_ attributes optionBounds_ devAsserts
  = if devAsserts then Thrown AssertionError else Undefined.
Proof.
  intros Hu Hb. pose proof (parseOptions_spec attributes optionBounds_ devAsserts) as H.
  rewrite Hu in H. destruct H as (options & _ & _ & _ & ->).
  rewrite withinBounds_test in Hb. by destruct (_ && _).
Qed.

Lemma improper_number_of_options_witness :
  parseOptions_ [("option-1-text", "A")]%string (2, 4)%nat false = Undefined
  /\ parseOptions_ [("option-1-text", "A"); ("option-5-text", "E")]%string (2, 4)%nat true
     = Thrown AssertionError.
Proof.
  split.
  - apply (improper_number_of_options [("option-1-text", "A")]%string (2, 4)%nat false).
    + reflexivity.
    + vm_compute. lia.
  - apply (improper_number_of_options
             [("option-1-text", "A"); ("option-5-text", "E")]%string (2, 4)%nat true).
    + reflexivity.
    + vm_compute. lia.
Defined.

(** X19: an option attribute with the number 0 makes [parseOptions_] throw
    a type error, whatever the bounds and the attributes after it are:
    there is no option before the first to take its property.  (Attributes
    before it must not ask for more options than an array can hold.) *)
Theorem option_number_zero_throws attributes optionBounds_ devAsserts :
  firstUnservable attributes = Some 0%N ->
  parseOptions_ attributes optionBounds_ devAsserts = Thrown TypeError.
Proof.
  intros Hu. pose proof (parseOptions_spec attributes optionBounds_ devAsserts) as H.
  by rewrite Hu in H.
Qed.

Lemma option_number_zero_throws_witness :
  parseOptions_ [("option-1-text", "A"); ("option-0-text", "B"); ("option-2-text", "C")]%string
                (2, 4)%nat false
  = Thrown TypeError.
Proof.
  apply (option_number_zero_throws
           [("option-1-text", "A"); ("option-0-text", "B"); ("option-2-text", "C")]%string
           (2, 4)%nat false).
  reflexivity.
Defined.

(** X20: attributes that are not option attributes have no influence:
    leaving them out gives the same outcome. *)
Theorem other_attributes_are_ignored attributes optionBounds_ devAsserts :
  parseOptions_ (List.filter isOptionAttribute attributes) optionBounds_ devAsserts
  = parseOptions_ attributes optionBounds_ devAsserts.
Proof. unfold parseOptions_. by rewrite readAttributes_filter. Qed.

(** X21: the order of the attributes does not matter as long as no two
    of them give the same property of the same option (as [option-1-text]
    and [option-01-text] would): attributes in another order give the same
    options. *)
Theorem attribute_order_is_irrelevant
        attributes1 attributes2 optionBounds_ devAsserts options :
  attributes1 ≡ₚ attributes2 ->
  NoDup (target <$> optionAttributes attributes1) ->
  parseOptions_ attributes1 optionBounds_ devAsserts = Options options ->
  parseOptions_ attributes2 optionBounds_ devAsserts = Options options.
Proof.
  intros Hp Hnd H1.
  assert (Hts : optionAttributes attributes1 ≡ₚ optionAttributes attributes2)
    by (unfold optionAttributes; by rewrite Hp).
  assert (Hh : highestNumber attributes1 = highestNumber attributes2)
    by (unfold highestNumber, numbers; apply max_list_Permutation; by rewrite Hts).
  pose proof (parseOptions_spec attributes1 optionBounds_ devAsserts) as S1.
  pose proof (parseOptions_spec attributes2 optionBounds_ devAsserts) as S2.
  destruct (firstUnservable attributes1) as [n|] eqn:U1; [by rewrite H1 in S1|].
  assert (U2 : firstUnservable attributes2 = None).
  { unfold firstUnservable, numbers in *. apply find_None_Forall.
    apply find_None_Forall in U1. by rewrite <- Hts. }
  rewrite U2 in S2.
  destruct S1 as (o1 & _ & L1 & F1 & E1), S2 as (o2 & _ & L2 & F2 & E2).
  rewrite E2, <- Hh. rewrite H1 in E1.
  destruct (_ && _); [|by destruct devAsserts]. injection E1 as ->.
  f_equal. apply list_eq. intros i.
  destruct (decide (i < length o1)%nat) as [Hi|Hi].
  - rewrite F1, F2 by lia. f_equal. symmetry. by apply objectOf_Permutation.
  - rewrite !lookup_ge_None_2 by lia. done.
Qed.

Lemma attribute_order_is_irrelevant_witness :
  parseOptions_ [("option-1-text", "A"); ("id", "quiz"); ("option-2-text", "B")]%string
                (2, 4)%nat false
  = Options [<["text"%string := Str "A"]> (bare 0); <["text"%string := Str "B"]> (bare 1)].
Proof.
  apply (attribute_order_is_irrelevant
           [("id", "quiz"); ("option-1-text", "A"); ("option-2-text", "B")]%string
           [("option-1-text", "A"); ("id", "quiz"); ("option-2-text", "B")]%string).
  - apply perm_swap.
  - apply (bool_decide_unpack _). vm_compute. exact I.
  - vm_compute; reflexivity.
Defined.

End OptionParsing.

Module FontFacts.
Import Lifecycle Fonts.

Lemma loadFonts_done support st :
  loadedFonts st = true -> (loadFonts_ support st).2 = st.
Proof. destruct st as [l f]. simpl. intros ->. done. Qed.

Lemma buildAll_done supports st :
  loadedFonts st = true -> buildAll supports st = st.
Proof.
  intros H. induction supports as [|s supports IH]; [done|].
  unfold buildAll in *. simpl. by rewrite loadFonts_done.
Qed.

(** X22: however many components are built, the fonts are loaded at most
    once, each of the two faces once, by the first call whose test does not
    throw, and only if that call finds [document.fonts]; every other call
    starts no load. *)
Theorem fonts_are_loaded_at_most_once supports :
  fontLoads (buildAll supports startFonts)
  = match firstCompleting supports with
    | Some FontSetAndFontFace =>
        map (fun fontProperties => {| properties := fontProperties; style := "normal" |})
            fontsToLoad
    | _ => []
    end.
Proof.
  induction supports as [|s supports IH]; [done|].
  destruct s.
  - unfold buildAll. simpl. by rewrite (buildAll_done supports).
  - exact IH.
  - unfold buildAll. simpl. by rewrite (buildAll_done supports).
Qed.

End FontFacts.
